(** * vscode-rss: the application controller, its collections and the AI key store

    A shallow embedding of [src/app.ts] (class [App]) and of the
    [AIConfigManager] class, together with a model of the [Collection]
    facade the controller drives.  JavaScript objects used as dictionaries
    are finite maps over their own keys (account ids, feed URLs, article
    ids).  The asynchronous refresh commands are split into the part that
    runs when the command is issued and the part that runs when the awaited
    fetch settles; every other handler is one step.  Every call the
    controller makes on a collaborator is recorded in a log. *)

From stdpp Require Import gmap strings list sorting.
From Stdlib Require Import ZArith.

Open Scope Z_scope.

(** ** Content records *)

Module Abstract.
(** Modelled from the spec: the Abstract of the data model.  Its
    declaration in [content.ts] is only imported by [app.ts], which reads
    [id], [title] and [link] and writes [read].  [date] is the publication
    time in milliseconds. *)
Record t := mk {
  id : string;
  title : string;
  date : Z;
  feed : string;
  link : option string;
  read : bool;
  favorite : bool
}.

Definition set_read (b : bool) (a : t) : t :=
  mk (id a) (title a) (date a) (feed a) (link a) b (favorite a).

Definition set_favorite (b : bool) (a : t) : t :=
  mk (id a) (title a) (date a) (feed a) (link a) (read a) b.
End Abstract.

Module Summary.
(** Modelled from the spec: the Summary of the data model.  Its
    declaration in [content.ts] is only imported by [app.ts], which reads
    [title] and [link].  [catalog] is the ordered catalog of article
    ids. *)
Record t := mk {
  title : string;
  link : string;
  catalog : list string
}.

Definition set_catalog (l : list string) (s : t) : t :=
  mk (title s) (link s) l.
End Summary.

(** ** The Collection facade *)

Module Collection.

(** Modelled from the spec: the ContentStore of one account, with its
    [feeds/] namespace of summaries, the persisted copies of the
    abstracts, and the [articles/] namespace of content bodies.  The
    classes [Collection], [LocalCollection], [TTRSSCollection] and
    [InoreaderCollection] are only imported by [app.ts]; what they do is
    taken from the specification throughout this module. *)
Record Store := mkStore {
  st_summaries : gmap string Summary.t;
  st_abstracts : gmap string Abstract.t;
  st_contents : gmap string string
}.

Definition empty_store : Store := mkStore ∅ ∅ ∅.

(** Modelled from the spec: the in-memory catalog of a Collection, its
    FavoritesList and the pending set of its DirtyTracker. *)
Record Mem := mkMem {
  m_summaries : gmap string Summary.t;
  m_abstracts : gmap string Abstract.t;
  m_favorites : list string;
  m_dirty : gset string
}.

Definition empty_mem : Mem := mkMem ∅ ∅ [] ∅.

Record t := mk { mem : Mem; store : Store }.

Definition summaries (c : t) := m_summaries (mem c).
Definition abstracts (c : t) := m_abstracts (mem c).
Definition favorites (c : t) := m_favorites (mem c).
Definition dirty (c : t) := m_dirty (mem c).
Definition contents (c : t) := st_contents (store c).

Definition getSummary (url : string) (c : t) : option Summary.t :=
  summaries c !! url.

Definition getAbstract (id : string) (c : t) : option Abstract.t :=
  abstracts c !! id.

(** Modelled from the spec: the Abstracts a Summary owns are those its
    catalog lists, in catalog order. *)
Definition catalog_abstracts (c : t) (s : Summary.t) : list Abstract.t :=
  omap (λ id, abstracts c !! id) (Summary.catalog s).

(** Modelled from the spec: descending publish date. *)
Definition date_desc (a b : Abstract.t) : Prop :=
  Abstract.date b ≤ Abstract.date a.

Global Instance date_desc_dec a b : Decision (date_desc a b).
Proof. unfold date_desc. apply _. Defined.

Definition unread (a : Abstract.t) : bool := negb (Abstract.read a).

(** Modelled from the spec: [getArticles(feedURL | '<unread>')]; the
    virtual feed ['<unread>'] aggregates the unread abstracts of all
    feeds, by descending publish date; a real feed lists its catalog. *)
Definition getArticles (feed : string) (c : t) : list Abstract.t :=
  if decide (feed = "<unread>")
  then merge_sort date_desc
         (List.filter unread
            (mjoin (catalog_abstracts c <$> (map_to_list (summaries c)).*2)))
  else match summaries c !! feed with
       | Some s => catalog_abstracts c s
       | None => []
       end.

(** Modelled from the spec: [getFavorites()], sourced from the
    FavoritesList. *)
Definition getFavorites (c : t) : list Abstract.t :=
  omap (λ id, abstracts c !! id) (favorites c).

(** Modelled from the spec: [getContent(articleID)]; [None] is the
    NotFound failure. *)
Definition getContent (id : string) (c : t) : option string :=
  contents c !! id.

(** Modelled from the spec: the read and favorite changes of a new
    state, applied to an Abstract. *)
Definition apply_state (new old : Abstract.t) : Abstract.t :=
  Abstract.set_favorite (Abstract.favorite new)
    (Abstract.set_read (Abstract.read new) old).

(** Modelled from the spec: [updateAbstract(id, newState)] applies the
    read and favorite flags of [newState] to the in-memory Abstract and
    calls DirtyTracker.markMutated.  The handle it returns is the
    collection, whose [commit] flushes. *)
Definition updateAbstract (id : string) (new : Abstract.t) (c : t) : t :=
  mk (mkMem (summaries c)
            (alter (apply_state new) id (abstracts c))
            (favorites c)
            ({[ id ]} ∪ dirty c))
     (store c).

(** Modelled from the spec: flushing one pending Abstract makes the
    persisted copy follow the in-memory one. *)
Definition flush_one (m : gmap string Abstract.t) (id : string)
    (st : gmap string Abstract.t) : gmap string Abstract.t :=
  match m !! id with
  | Some a => <[ id := a ]> st
  | None => delete id st
  end.

(** Modelled from the spec: [commit()] flushes every pending mutation to
    the ContentStore and clears the pending set; with nothing pending it
    is a no-op.  (The push to a remote service is not modelled.) *)
Definition commit (c : t) : t :=
  mk (mkMem (summaries c) (abstracts c) (favorites c) ∅)
     (mkStore (st_summaries (store c))
              (foldr (flush_one (abstracts c)) (st_abstracts (store c))
                     (elements (dirty c)))
              (st_contents (store c))).

(** Modelled from the spec: [addToFavorites(id)] sets the favorite flag
    of the Abstract and enters its id in the FavoritesList, in one step;
    an id without an Abstract is left out. *)
Definition addToFavorites (id : string) (c : t) : t :=
  match abstracts c !! id with
  | Some a =>
      mk (mkMem (summaries c)
                (<[ id := Abstract.set_favorite true a ]> (abstracts c))
                (if decide (id ∈ favorites c) then favorites c
                 else favorites c ++ [id])
                ({[ id ]} ∪ dirty c))
         (store c)
  | None => c
  end.

(** Modelled from the spec: [removeFromFavorites(id)] clears the flag
    and takes the id out of the FavoritesList, in one step. *)
Definition removeFromFavorites (id : string) (c : t) : t :=
  mk (mkMem (summaries c)
            (alter (Abstract.set_favorite false) id (abstracts c))
            (List.filter (λ i, bool_decide (i ≠ id)) (favorites c))
            (if decide (is_Some (abstracts c !! id))
             then {[ id ]} ∪ dirty c else dirty c))
     (store c).

(** Removing a list of keys from a map. *)
Definition delete_all {V} (ids : list string) (m : gmap string V)
    : gmap string V :=
  foldr delete m ids.

(** Modelled from the spec: ContentStore [putSummary(feedURL, Summary)]. *)
Definition store_putSummary (url : string) (sm : Summary.t) (s : Store)
    : Store :=
  mkStore (<[ url := sm ]> (st_summaries s)) (st_abstracts s) (st_contents s).

(** Modelled from the spec: ContentStore [deleteArticles(ids)]. *)
Definition store_deleteArticles (ids : list string) (s : Store) : Store :=
  mkStore (st_summaries s)
          (delete_all ids (st_abstracts s))
          (delete_all ids (st_contents s)).

(** Modelled from the spec: ContentStore [deleteFeed(feedURL)] removes
    the summary and all its article content. *)
Definition store_deleteFeed (url : string) (ids : list string)
    (s : Store) : Store :=
  mkStore (delete url (st_summaries s))
          (delete_all ids (st_abstracts s))
          (delete_all ids (st_contents s)).

Definition not_in (ids : list string) (i : string) : bool :=
  bool_decide (i ∉ ids).

(** Modelled from the spec: [delFeed(url)] removes the Summary, its
    Abstracts and the favorites that reference them. *)
Definition delFeed (url : string) (c : t) : t :=
  match summaries c !! url with
  | Some s =>
      let ids := Summary.catalog s in
      mk (mkMem (delete url (summaries c))
                (delete_all ids (abstracts c))
                (List.filter (not_in ids) (favorites c))
                (dirty c ∖ list_to_set ids))
         (store_deleteFeed url ids (store c))
  | None => c
  end.

(** Modelled from the spec: the retention rule; an Abstract may go when
    it is older than the threshold, read, and not a favorite. *)
Definition expired (now maxAge : Z) (a : Abstract.t) : bool :=
  bool_decide (maxAge < now - Abstract.date a).

Definition removable (now maxAge : Z) (a : Abstract.t) : bool :=
  expired now maxAge a && Abstract.read a && negb (Abstract.favorite a).

Definition removable_id (now maxAge : Z) (c : t) (id : string) : bool :=
  match abstracts c !! id with
  | Some a => removable now maxAge a
  | None => false
  end.

(** Modelled from the spec: [cleanOldArticles(feedURL, maxAgeMs)] deletes
    the Abstracts of the feed (and their content) that are older than the
    threshold, except the unread and the favorited ones.  [now] is the
    clock reading. *)
Definition cleanOldArticles (now : Z) (url : string) (maxAge : Z)
    (c : t) : t :=
  match summaries c !! url with
  | Some s =>
      let ids := List.filter (removable_id now maxAge c) (Summary.catalog s) in
      let keep := List.filter (not_in ids) (Summary.catalog s) in
      let s' := Summary.set_catalog keep s in
      mk (mkMem (<[ url := s' ]> (summaries c))
                (delete_all ids (abstracts c))
                (favorites c)
                (dirty c ∖ list_to_set ids))
         (store_putSummary url s' (store_deleteArticles ids (store c)))
  | None => c
  end.

(** Modelled from the spec: [cleanAllOldArticles(maxAgeMs)] is the sweep
    of every feed. *)
Definition cleanAllOldArticles (now : Z) (maxAge : Z) (c : t) : t :=
  foldr (λ url acc, cleanOldArticles now url maxAge acc) c
        (map_to_list (summaries c)).*1.

(** Modelled from the spec: [clean()] tears down the persisted state of
    the account. *)
Definition clean (c : t) : t := mk empty_mem empty_store.

End Collection.

(** ** The stored AI API key *)

Module AIConfigManager.

(** A JavaScript string is a sequence of UTF-16 code units. *)
Definition jsstring := list N.

(** The code units [String.prototype.trim] strips: ECMAScript WhiteSpace
    and LineTerminator. *)
Definition is_white_space (c : N) : bool :=
  ((9 <=? c) && (c <=? 13) || (c =? 32) || (c =? 160) || (c =? 5760)
   || (8192 <=? c) && (c <=? 8202) || (c =? 8232) || (c =? 8233)
   || (c =? 8239) || (c =? 8287) || (c =? 12288) || (c =? 65279))%N.

Fixpoint trimStart (s : jsstring) : jsstring :=
  match s with
  | [] => []
  | c :: s' => if is_white_space c then trimStart s' else s
  end.

Definition trimEnd (s : jsstring) : jsstring := rev (trimStart (rev s)).

Definition trim (s : jsstring) : jsstring := trimEnd (trimStart s).

(** [s === ''] *)
Definition is_empty (s : jsstring) : bool :=
  match s with [] => true | _ => false end.

(** The two places a key can live in: the SecretStorage entry under
    [SECRET_KEY] and the setting [rss.ai-brief-api-key]. *)
Record t := mk {
  secret : option jsstring;
  settings_key : option jsstring
}.

(** [v && v.trim() !== ''] for a value that may be [undefined]. *)
Definition present (v : option jsstring) : bool :=
  match v with
  | Some s => negb (is_empty s) && negb (is_empty (trim s))
  | None => false
  end.

Definition deleteApiKey (st : t) : t := mk None (settings_key st).

Definition setApiKey (apiKey : jsstring) (st : t) : t :=
  if is_empty apiKey || is_empty (trim apiKey)
  then deleteApiKey st
  else mk (Some apiKey) (settings_key st).

Definition getApiKey (st : t) : option jsstring * t :=
  let secretKey := secret st in
  if present secretKey then (secretKey, st)
  else
    let settingsKey := settings_key st in
    match settingsKey with
    | Some k =>
        if present settingsKey then
          let st1 := setApiKey k st in
          (Some k, mk (secret st1) (Some []))
        else (None, st)
    | None => (None, st)
    end.

(** A string that is empty or made of white space only. *)
Definition blank (s : jsstring) : Prop :=
  Forall (λ c, is_white_space c = true) s.

(** A value that is [undefined] or blank. *)
Definition absent (v : option jsstring) : Prop :=
  match v with
  | Some s => blank s
  | None => True
  end.

End AIConfigManager.

(** ** The application controller *)

Module App.

(** An entry of the [rss.accounts] setting, as the three
    [create...Account] methods write it. *)
Inductive AccountCfg :=
| LocalAccount (name : string)
| TTRSSAccount (name server username password : string)
| InoreaderAccount (name appid appkey : string).

(** The calls the controller makes on its collaborators. *)
Inductive Call :=
| CallGetArticles (key feed : string)
| CallGetSummary (key feed : string)
| CallGetFavorites (key : string)
| CallGetContent (key id : string)
| CallUpdateAbstract (key id : string)
| CallCommit (key : string)
| CallFetchAll (key : string) (force : bool)
| CallFetchOne (key url : string) (force : bool)
| CallAddToFavorites (key id : string)
| CallRemoveFromFavorites (key id : string)
| CallDelFeed (key url : string)
| CallCleanOldArticles (key url : string) (expire : Z)
| CallCleanAllOldArticles (key : string) (expire : Z)
| CallClean (key : string)
| CallCfgUpdateAccounts
| CallWithProgress
| CallCreatePanel (title : string)
| CallDisposePanel
| CallListRefresh (list : Z).

(** A refresh whose fetch is awaited. *)
Inductive Task :=
| TaskAll (keys : list string)
| TaskAccount (key : string)
| TaskOne (key url : string).

Record t := mk {
  current_account : option string;
  current_feed : option string;
  updating : bool;
  article_tree_view : option string;
  collections : gmap string Collection.Mem;
  storage : gmap string Collection.Store;
  cfg_accounts : gmap string AccountCfg;
  inflight : list Task;
  log : list Call
}.

Definition set_current_account v st :=
  mk v (current_feed st) (updating st) (article_tree_view st)
     (collections st) (storage st) (cfg_accounts st) (inflight st) (log st).
Definition set_current_feed v st :=
  mk (current_account st) v (updating st) (article_tree_view st)
     (collections st) (storage st) (cfg_accounts st) (inflight st) (log st).
Definition set_updating v st :=
  mk (current_account st) (current_feed st) v (article_tree_view st)
     (collections st) (storage st) (cfg_accounts st) (inflight st) (log st).
Definition set_article_tree_view v st :=
  mk (current_account st) (current_feed st) (updating st) v
     (collections st) (storage st) (cfg_accounts st) (inflight st) (log st).
Definition set_collections v st :=
  mk (current_account st) (current_feed st) (updating st)
     (article_tree_view st) v (storage st) (cfg_accounts st) (inflight st)
     (log st).
Definition set_storage v st :=
  mk (current_account st) (current_feed st) (updating st)
     (article_tree_view st) (collections st) v (cfg_accounts st)
     (inflight st) (log st).
Definition set_cfg_accounts v st :=
  mk (current_account st) (current_feed st) (updating st)
     (article_tree_view st) (collections st) (storage st) v (inflight st)
     (log st).
Definition set_inflight v st :=
  mk (current_account st) (current_feed st) (updating st)
     (article_tree_view st) (collections st) (storage st) (cfg_accounts st)
     v (log st).
Definition set_log v st :=
  mk (current_account st) (current_feed st) (updating st)
     (article_tree_view st) (collections st) (storage st) (cfg_accounts st)
     (inflight st) v.

(** What is persisted under the storage root for an account. *)
Definition persisted (key : string) (st : t) : Collection.Store :=
  default Collection.empty_store (storage st !! key).

(** [this.collections[key]]: the live Collection of an account, seen
    with its persisted state. *)
Definition collection (key : string) (st : t) : option Collection.t :=
  m ← collections st !! key; Some (Collection.mk m (persisted key st)).

Definition put_collection (key : string) (c : Collection.t) (st : t) : t :=
  set_storage (<[ key := Collection.store c ]> (storage st))
    (set_collections (<[ key := Collection.mem c ]> (collections st)) st).

(** *** Handlers as state transformers that may throw *)

Inductive outcome (A : Type) :=
| Returned (a : A)
| Thrown.
Arguments Returned {A} a.
Arguments Thrown {A}.

Definition M (A : Type) : Type := t → outcome A * t.

Definition ret {A} (a : A) : M A := λ st, (Returned a, st).
Definition throw {A} : M A := λ st, (Thrown, st).
Definition bind {A B} (m : M A) (k : A → M B) : M B :=
  λ st, match m st with
        | (Returned a, st') => k a st'
        | (Thrown, st') => (Thrown, st')
        end.
Definition gets {A} (f : t → A) : M A := λ st, (Returned (f st), st).
Definition modify (f : t → t) : M unit := λ st, (Returned tt, f st).
Definition call (c : Call) : M unit :=
  modify (λ st, set_log (log st ++ [c]) st).
Definition when (b : bool) (m : M unit) : M unit :=
  if b then m else ret tt.

Notation "'let*' x ':=' m 'in' k" := (bind m (λ x, k))
  (at level 10, x name, m at level 100, k at level 200).
Notation "m ';;' k" := (bind m (λ _, k))
  (at level 100, k at level 200, right associativity).

Fixpoint for_each {A} (l : list A) (body : A → M unit) : M unit :=
  match l with
  | [] => ret tt
  | x :: l' => body x ;; for_each l' body
  end.

(** The final state of a handler, whether it returned or threw. *)
Definition exec {A} (m : M A) (st : t) : t := (m st).2.

(** A method call on the Collection registered under [key]; on a
    missing Collection ([undefined]) the call throws a TypeError. *)
Definition method {A} (key : string) (c : Call)
    (f : Collection.t → A * Collection.t) : M A :=
  λ st, match collection key st with
        | Some col =>
            let '(a, col') := f col in
            (Returned a,
             put_collection key col' (set_log (log st ++ [c]) st))
        | None => (Thrown, st)
        end.

Definition query {A} (f : Collection.t → A) (c : Collection.t)
    : A * Collection.t := (f c, c).
Definition update (f : Collection.t → Collection.t) (c : Collection.t)
    : unit * Collection.t := (tt, f c).

(** [this.current_account!] used as a property name: [undefined] reads
    the property called "undefined". *)
Definition curr_key (st : t) : string :=
  default "undefined" (current_account st).

Definition ACCOUNT : Z := 1.
Definition FEED : Z := Z.shiftl 1 1.
Definition ARTICLE : Z := Z.shiftl 1 2.
Definition FAVORITES : Z := Z.shiftl 1 3.
Definition STATUS_BAR : Z := Z.shiftl 1 4.
Definition ALL_LISTS : Z := 31.

Definition truthy (n : Z) : bool := negb (n =? 0).

Definition refreshLists (list : Z) : M unit :=
  when (truthy (Z.land list ACCOUNT)) (call (CallListRefresh ACCOUNT)) ;;
  when (truthy (Z.land list FEED)) (call (CallListRefresh FEED)) ;;
  when (truthy (Z.land list ARTICLE)) (call (CallListRefresh ARTICLE)) ;;
  when (truthy (Z.land list FAVORITES)) (call (CallListRefresh FAVORITES)) ;;
  when (truthy (Z.land list STATUS_BAR)) (call (CallListRefresh STATUS_BAR)).

Definition currArticles : M (list Abstract.t) :=
  let* feed := gets current_feed in
  match feed with
  | None => ret []
  | Some f =>
      let* key := gets curr_key in
      method key (CallGetArticles key f) (query (Collection.getArticles f))
  end.

Definition currFavorites : M (list Abstract.t) :=
  let* key := gets curr_key in
  method key (CallGetFavorites key) (query Collection.getFavorites).

Definition rss_select (account : string) : M unit :=
  modify (set_current_account (Some account)) ;;
  modify (set_current_feed None) ;;
  (let* view := gets article_tree_view in
   when (bool_decide (is_Some view))
        (modify (set_article_tree_view (Some "Articles")))) ;;
  refreshLists (Z.lor (Z.lor FEED ARTICLE) FAVORITES).

Definition rss_articles (feed : string) : M unit :=
  modify (set_current_feed (Some feed)) ;;
  (let* view := gets article_tree_view in
   match view with
   | None => ret tt
   | Some _ =>
       if decide (feed = "<unread>")
       then modify (set_article_tree_view (Some "Articles (Unread)"))
       else
         let* key := gets curr_key in
         let* summary :=
           method key (CallGetSummary key feed)
                  (query (Collection.getSummary feed)) in
         match summary with
         | Some s =>
             modify (set_article_tree_view
                       (Some ("Articles (" +:+ Summary.title s +:+ ")")))
         | None => modify (set_article_tree_view (Some "Articles"))
         end
   end) ;;
  refreshLists ARTICLE.

(** *** Reading and marking articles

    A handler receives the Abstract of the tree item it was invoked on;
    an assignment to one of its fields is carried by the value that is
    then handed to [updateAbstract]. *)

Definition update_and_commit (abstract : Abstract.t) : M unit :=
  let* key := gets curr_key in
  method key (CallUpdateAbstract key (Abstract.id abstract))
         (update (Collection.updateAbstract (Abstract.id abstract) abstract)) ;;
  method key (CallCommit key) (update Collection.commit).

Definition rss_read (abstract : Abstract.t) : M unit :=
  let* key := gets curr_key in
  let* content :=
    method key (CallGetContent key (Abstract.id abstract))
           (query (Collection.getContent (Abstract.id abstract))) in
  match content with
  | None => throw
  | Some _ =>
      call (CallCreatePanel (Abstract.title abstract)) ;;
      let abstract := Abstract.set_read true abstract in
      (let* key := gets curr_key in
       method key (CallGetArticles key "<unread>")
              (query (Collection.getArticles "<unread>")) ;; ret tt) ;;
      refreshLists ALL_LISTS ;;
      update_and_commit abstract
  end.

(** The messages of the article panel that reach the controller; a
    ['web'] message opens the link and changes nothing here. *)
Inductive Message := MsgWeb | MsgStar | MsgNext.

Definition panel_message (e : Message) (abstract : Abstract.t) : M unit :=
  match e with
  | MsgWeb => ret tt
  | MsgStar =>
      let* key := gets curr_key in
      method key (CallAddToFavorites key (Abstract.id abstract))
             (update (Collection.addToFavorites (Abstract.id abstract))) ;;
      refreshLists FAVORITES
  | MsgNext =>
      let* key := gets curr_key in
      let* unread :=
        method key (CallGetArticles key "<unread>")
               (query (Collection.getArticles "<unread>")) in
      match unread with
      | abs :: _ => call CallDisposePanel ;; rss_read abs
      | [] => ret tt
      end
  end.

Definition rss_mark_read (abstract : Abstract.t) : M unit :=
  let abstract := Abstract.set_read true abstract in
  refreshLists ALL_LISTS ;;
  update_and_commit abstract.

Definition rss_mark_unread (abstract : Abstract.t) : M unit :=
  let abstract := Abstract.set_read false abstract in
  refreshLists ALL_LISTS ;;
  update_and_commit abstract.

Definition mark_each (key_of : M string) (abstracts : list Abstract.t)
    : M unit :=
  for_each abstracts (λ abstract,
    let abstract := Abstract.set_read true abstract in
    let* key := key_of in
    method key (CallUpdateAbstract key (Abstract.id abstract))
           (update (Collection.updateAbstract (Abstract.id abstract)
                      abstract))).

Definition rss_mark_all_read (feed : option string) : M unit :=
  let* abstracts :=
    match feed with
    | Some f =>
        let* key := gets curr_key in
        method key (CallGetArticles key f) (query (Collection.getArticles f))
    | None => currArticles
    end in
  mark_each (gets curr_key) abstracts ;;
  refreshLists ALL_LISTS ;;
  let* key := gets curr_key in
  method key (CallCommit key) (update Collection.commit).

Definition rss_mark_account_read (account : option string) : M unit :=
  let* key := match account with
              | Some k => ret k
              | None => gets curr_key
              end in
  let* unread :=
    method key (CallGetArticles key "<unread>")
           (query (Collection.getArticles "<unread>")) in
  mark_each (ret key) unread ;;
  refreshLists ALL_LISTS ;;
  method key (CallCommit key) (update Collection.commit).

(** *** Feeds and favorites *)

Definition rss_remove_feed (feed : string) : M unit :=
  let* key := gets curr_key in
  method key (CallDelFeed key feed) (update (Collection.delFeed feed)).

Definition rss_add_to_favorites (abstract : Abstract.t) : M unit :=
  let* key := gets curr_key in
  method key (CallAddToFavorites key (Abstract.id abstract))
         (update (Collection.addToFavorites (Abstract.id abstract))) ;;
  refreshLists FAVORITES.

Definition rss_remove_from_favorites (abstract : Abstract.t) : M unit :=
  let* key := gets curr_key in
  method key (CallRemoveFromFavorites key (Abstract.id abstract))
         (update (Collection.removeFromFavorites (Abstract.id abstract))) ;;
  refreshLists FAVORITES.

(** *** Accounts

    [this.collections] and the accounts setting are plain objects.  A
    property read such as [this.collections[key]], a truthiness test of
    it and the [in] operator also see the members that every object
    inherits from [Object.prototype]; [Object.keys], [for ... in] and
    [delete] see the own properties only, which are the keys of the
    map. *)

Definition prototype_members : list string :=
  ["constructor"; "__proto__"; "hasOwnProperty"; "isPrototypeOf";
   "propertyIsEnumerable"; "toLocaleString"; "toString"; "valueOf";
   "__defineGetter__"; "__defineSetter__"; "__lookupGetter__";
   "__lookupSetter__"].

Definition inherited (key : string) : bool :=
  bool_decide (key ∈ prototype_members).

(** For a key without a Collection of its own that names an inherited
    member, [collection] is that member: it is not [undefined], and
    [collection.clean()] throws a TypeError. *)
Definition removeAccount (key : string) : M unit :=
  let* col := gets (collection key) in
  match col with
  | None => if inherited key then throw else ret tt
  | Some _ =>
      method key (CallClean key) (update Collection.clean) ;;
      modify (λ st, set_collections (delete key (collections st)) st) ;;
      modify (λ st, set_cfg_accounts (delete key (cfg_accounts st)) st) ;;
      call CallCfgUpdateAccounts
  end.

(** [confirm] is the answer of the quick pick. *)
Definition rss_del_account (confirm : option string) (account : string)
    : M unit :=
  if decide (confirm = Some "yes") then removeAccount account else ret tt.

(** *** Refreshing

    A refresh command runs up to the point where the fetch is awaited
    and leaves a [Task] in flight; [settled] and [rejected] are the two
    ways the awaited promise of the oldest task can end.  [rss_refresh]
    calls [fetchAll] on every Collection; the program does so in the
    order of [Object.values], the order in which the Collections were
    registered, which the map does not record: here the order is that of
    the map, and no theorem about a refresh depends on it. *)

Definition rss_refresh (auto : bool) : M unit :=
  let* busy := gets updating in
  if busy then ret tt
  else
    modify (set_updating true) ;;
    call CallWithProgress ;;
    let* keys := gets (λ st, (map_to_list (collections st)).*1) in
    for_each keys (λ key, call (CallFetchAll key true)) ;;
    modify (λ st, set_inflight (inflight st ++ [TaskAll keys]) st).

Definition rss_refresh_account (account : option string) : M unit :=
  let* busy := gets updating in
  if busy then ret tt
  else
    modify (set_updating true) ;;
    call CallWithProgress ;;
    let* key := match account with
                | Some k => ret k
                | None => gets curr_key
                end in
    let* col := gets (collection key) in
    match col with
    | None => throw
    | Some _ =>
        call (CallFetchAll key true) ;;
        modify (λ st, set_inflight (inflight st ++ [TaskAccount key]) st)
    end.

Definition rss_refresh_one (feed : option string) : M unit :=
  let* busy := gets updating in
  if busy then ret tt
  else
    let* url := match feed with
                | Some f => ret (Some f)
                | None => gets current_feed
                end in
    match url with
    | None => ret tt
    | Some url =>
        modify (set_updating true) ;;
        call CallWithProgress ;;
        let* key := gets curr_key in
        let* col := gets (collection key) in
        match col with
        | None => throw
        | Some _ =>
            call (CallFetchOne key url true) ;;
            modify (λ st, set_inflight (inflight st ++ [TaskOne key url]) st)
        end
    end.

Section Settle.
(** What a fetch merges into a Collection is decided by its
    FetchStrategy and by the network; both are parameters here. *)
Context (fetchAll : string → bool → Collection.t → Collection.t).
Context (fetchOne : string → string → bool → Collection.t → Collection.t).

Definition merge (key : string) (f : Collection.t → Collection.t)
    : M unit :=
  modify (λ st, match collection key st with
                | Some c => put_collection key (f c) st
                | None => st
                end).

Definition settled : M unit :=
  let* tasks := gets inflight in
  match tasks with
  | [] => ret tt
  | task :: rest =>
      modify (set_inflight rest) ;;
      match task with
      | TaskAll keys => for_each keys (λ k, merge k (fetchAll k true))
      | TaskAccount key => merge key (fetchAll key true)
      | TaskOne key url => merge key (fetchOne key url true)
      end ;;
      refreshLists ALL_LISTS ;;
      modify (set_updating false)
  end.

(** The callback stops at the rejected await: the lists are not
    refreshed and [updating] is not reset. *)
Definition rejected : M unit :=
  let* tasks := gets inflight in
  match tasks with
  | [] => ret tt
  | _ :: rest => modify (set_inflight rest)
  end.
End Settle.

(** *** Retention *)

Fixpoint indexOf (x : string) (l : list string) : option nat :=
  match l with
  | [] => None
  | y :: l' => if decide (y = x) then Some 0%nat else S <$> indexOf x l'
  end.

Definition expire_names : list string :=
  ["1 month"; "2 months"; "3 months"; "6 months"].
Definition expire_days : list Z := [1 * 30; 2 * 30; 3 * 30; 6 * 30].

(** [time] is the answer of the quick pick.  [None] stands for the two
    falsy results, [undefined] and the NaN of a name that is not in the
    table. *)
Definition selectExpire (time : option string) : option Z :=
  match time with
  | None => None
  | Some name =>
      if decide (name = "") then None
      else
        i ← indexOf name expire_names;
        d ← expire_days !! i;
        Some (d * 86400 * 1000)
  end.

(** [!expire] *)
Definition falsy (expire : option Z) : bool :=
  match expire with
  | None => true
  | Some n => n =? 0
  end.

Definition rss_clean_old_articles (now : Z) (feed : string)
    (time : option string) : M unit :=
  let exprie := selectExpire time in
  if falsy exprie then ret tt
  else
    let maxAge := default 0 exprie in
    call CallWithProgress ;;
    (let* key := gets curr_key in
     method key (CallCleanOldArticles key feed maxAge)
            (update (Collection.cleanOldArticles now feed maxAge))) ;;
    refreshLists (Z.lor ARTICLE STATUS_BAR).

Definition rss_clean_all_old_articles (now : Z) (account : string)
    (time : option string) : M unit :=
  let expire := selectExpire time in
  if falsy expire then ret tt
  else
    let maxAge := default 0 expire in
    call CallWithProgress ;;
    method account (CallCleanAllOldArticles account maxAge)
           (update (Collection.cleanAllOldArticles now maxAge)) ;;
    refreshLists (Z.lor ARTICLE STATUS_BAR).

(** *** Runs of the controller *)

Inductive Event :=
| EvSelect (account : string)
| EvArticles (feed : string)
| EvRead (abstract : Abstract.t)
| EvMessage (e : Message) (abstract : Abstract.t)
| EvMarkRead (abstract : Abstract.t)
| EvMarkUnread (abstract : Abstract.t)
| EvMarkAllRead (feed : option string)
| EvMarkAccountRead (account : option string)
| EvRefresh (auto : bool)
| EvRefreshAccount (account : option string)
| EvRefreshOne (feed : option string)
| EvSettled
| EvRejected
| EvRemoveFeed (feed : string)
| EvAddToFavorites (abstract : Abstract.t)
| EvRemoveFromFavorites (abstract : Abstract.t)
| EvDelAccount (confirm : option string) (account : string)
| EvCleanOldArticles (now : Z) (feed : string) (time : option string)
| EvCleanAllOldArticles (now : Z) (account : string) (time : option string).

Section Run.
Context (fetchAll : string → bool → Collection.t → Collection.t).
Context (fetchOne : string → string → bool → Collection.t → Collection.t).

Definition handler (ev : Event) : M unit :=
  match ev with
  | EvSelect account => rss_select account
  | EvArticles feed => rss_articles feed
  | EvRead abstract => rss_read abstract
  | EvMessage e abstract => panel_message e abstract
  | EvMarkRead abstract => rss_mark_read abstract
  | EvMarkUnread abstract => rss_mark_unread abstract
  | EvMarkAllRead feed => rss_mark_all_read feed
  | EvMarkAccountRead account => rss_mark_account_read account
  | EvRefresh auto => rss_refresh auto
  | EvRefreshAccount account => rss_refresh_account account
  | EvRefreshOne feed => rss_refresh_one feed
  | EvSettled => settled fetchAll fetchOne
  | EvRejected => rejected
  | EvRemoveFeed feed => rss_remove_feed feed
  | EvAddToFavorites abstract => rss_add_to_favorites abstract
  | EvRemoveFromFavorites abstract => rss_remove_from_favorites abstract
  | EvDelAccount confirm account => rss_del_account confirm account
  | EvCleanOldArticles now feed time => rss_clean_old_articles now feed time
  | EvCleanAllOldArticles now account time =>
      rss_clean_all_old_articles now account time
  end.

Definition step (st : t) (ev : Event) : t := exec (handler ev) st.

Definition run (evs : list Event) (st : t) : t := foldl step st evs.
End Run.

(** The controller as constructed: nothing selected, no refresh
    running. *)
Definition initial (collections : gmap string Collection.Mem)
    (storage : gmap string Collection.Store)
    (accounts : gmap string AccountCfg) (current : option string) : t :=
  mk current None false None collections storage accounts [] [].

End App.

(** ** The rest of the AI configuration *)

Module AIConfig.
Import AIConfigManager.

(** The secret store and the key setting, together with the settings
    [rss.ai-brief-enabled] (read with the default [false]),
    [rss.ai-brief-endpoint] and [rss.ai-brief-model]. *)
Record t := mk {
  keys : AIConfigManager.t;
  enabled : bool;
  endpoint : option jsstring;
  model : option jsstring
}.

Definition set_keys (k : AIConfigManager.t) (st : t) : t :=
  mk k (enabled st) (endpoint st) (model st).

Definition isEnabled (st : t) : bool := enabled st.

(** [v && v.trim() !== '' ? v : undefined] *)
Definition getEndpoint (st : t) : option jsstring :=
  if present (endpoint st) then endpoint st else None.

Definition getModel (st : t) : option jsstring :=
  if present (model st) then model st else None.

Record validation := mkValidation {
  valid : bool;
  error : option string
}.

Definition dquote : string := String (Ascii.ascii_of_nat 34) EmptyString.

Definition not_enabled : string := "AI brief feature is not enabled".
Definition no_endpoint : string := "AI service endpoint is not configured".
Definition no_api_key : string :=
  "API key is not configured. Please set it using the " +:+ dquote
  +:+ "RSS: Set AI API Key" +:+ dquote +:+ " command".
Definition no_model : string := "AI model is not configured".

(** [!v] for a string that may be [undefined]. *)
Definition missing (v : option jsstring) : bool :=
  match v with
  | Some s => is_empty s
  | None => true
  end.

Definition validateConfig (st : t) : validation * t :=
  if negb (isEnabled st) then (mkValidation false (Some not_enabled), st)
  else if missing (getEndpoint st)
  then (mkValidation false (Some no_endpoint), st)
  else
    let '(apiKey, keys') := getApiKey (keys st) in
    let st' := set_keys keys' st in
    if missing apiKey then (mkValidation false (Some no_api_key), st')
    else if missing (getModel st')
    then (mkValidation false (Some no_model), st')
    else (mkValidation true None, st').

(** The [validateInput] callback of the input box: the message shown, or
    [None] when the value is accepted. *)
Definition validateInput (value : jsstring) : option string :=
  if is_empty value || is_empty (trim value)
  then Some "API key cannot be empty"
  else None.

(** [apiKey] is what the input box resolved to; [None] when it was
    dismissed. *)
Definition promptForApiKey (apiKey : option jsstring)
    (st : AIConfigManager.t) : bool * AIConfigManager.t :=
  match apiKey with
  | Some k => if is_empty k then (false, st) else (true, setApiKey k st)
  | None => (false, st)
  end.

End AIConfig.

(** ** The AI service: reading the streamed response *)

Module AIService.
Import AIConfigManager.

(** [s.split("\n")]: the pieces between line feeds, never an empty
    list. *)
Fixpoint split (s : jsstring) : list jsstring :=
  match s with
  | [] => [[]]
  | c :: s' =>
      if (c =? 10)%N then [] :: split s'
      else match split s' with
           | l :: ls => (c :: l) :: ls
           | [] => [[c]]
           end
  end.

Fixpoint startsWith (prefix s : jsstring) : bool :=
  match prefix, s with
  | [], _ => true
  | p :: prefix', c :: s' => (p =? c)%N && startsWith prefix' s'
  | _ :: _, [] => false
  end.

(** [s.includes(pattern)] *)
Fixpoint includes (pattern s : jsstring) : bool :=
  startsWith pattern s
  || match s with
     | [] => false
     | _ :: s' => includes pattern s'
     end.

(** "generativelanguage.googleapis.com" *)
Definition gemini_host : jsstring :=
  [103; 101; 110; 101; 114; 97; 116; 105; 118; 101; 108; 97; 110; 103; 117;
   97; 103; 101; 46; 103; 111; 111; 103; 108; 101; 97; 112; 105; 115; 46; 99;
   111; 109]%N.

(** "data: " *)
Definition data_prefix : jsstring := [100; 97; 116; 97; 58; 32]%N.

(** "[DONE]" *)
Definition done_marker : jsstring := [91; 68; 79; 78; 69; 93]%N.

Definition isGemini (endpoint : jsstring) : bool :=
  includes gemini_host endpoint.

Section Stream.
(** What [JSON.parse] and the reads of [choices[0].delta.content], or of
    the [text] of the parts of [candidates[0].content], yield for one
    payload; nothing when the payload is malformed.  The JSON reader is
    the platform's and is a parameter here. *)
Context (texts_openai texts_gemini : jsstring → list jsstring).

(** What one complete line of the response yields. *)
Definition line_texts (gemini : bool) (line : jsstring) : list jsstring :=
  if gemini then
    if is_empty (trim line) then [] else texts_gemini line
  else
    if is_empty (trim line) || negb (startsWith data_prefix line) then []
    else
      let data := drop 6 line in
      if decide (data = done_marker) then [] else texts_openai data.

(** One turn of the [for await] loop: the chunk, as [chunk.toString()]
    decoded it on its own, is appended to the buffer, the complete lines
    are read, the rest stays in the buffer.  The state is the buffer with
    the texts yielded so far. *)
Definition feed (gemini : bool) (st : jsstring * list jsstring)
    (chunk : jsstring) : jsstring * list jsstring :=
  let buffer := st.1 ++ chunk in
  let lines := split buffer in
  (List.last lines [], st.2 ++ flat_map (line_texts gemini) (removelast lines)).

(** After the loop, what is left in the buffer is read for Gemini only. *)
Definition finish (gemini : bool) (st : jsstring * list jsstring)
    : list jsstring :=
  if is_empty (trim st.1) then st.2
  else if gemini then st.2 ++ texts_gemini st.1
  else st.2.

(** The texts [streamBrief] yields for a response that ends normally;
    [chunks] are the chunks that arrived, each one decoded by its own
    [toString()]. *)
Definition streamBrief (endpoint : jsstring) (chunks : list jsstring)
    : list jsstring :=
  finish (isGemini endpoint) (foldl (feed (isGemini endpoint)) ([], []) chunks).
End Stream.

(** [text.replace(/\s+/g, ' ')]: [in_run] tells that the previous code
    unit was white space. *)
Fixpoint collapse (in_run : bool) (s : jsstring) : jsstring :=
  match s with
  | [] => []
  | c :: s' =>
      if is_white_space c
      then if in_run then collapse true s' else 32%N :: collapse true s'
      else c :: collapse false s'
  end.

(** [extractTextFromHTML], with the text cheerio finds in the document as
    a parameter. *)
Definition extractTextFromHTML (text_of : jsstring → jsstring)
    (html : jsstring) : jsstring :=
  trim (collapse false (text_of html)).

End AIService.

(** ** The AI brief panel *)

Module AIBriefPanel.
Import AIConfigManager.

(** The messages posted to the webview of the article. *)
Inductive Post :=
| BriefCached (content : jsstring)
| BriefError (error : string)
| BriefChunk (content : jsstring)
| BriefComplete (content : jsstring).

(** What the service is asked: the endpoint, key and model it was created
    with, the title and the text it puts in the prompt. *)
Record Request := mkRequest {
  r_endpoint : jsstring;
  r_apiKey : jsstring;
  r_model : jsstring;
  r_title : string;
  r_content : jsstring
}.

(** How the HTTP exchange went: the chunks of the body that arrived and,
    when it broke, the status code of the error response, if there was
    one, with the message of the error. *)
Record Response := mkResponse {
  chunks : list jsstring;
  failure : option (option Z * string)
}.

Record t := mk {
  briefCache : gmap string jsstring;
  generatingArticles : gset string;
  configManager : AIConfig.t;
  requests : list Request;
  posts : list Post
}.

Definition set_briefCache v st :=
  mk v (generatingArticles st) (configManager st) (requests st) (posts st).
Definition set_generatingArticles v st :=
  mk (briefCache st) v (configManager st) (requests st) (posts st).
Definition set_configManager v st :=
  mk (briefCache st) (generatingArticles st) v (requests st) (posts st).
Definition request (r : Request) st :=
  mk (briefCache st) (generatingArticles st) (configManager st)
     (requests st ++ [r]) (posts st).
Definition postMessage (m : Post) st :=
  mk (briefCache st) (generatingArticles st) (configManager st)
     (requests st) (posts st ++ [m]).

(** The message of the error [streamBrief] throws for a broken
    exchange. *)
Definition service_error (f : option Z * string) : string :=
  match f.1 with
  | Some 401 => "Invalid API key. Please check your settings."
  | Some 429 => "Rate limit exceeded. Please try again later."
  | Some 400 =>
      "Invalid request. Please check your endpoint and model configuration."
  | _ => "Failed to generate brief: " +:+ f.2
  end.

(** [handleMessage] takes a message for its own when its [type] is
    "generateBrief"; [type] is [None] for a message without one, such as
    the strings the buttons of the panel post. *)
Definition handles (type : option string) : bool :=
  bool_decide (type = Some "generateBrief").

(** The 10000 code units the article text is cut to. *)
Definition content_limit : nat := Z.to_nat 10000.

Section Generate.
(** [renderMarkdown] ends in the markdown libraries, the text of a
    document is cheerio's, the payloads are read by the JSON reader and
    the response is the network's: all are parameters. *)
Context (renderMarkdown : jsstring → bool → jsstring).
Context (text_of : jsstring → jsstring).
Context (texts_openai texts_gemini : jsstring → list jsstring).
Context (respond : Request → Response).

(** The texts [streamBrief] yields before it ends or throws. *)
Definition yielded (endpoint : jsstring) (r : Response) : list jsstring :=
  match failure r with
  | None =>
      AIService.streamBrief texts_openai texts_gemini endpoint (chunks r)
  | Some _ =>
      (foldl (AIService.feed texts_openai texts_gemini
                (AIService.isGemini endpoint)) ([], []) (chunks r)).2
  end.

(** The loop over the yielded texts: each one is appended and the whole
    is rendered and posted. *)
Fixpoint stream_chunks (acc : jsstring) (texts : list jsstring) (st : t)
    : jsstring * t :=
  match texts with
  | [] => (acc, st)
  | chunk :: texts' =>
      let acc := acc ++ chunk in
      stream_chunks acc texts'
        (postMessage (BriefChunk (renderMarkdown acc false)) st)
  end.

(** The part of [generateBrief] that runs before its first [await]:
    whether the request goes on, and the state it leaves. *)
Definition enter (id : string) (st : t) : bool * t :=
  match briefCache st !! id with
  | Some (c :: cached) =>
      (false, postMessage (BriefCached (renderMarkdown (c :: cached) true)) st)
  | _ =>
      if decide (id ∈ generatingArticles st) then (false, st)
      else (true, set_generatingArticles ({[ id ]} ∪ generatingArticles st) st)
  end.

(** The body of the [try].  [content] is what [getContent()] resolves to,
    or the message of the error it rejects with. *)
Definition attempt (abstract : Abstract.t) (content : jsstring + string)
    (st : t) : t :=
  let '(configValidation, cfg) :=
    AIConfig.validateConfig (configManager st) in
  let st := set_configManager cfg st in
  if negb (AIConfig.valid configValidation) then
    postMessage
      (BriefError
         (match AIConfig.error configValidation with
          | Some e => if decide (e = "")
                      then "AI brief is not properly configured." else e
          | None => "AI brief is not properly configured."
          end)) st
  else
    let '(apiKey, k) := getApiKey (AIConfig.keys cfg) in
    let cfg := AIConfig.set_keys k cfg in
    let st := set_configManager cfg st in
    let endpoint := AIConfig.getEndpoint cfg in
    let model := AIConfig.getModel cfg in
    if AIConfig.missing apiKey || AIConfig.missing endpoint
       || AIConfig.missing model
    then postMessage (BriefError "AI brief configuration is incomplete.") st
    else
      match content with
      | inr message =>
          postMessage
            (BriefError ("Failed to generate brief: " +:+ message)) st
      | inl content =>
          let cleanContent := AIService.extractTextFromHTML text_of content in
          let truncatedContent :=
            take content_limit
              (AIService.extractTextFromHTML text_of
                 (take content_limit cleanContent)) in
          let r := mkRequest (default [] endpoint) (default [] apiKey)
                     (default [] model) (Abstract.title abstract)
                     truncatedContent in
          let st := request r st in
          let response := respond r in
          let '(accumulatedContent, st) :=
            stream_chunks [] (yielded (default [] endpoint) response) st in
          match failure response with
          | Some f =>
              postMessage
                (BriefError
                   ("Failed to generate brief: " +:+ service_error f)) st
          | None =>
              postMessage
                (BriefComplete (renderMarkdown accumulatedContent true))
                (set_briefCache
                   (<[ Abstract.id abstract := accumulatedContent ]>
                      (briefCache st)) st)
          end
      end.

(** The [finally]. *)
Definition release (id : string) (st : t) : t :=
  set_generatingArticles (generatingArticles st ∖ {[ id ]}) st.

Definition generateBrief (abstract : Abstract.t) (content : jsstring + string)
    (st : t) : t :=
  let '(go, st) := enter (Abstract.id abstract) st in
  if go then release (Abstract.id abstract) (attempt abstract content st)
  else st.

(** Whether the message was handled, and the state after it. *)
Definition handleMessage (type : option string) (abstract : Abstract.t)
    (content : jsstring + string) (st : t) : bool * t :=
  if handles type then (true, generateBrief abstract content st)
  else (false, st).
End Generate.

(** [articleId] is [None] when the argument is left out. *)
Definition clearCache (articleId : option string) (st : t) : t :=
  match articleId with
  | Some id =>
      if decide (id = "") then set_briefCache ∅ st
      else set_briefCache (delete id (briefCache st)) st
  | None => set_briefCache ∅ st
  end.

Definition getCacheSize (st : t) : nat := size (briefCache st).

End AIBriefPanel.

(** ** The accounts of the controller *)

Module Accounts.
Import App.

(** What the three [create...Account] methods do with the id [uuid.v1()]
    gave them. *)
Definition create (uuid : string) (account : AccountCfg) : M unit :=
  modify (λ st,
    set_cfg_accounts (<[ uuid := account ]> (cfg_accounts st)) st) ;;
  call CallCfgUpdateAccounts.

Definition createLocalAccount (uuid name : string) : M unit :=
  create uuid (LocalAccount name).

Definition createTTRSSAccount (uuid name server username password : string)
    : M unit :=
  create uuid (TTRSSAccount name server username password).

Definition createInoreaderAccount (uuid name appid appkey : string)
    : M unit :=
  create uuid (InoreaderAccount name appid appkey).

Definition account_name (a : AccountCfg) : string :=
  match a with
  | LocalAccount name => name
  | TTRSSAccount name _ _ _ => name
  | InoreaderAccount name _ _ => name
  end.

Definition account_type (a : AccountCfg) : string :=
  match a with
  | LocalAccount _ => "local"
  | TTRSSAccount _ _ _ _ => "ttrss"
  | InoreaderAccount _ _ _ => "inoreader"
  end.

(** [account.name = name] *)
Definition set_name (name : string) (a : AccountCfg) : AccountCfg :=
  match a with
  | LocalAccount _ => LocalAccount name
  | TTRSSAccount _ server username password =>
      TTRSSAccount name server username password
  | InoreaderAccount _ appid appkey => InoreaderAccount name appid appkey
  end.

(** An input box that was neither dismissed nor left empty. *)
Definition answered (v : option string) : bool :=
  match v with
  | Some s => negb (bool_decide (s = ""))
  | None => false
  end.

(** [name] is the answer of the input box; renaming an account that is
    not in the setting throws. *)
Definition rss_account_rename (account : string) (name : option string)
    : M unit :=
  if negb (answered name) then ret tt
  else
    let* entry := gets (λ st, cfg_accounts st !! account) in
    match entry with
    | None => throw
    | Some a =>
        modify (λ st,
          set_cfg_accounts
            (<[ account := set_name (default "" name) a ]> (cfg_accounts st))
            st) ;;
        call CallCfgUpdateAccounts
    end.

Section NewAccount.
(** [TTRSSApiURL] comes from the utilities. *)
Context (TTRSSApiURL : string → string).

(** The arguments after [uuid] are the answers of the prompts, in the
    order they are asked; an answer that is not asked for is not
    looked at. *)
Definition rss_new_account (uuid : string)
    (type name url username password custom appid appkey : option string)
    : M unit :=
  match type with
  | None => ret tt
  | Some type =>
      if negb (answered name) then ret tt
      else
        let name := default "" name in
        if decide (type = "local") then createLocalAccount uuid name
        else if decide (type = "ttrss") then
          if negb (answered url) then ret tt
          else if negb (answered username) then ret tt
          else if negb (answered password) then ret tt
          else createTTRSSAccount uuid name (TTRSSApiURL (default "" url))
                 (default "" username) (default "" password)
        else if decide (type = "inoreader") then
          if decide (custom = Some "yes") then
            if negb (answered appid) then ret tt
            else if negb (answered appkey) then ret tt
            else createInoreaderAccount uuid name (default "" appid)
                   (default "" appkey)
          else createInoreaderAccount uuid name "999999367"
                 "GOgPzs1RnPTok6q8kC8HgmUPji3DjspC"
        else ret tt
  end.
End NewAccount.

Section InitAccounts.
(** [Object.keys] and [for ... in] list the keys of an object in some
    order; the order is a parameter.  So is what the constructor of a
    Collection and its [init()] load from the directory of the account:
    the in-memory state, or [None] when [init()] throws. *)
Context (keys_of : ∀ V, gmap string V → list string).
Context (init : string → AccountCfg → Collection.Store
                → option Collection.Mem).

(** The body of the loop over the configured accounts. *)
Definition open_account (key : string) : M unit :=
  let* live := gets (λ st, collections st !! key) in
  match live with
  | Some _ => ret tt
  | None =>
      if inherited key then ret tt
      else
      let* account := gets (λ st, cfg_accounts st !! key) in
      match account with
      | None => throw
      | Some a =>
          let* dir := gets (persisted key) in
          match init key a dir with
          | None => throw
          | Some c =>
              modify (λ st,
                set_collections (<[ key := c ]> (collections st)) st)
          end
      end
  end.

(** The body of the loop over the live collections. *)
Definition close_orphan (key : string) : M unit :=
  let* configured :=
    gets (λ st, bool_decide (is_Some (cfg_accounts st !! key))
                || inherited key) in
  if configured then ret tt
  else modify (λ st, set_collections (delete key (collections st)) st).

Definition initAccounts (uuid : string) : M unit :=
  let* keys := gets (λ st, keys_of _ (cfg_accounts st)) in
  let* keys :=
    match keys with
    | [] =>
        createLocalAccount uuid "Default" ;;
        gets (λ st, keys_of _ (cfg_accounts st))
    | _ => ret keys
    end in
  for_each keys open_account ;;
  (let* live := gets (λ st, keys_of _ (collections st)) in
   for_each live close_orphan) ;;
  let* current := gets current_account in
  let* registered :=
    gets (λ st, match current with
                | Some k => bool_decide (is_Some (collections st !! k))
                            || inherited k
                | None => false
                end) in
  if registered then ret tt
  else
    modify (λ st,
      set_current_account (head (keys_of _ (collections st))) st).
End InitAccounts.

End Accounts.

(** * Specification vocabulary *)

Section RetentionRule.
Import Collection.
Context (now maxAge : Z).

(** An id survives a sweep from [c] to [c'] when its Abstract, the
    persisted copy of it and its content are the same in both, and every
    feed whose catalog listed it still does. *)
Definition kept (c c' : t) (id : string) : Prop :=
  abstracts c' !! id = abstracts c !! id
  ∧ st_abstracts (store c') !! id = st_abstracts (store c) !! id
  ∧ contents c' !! id = contents c !! id
  ∧ ∀ url s, summaries c !! url = Some s → id ∈ Summary.catalog s →
      ∃ s', summaries c' !! url = Some s' ∧ id ∈ Summary.catalog s'.

(** It is dropped when the retention rule allowed it and both the
    Abstract and the content are gone. *)
Definition dropped (c c' : t) (id : string) : Prop :=
  removable_id now maxAge c id = true
  ∧ abstracts c' !! id = None
  ∧ contents c' !! id = None.

Definition sweep (c c' : t) : Prop :=
  ∀ id, kept c c' id ∨ dropped c c' id.
End RetentionRule.

(** The Abstract [a], filed under [id], is listed in [c'] wherever it
    was in [c]: every feed whose catalog had the id still has it and
    still lists the Abstract, and so does the unread feed if the Abstract
    is unread. *)
Definition still_listed (c c' : Collection.t) (id : string)
    (a : Abstract.t) : Prop :=
  ∀ url s, Collection.summaries c !! url = Some s →
    id ∈ Summary.catalog s →
    (∃ s', Collection.summaries c' !! url = Some s'
           ∧ id ∈ Summary.catalog s')
    ∧ (url ≠ "<unread>" → a ∈ Collection.getArticles url c')
    ∧ (Abstract.read a = false → a ∈ Collection.getArticles "<unread>" c').

(** A handler maintains a relation between the state it starts in and the
    state it leaves, whether it returns or throws. *)
Definition maintains {A} (R : relation App.t) (m : App.M A) : Prop :=
  ∀ st, R st (m st).2.

(** Every live Collection is still live and went through a sweep. *)
Definition swept (now maxAge : Z) (st st' : App.t) : Prop :=
  ∀ key c, App.collection key st = Some c →
    ∃ c', App.collection key st' = Some c' ∧ sweep now maxAge c c'.

(** A handler is quiet when it neither starts nor ends a refresh. *)
Definition quiet (st st' : App.t) : Prop :=
  App.inflight st' = App.inflight st ∧ App.updating st' = App.updating st.

(** The refresh guard: at most one refresh is in flight, and while one is,
    [updating] is set. *)
Definition guarded (st : App.t) : Prop :=
  (length (App.inflight st) ≤ 1)%nat
  ∧ (App.inflight st ≠ [] → App.updating st = true).

(** [account ? account.key : this.current_account] *)
Definition account_key (account : option string) (st : App.t) : string :=
  match account with
  | Some k => k
  | None => App.curr_key st
  end.

(** The state a refresh command leaves when it starts a task. *)
Definition started (task : App.Task) (calls : list App.Call) (st : App.t)
    : App.t :=
  App.set_inflight (App.inflight st ++ [task])
    (App.set_log (App.log st ++ App.CallWithProgress :: calls)
       (App.set_updating true st)).

(** The state it leaves when the callback throws before any fetch. *)
Definition stuck (st : App.t) : App.t :=
  App.set_log (App.log st ++ [App.CallWithProgress])
    (App.set_updating true st).

(** The tasks in flight are left alone. *)
Definition keeps_inflight (st st' : App.t) : Prop :=
  App.inflight st' = App.inflight st.

(** The events that start or end a refresh. *)
Definition is_refresh_event (ev : App.Event) : bool :=
  match ev with
  | App.EvRefresh _ | App.EvRefreshAccount _ | App.EvRefreshOne _
  | App.EvSettled | App.EvRejected => true
  | _ => false
  end.

(** The calls a handler added to the log. *)
Definition new_calls (st st' : App.t) : list App.Call :=
  drop (length (App.log st)) (App.log st').

(** The reading of account independence under test: in every state the
    controller can reach, a refresh request for a registered account is
    carried out while a refresh of another account is in flight. *)
Definition refreshes_independent : Prop :=
  ∀ fetchAll fetchOne evs collections storage accounts current a b,
    let st := App.run fetchAll fetchOne evs
                (App.initial collections storage accounts current) in
    a ≠ b →
    App.TaskAccount a ∈ App.inflight st →
    is_Some (App.collection b st) →
    App.CallFetchAll b true
    ∈ new_calls st (App.exec (App.rss_refresh_account (Some b)) st).

(** The controller after calls [l] on its collaborators that left the
    Collection under [key] as [c]. *)
Definition after (key : string) (c : Collection.t) (l : list App.Call)
    (st : App.t) : App.t :=
  App.put_collection key c (App.set_log (App.log st ++ l) st).

(** The controller after calls [l] that touched no Collection. *)
Definition logged (l : list App.Call) (st : App.t) : App.t :=
  App.set_log (App.log st ++ l) st.

(** The list refreshes [refreshLists] asks for. *)
Definition refresh_calls (mask : Z) : list App.Call :=
  App.CallListRefresh <$>
    List.filter (λ bit, App.truthy (Z.land mask bit))
      [App.ACCOUNT; App.FEED; App.ARTICLE; App.FAVORITES; App.STATUS_BAR].

(** Marking a list of abstracts read, one [updateAbstract] each. *)
Definition mark_all (l : list Abstract.t) (c : Collection.t) : Collection.t :=
  foldl (λ c a, Collection.updateAbstract (Abstract.id a)
                  (Abstract.set_read true a) c) c l.

(** Every Abstract is filed under its own id. *)
Definition keyed (c : Collection.t) : Prop :=
  map_Forall (λ i a, Abstract.id a = i) (Collection.abstracts c).

(** The favorites invariant of a Collection: an id is in the
    FavoritesList exactly when its Abstract carries the favorite flag. *)
Definition favorites_invariant (c : Collection.t) : Prop :=
  ∀ id, id ∈ Collection.favorites c
        ↔ ∃ a, Collection.abstracts c !! id = Some a
               ∧ Abstract.favorite a = true.

(** The same in a form that can be decided by evaluation. *)
Definition favorites_checked (c : Collection.t) : Prop :=
  Forall (λ id, Abstract.favorite <$> Collection.abstracts c !! id = Some true)
         (Collection.favorites c)
  ∧ map_Forall (λ id a, Abstract.favorite a = true
                        → id ∈ Collection.favorites c)
               (Collection.abstracts c).

(** The invariant in every live Collection of the controller. *)
Definition favorites_kept (st : App.t) : Prop :=
  ∀ key c, App.collection key st = Some c → favorites_invariant c.

(** A handler carries a property of the state over. *)
Definition carries (P : App.t → Prop) (st st' : App.t) : Prop :=
  P st → P st'.

(** ** Sample data *)

Module Sample.

Definition article (id : string) (date : Z) (read favorite : bool)
    : Abstract.t :=
  Abstract.mk id ("Title of " +:+ id) date "https://f.example/feed" None
              read favorite.

Definition A : Abstract.t := article "A" 1000 false false.
Definition B : Abstract.t := article "B" 2000 false false.

Definition F : string := "https://f.example/feed".

Definition summaryF (catalog : list string) : Summary.t :=
  Summary.mk "Feed F" "https://f.example" catalog.

Definition bodies (ids : list string) : gmap string string :=
  list_to_map ((λ id, (id, "<p>" +:+ id +:+ "</p>")) <$> ids).

Definition table (l : list Abstract.t) : gmap string Abstract.t :=
  list_to_map ((λ a, (Abstract.id a, a)) <$> l).

(** A Collection holding the feed [F] with the given articles, all of
    them persisted, and the given favorites. *)
Definition feedF (l : list Abstract.t) (favs : list string) : Collection.t :=
  let ids := Abstract.id <$> l in
  Collection.mk
    (Collection.mkMem {[ F := summaryF ids ]} (table l) favs ∅)
    (Collection.mkStore {[ F := summaryF ids ]} (table l) (bodies ids)).

(** The feed of the scenario: two unread items. *)
Definition twoUnread : Collection.t := feedF [A; B] [].

(** A feed with old articles in every retention state; the clock reads
    [today] and the threshold is [month]. *)
Definition month : Z := 30 * 86400 * 1000.
Definition today : Z := 100 * 86400 * 1000.
Definition archive : Collection.t :=
  feedF [ article "old-unread" 0 false false;
          article "old-starred" 0 true true;
          article "old-read" 0 true false;
          article "new-read" (today - 1000) true false ]
        ["old-starred"].

(** A controller with one local account holding [c], selected. *)
Definition app (c : Collection.t) : App.t :=
  App.initial {[ "acc-1" := Collection.mem c ]}
              {[ "acc-1" := Collection.store c ]}
              {[ "acc-1" := App.LocalAccount "Default" ]}
              (Some "acc-1").

(** The same with a second account. *)
Definition app2 (c1 c2 : Collection.t) : App.t :=
  App.initial {[ "acc-1" := Collection.mem c1; "acc-2" := Collection.mem c2 ]}
              {[ "acc-1" := Collection.store c1;
                 "acc-2" := Collection.store c2 ]}
              {[ "acc-1" := App.LocalAccount "Default";
                 "acc-2" := App.LocalAccount "Second" ]}
              (Some "acc-1").

End Sample.

(** ** Vocabulary for the further properties *)

(** The chunk messages of a generation: after each yielded text, all the
    text so far, rendered as unfinished markdown. *)
Fixpoint chunk_posts (renderMarkdown : AIConfigManager.jsstring → bool
                                       → AIConfigManager.jsstring)
    (acc : AIConfigManager.jsstring) (texts : list AIConfigManager.jsstring)
    : list AIBriefPanel.Post :=
  match texts with
  | [] => []
  | chunk :: texts' =>
      AIBriefPanel.BriefChunk (renderMarkdown (acc ++ chunk) false)
      :: chunk_posts renderMarkdown (acc ++ chunk) texts'
  end.

Definition is_chunk (m : AIBriefPanel.Post) : Prop :=
  match m with
  | AIBriefPanel.BriefChunk _ => True
  | _ => False
  end.

(** The panel with more messages posted. *)
Definition posting (l : list AIBriefPanel.Post) (st : AIBriefPanel.t)
    : AIBriefPanel.t :=
  AIBriefPanel.mk (AIBriefPanel.briefCache st)
    (AIBriefPanel.generatingArticles st) (AIBriefPanel.configManager st)
    (AIBriefPanel.requests st) (AIBriefPanel.posts st ++ l).

(** A generation can start: nothing (or only an empty brief) is cached
    for the article and none is running. *)
Definition admissible (id : string) (st : AIBriefPanel.t) : Prop :=
  (AIBriefPanel.briefCache st !! id = None
   ∨ AIBriefPanel.briefCache st !! id = Some [])
  ∧ id ∉ AIBriefPanel.generatingArticles st.

(** The calls that fetch. *)
Definition is_fetch (c : App.Call) : bool :=
  match c with
  | App.CallFetchAll _ _ | App.CallFetchOne _ _ _ => true
  | _ => false
  end.

(** A handler that leaves the refresh bookkeeping alone and calls no
    fetch. *)
Definition fetchless (st st' : App.t) : Prop :=
  App.inflight st' = App.inflight st
  ∧ App.updating st' = App.updating st
  ∧ ∃ l, App.log st' = App.log st ++ l ∧ Forall (λ c, is_fetch c = false) l.

(** The state the guard is wedged in: set, with nothing in flight that
    could reset it. *)
Definition wedged (st : App.t) : Prop :=
  App.updating st = true ∧ App.inflight st = [].

(** What the merges of a settled task leave. *)
Definition merge_state (key : string) (f : Collection.t → Collection.t)
    (st : App.t) : App.t :=
  match App.collection key st with
  | Some c => App.put_collection key (f c) st
  | None => st
  end.

Definition merged (fetchAll : string → bool → Collection.t → Collection.t)
    (fetchOne : string → string → bool → Collection.t → Collection.t)
    (task : App.Task) (st : App.t) : App.t :=
  match task with
  | App.TaskAll keys =>
      foldl (λ s k, merge_state k (fetchAll k true) s) st keys
  | App.TaskAccount key => merge_state key (fetchAll key true) st
  | App.TaskOne key url => merge_state key (fetchOne key url true) st
  end.

(** The keys a task fetches for. *)
Definition task_keys (task : App.Task) : list string :=
  match task with
  | App.TaskAll keys => keys
  | App.TaskAccount key => [key]
  | App.TaskOne key _ => [key]
  end.

(** The four periods the retention prompt offers, in milliseconds. *)
Definition expire_values : list Z :=
  [2592000000; 5184000000; 7776000000; 15552000000].

(** A Collection after every unread article was marked read and the
    marks were committed. *)
Definition marked_read (c : Collection.t) : Collection.t :=
  Collection.commit (mark_all (Collection.getArticles "<unread>" c) c).

(** The title the article view gets for a feed. *)
Definition view_title (feed : string) (c : Collection.t) : string :=
  if decide (feed = "<unread>") then "Articles (Unread)"
  else match Collection.getSummary feed c with
       | Some s => "Articles (" +:+ Summary.title s +:+ ")"
       | None => "Articles"
       end.

(** The live collections are exactly the configured accounts, and the
    current account is one of them. *)
Definition in_sync (st : App.t) : Prop :=
  dom (App.collections st) = dom (App.cfg_accounts st)
  ∧ ∃ k, App.current_account st = Some k
         ∧ is_Some (App.collections st !! k).

(** No account id in use names a member inherited from
    [Object.prototype]: not a configured one, not a live one, not the
    current one.  The ids [uuid.v1()] makes are of this kind. *)
Definition ordinary (st : App.t) : Prop :=
  (∀ k, is_Some (App.cfg_accounts st !! k) → App.inherited k = false)
  ∧ (∀ k, is_Some (App.collections st !! k) → App.inherited k = false)
  ∧ (∀ k, App.current_account st = Some k → App.inherited k = false).

(** The live collections after the account [key] was looked at by the
    first loop of [initAccounts]. *)
Definition opened
    (init : string → App.AccountCfg → Collection.Store
            → option Collection.Mem)
    (st : App.t) (m : gmap string Collection.Mem) (key : string)
    : gmap string Collection.Mem :=
  match m !! key with
  | Some _ => m
  | None =>
      match a ← App.cfg_accounts st !! key; init key a (App.persisted key st)
      with
      | Some c => <[ key := c ]> m
      | None => m
      end
  end.

(** The live collections after [key] was looked at by the second
    loop. *)
Definition pruned (cfg : gmap string App.AccountCfg)
    (m : gmap string Collection.Mem) (key : string)
    : gmap string Collection.Mem :=
  if bool_decide (is_Some (cfg !! key)) then m else delete key m.

(** [keys_of] lists the keys of a map, each once or more, in any
    order. *)
Definition lists_keys (keys_of : ∀ V, gmap string V → list string) : Prop :=
  ∀ V (m : gmap string V) k, k ∈ keys_of V m ↔ is_Some (m !! k).

(** The controller after the two loops and the choice of the current
    account of [initAccounts], from the state [st] in which the setting
    has its accounts. *)
Definition synced (keys_of : ∀ V, gmap string V → list string)
    (init : string → App.AccountCfg → Collection.Store
            → option Collection.Mem)
    (st : App.t) : App.t :=
  let m1 := foldl (opened init st) (App.collections st)
              (keys_of _ (App.cfg_accounts st)) in
  let m2 := foldl (pruned (App.cfg_accounts st)) m1 (keys_of _ m1) in
  let st2 := App.set_collections m2 st in
  if match App.current_account st with
     | Some k => bool_decide (is_Some (m2 !! k))
     | None => false
     end
  then st2
  else App.set_current_account (head (keys_of _ m2)) st2.

(** Every white-space code unit is a single space between two others,
    and none is at the start. *)
Fixpoint single_spaced (s : AIConfigManager.jsstring) : bool :=
  match s with
  | [] => true
  | c :: s' =>
      (negb (AIConfigManager.is_white_space c)
       || ((c =? 32)%N
           && match s' with
              | d :: _ => negb (AIConfigManager.is_white_space d)
              | [] => false
              end))
      && single_spaced s'
  end.

Definition normalized (s : AIConfigManager.jsstring) : bool :=
  match s with
  | c :: _ => negb (AIConfigManager.is_white_space c)
  | [] => true
  end && single_spaced s.

(** ** More sample data *)

Module Sample2.

(** "https://api.example/v1" *)
Definition endpoint : AIConfigManager.jsstring :=
  [104; 116; 116; 112; 115; 58; 47; 47; 97; 112; 105; 46; 101; 120; 97; 109;
   112; 108; 101; 47; 118; 49]%N.

(** A configuration that is complete: enabled, with the key "sk-1" in the
    secret store and the model "m". *)
Definition config : AIConfig.t :=
  AIConfig.mk (AIConfigManager.mk (Some [115; 107; 45; 49]%N) None) true
              (Some endpoint) (Some [109]%N).

(** A panel with nothing cached and nothing running. *)
Definition panel : AIBriefPanel.t := AIBriefPanel.mk ∅ ∅ config [] [].

(** The response "data: Hi" with its line feed, in one chunk. *)
Definition hi : AIBriefPanel.Response :=
  AIBriefPanel.mkResponse [[100; 97; 116; 97; 58; 32; 72; 105; 10]%N] None.

(** Stand-ins for the renderer, the text of a document and the JSON
    reader: each hands on what it is given. *)
Definition plain (s : AIConfigManager.jsstring) (final : bool)
    : AIConfigManager.jsstring := s.
Definition as_is (s : AIConfigManager.jsstring) : AIConfigManager.jsstring :=
  s.
Definition payload (s : AIConfigManager.jsstring)
    : list AIConfigManager.jsstring := [s].

Definition generate (r : AIBriefPanel.Response) :=
  AIBriefPanel.generateBrief plain as_is payload payload (λ _, r).

(** The keys of a map in the order of its list of entries. *)
Definition keys_of (V : Type) (m : gmap string V) : list string :=
  (map_to_list m).*1.

(** A Collection that starts empty, whatever the account. *)
Definition init (key : string) (a : App.AccountCfg) (dir : Collection.Store)
    : option Collection.Mem :=
  Some Collection.empty_mem.

End Sample2.

(** * Properties *)

(** ** Finite-map and list helpers *)

Section DeleteAll.
Context {V : Type}.
Implicit Types (m : gmap string V) (ids : list string).

Lemma lookup_delete_all_notin ids m i :
  i ∉ ids → Collection.delete_all ids m !! i = m !! i.
Proof.
  induction ids as [|j ids IH]; simpl; intros Hi; [done|].
  apply not_elem_of_cons in Hi as [Hne Hi].
  rewrite lookup_delete_ne by done. auto.
Qed.

Lemma lookup_delete_all_in ids m i :
  i ∈ ids → Collection.delete_all ids m !! i = None.
Proof.
  induction ids as [|j ids IH]; simpl; intros Hi; [by apply elem_of_nil in Hi|].
  destruct (decide (j = i)) as [->|Hne]; [apply lookup_delete_eq|].
  rewrite lookup_delete_ne by done.
  apply elem_of_cons in Hi as [->|Hi]; [done|auto].
Qed.

Lemma lookup_delete_all ids m i :
  Collection.delete_all ids m !! i = if decide (i ∈ ids) then None else m !! i.
Proof.
  case_decide; [by apply lookup_delete_all_in|by apply lookup_delete_all_notin].
Qed.
End DeleteAll.

Lemma elem_of_List_filter {A} (f : A → bool) (l : list A) (x : A) :
  x ∈ List.filter f l ↔ x ∈ l ∧ f x = true.
Proof. rewrite !list_elem_of_In. apply filter_In. Qed.

(** ** Retention *)

Section Retention.
Import Collection.
Context (now maxAge : Z).
Local Abbreviation sweep := (sweep now maxAge).
Local Abbreviation dropped := (dropped now maxAge).

Lemma sweep_refl c : sweep c c.
Proof.
  intros id. left. split; [done|]. split; [done|]. split; [done|]. eauto.
Qed.

Lemma sweep_trans c1 c2 c3 : sweep c1 c2 → sweep c2 c3 → sweep c1 c3.
Proof.
  intros H12 H23 id.
  destruct (H12 id) as [(Ha & Hs & Hc & Hl)|(Hr & Ha & Hc)].
  - destruct (H23 id) as [(Ha' & Hs' & Hc' & Hl')|(Hr' & Ha' & Hc')].
    + left. split; [congruence|]. split; [congruence|]. split; [congruence|].
      intros url s Hurl Hin.
      destruct (Hl url s Hurl Hin) as (s2 & Hurl2 & Hin2). eauto.
    + right. repeat split; try done.
      unfold removable_id in *. by rewrite <- Ha.
  - right. destruct (H23 id) as [(Ha' & Hs' & Hc' & _)|(Hr' & Ha' & Hc')].
    + repeat split; congruence.
    + unfold removable_id in Hr'. by rewrite Ha in Hr'.
Qed.

Lemma cleanOldArticles_sweep url c :
  sweep c (cleanOldArticles now url maxAge c).
Proof.
  unfold cleanOldArticles.
  destruct (summaries c !! url) as [s|] eqn:Hs; [|apply sweep_refl].
  intros id. unfold kept, dropped, abstracts, contents. simpl.
  rewrite !lookup_delete_all.
  case_decide as Hin.
  - right. apply elem_of_List_filter in Hin as [_ Hin]. by repeat split.
  - left. split; [done|]. split; [done|]. split; [done|].
    intros url' s' Hurl' Hid. unfold summaries. simpl.
    destruct (decide (url = url')) as [<-|Hne].
    + rewrite lookup_insert_eq. eexists. split; [done|]. simpl.
      assert (s' = s) as -> by (unfold summaries in *; congruence).
      apply elem_of_List_filter. split; [done|].
      unfold not_in. by apply bool_decide_eq_true.
    + rewrite lookup_insert_ne by done. eauto.
Qed.

(** A sweep leaves the persisted summaries in step with the ones in
    memory. *)
Lemma cleanOldArticles_synced url c :
  st_summaries (store c) = summaries c →
  st_summaries (store (cleanOldArticles now url maxAge c))
  = summaries (cleanOldArticles now url maxAge c).
Proof.
  intros Hsync. unfold cleanOldArticles.
  destruct (summaries c !! url) as [s|]; [|done].
  unfold summaries. simpl. by rewrite Hsync.
Qed.

Lemma cleanAllOldArticles_synced c :
  st_summaries (store c) = summaries c →
  st_summaries (store (cleanAllOldArticles now maxAge c))
  = summaries (cleanAllOldArticles now maxAge c).
Proof.
  intros Hsync. unfold cleanAllOldArticles.
  induction ((map_to_list (summaries c)).*1) as [|url urls IH]; simpl.
  - done.
  - by apply cleanOldArticles_synced.
Qed.

Lemma cleanAllOldArticles_sweep c :
  sweep c (cleanAllOldArticles now maxAge c).
Proof.
  unfold cleanAllOldArticles.
  induction ((map_to_list (summaries c)).*1) as [|url urls IH]; simpl.
  - apply sweep_refl.
  - eapply sweep_trans; [exact IH|apply cleanOldArticles_sweep].
Qed.

(** An unread or favorited Abstract is never dropped. *)
Lemma sweep_keeps c c' id a :
  sweep c c' →
  abstracts c !! id = Some a →
  Abstract.read a = false ∨ Abstract.favorite a = true →
  abstracts c' !! id = Some a ∧ contents c' !! id = contents c !! id.
Proof.
  intros Hsw Ha Hflag.
  destruct (Hsw id) as [(Ha' & _ & Hc' & _)|(Hr & _)].
  - split; congruence.
  - unfold removable_id, removable in Hr. rewrite Ha in Hr.
    apply andb_true_iff in Hr as [Hr Hfav].
    apply andb_true_iff in Hr as [_ Hread].
    apply negb_true_iff in Hfav.
    destruct Hflag; congruence.
Qed.

(** What a sweep deletes was read, not a favorite, and older than the
    threshold. *)
Lemma sweep_only c c' id a :
  sweep c c' →
  abstracts c !! id = Some a →
  abstracts c' !! id = None →
  Abstract.read a = true ∧ Abstract.favorite a = false
  ∧ maxAge < now - Abstract.date a.
Proof.
  intros Hsw Ha Hgone.
  destruct (Hsw id) as [(Ha' & _)|(Hr & _)]; [congruence|].
  unfold removable_id, removable, expired in Hr. rewrite Ha in Hr.
  apply andb_true_iff in Hr as [Hr Hfav].
  apply andb_true_iff in Hr as [Hexp Hread].
  apply negb_true_iff in Hfav. apply bool_decide_eq_true in Hexp.
  done.
Qed.
End Retention.

(** ** The controller's bookkeeping *)

Section AppBasics.
Import App.

Lemma collection_put key c st :
  collection key (put_collection key c st) = Some c.
Proof.
  unfold collection, put_collection, persisted. simpl.
  rewrite !lookup_insert_eq. simpl. by destruct c.
Qed.

Lemma collection_put_ne key key' c st :
  key ≠ key' →
  collection key' (put_collection key c st) = collection key' st.
Proof.
  intros Hne. unfold collection, put_collection, persisted. simpl.
  by rewrite !lookup_insert_ne.
Qed.

Lemma collection_set_log key l st :
  collection key (set_log l st) = collection key st.
Proof. done. Qed.

End AppBasics.

(** ** Composing what handlers maintain *)

Section Maintains.
Import App.
Context (R : relation App.t) `{!PreOrder R}.

Lemma maintains_ret {A} (a : A) : maintains R (ret a).
Proof. intros st. simpl. reflexivity. Qed.

Lemma maintains_throw {A} : maintains R (@throw A).
Proof. intros st. simpl. reflexivity. Qed.

Lemma maintains_gets {A} (f : t → A) : maintains R (gets f).
Proof. intros st. simpl. reflexivity. Qed.

Lemma maintains_bind {A B} (m : M A) (k : A → M B) :
  maintains R m → (∀ a, maintains R (k a)) → maintains R (bind m k).
Proof.
  intros Hm Hk st. unfold bind. specialize (Hm st).
  destruct (m st) as [[a|] st1]; simpl in *; [|done].
  etrans; [exact Hm|apply Hk].
Qed.

Lemma maintains_modify (f : t → t) :
  (∀ st, R st (f st)) → maintains R (modify f).
Proof. intros Hf st. apply Hf. Qed.

Lemma maintains_call c :
  (∀ l st, R st (set_log l st)) → maintains R (call c).
Proof. intros Hl. apply maintains_modify. intros st. apply Hl. Qed.

Lemma maintains_when b m : maintains R m → maintains R (when b m).
Proof. destruct b; [done|intros _; apply maintains_ret]. Qed.

Lemma maintains_for_each {A} (l : list A) body :
  (∀ x, maintains R (body x)) → maintains R (for_each l body).
Proof.
  intros Hb. induction l as [|x l IH]; simpl.
  - apply maintains_ret.
  - apply maintains_bind; auto.
Qed.

Lemma maintains_refreshLists list :
  (∀ l st, R st (set_log l st)) → maintains R (refreshLists list).
Proof.
  intros Hl. unfold refreshLists.
  repeat (apply maintains_bind; [|intros _]);
    apply maintains_when, maintains_call, Hl.
Qed.

Lemma maintains_method {A} key c (f : Collection.t → A * Collection.t) :
  (∀ st col, collection key st = Some col →
     R st (put_collection key (f col).2 (set_log (log st ++ [c]) st))) →
  maintains R (method key c f).
Proof.
  intros Hf st. unfold method.
  destruct (collection key st) as [col|] eqn:Hcol; simpl; [|reflexivity].
  specialize (Hf st col Hcol). by destruct (f col).
Qed.
End Maintains.

(** Splits a handler into its primitive steps. *)
Ltac maintains_steps :=
  repeat first
    [ match goal with |- PreOrder _ => tc_solve end
    | match goal with |- ∀ _, _ => intros ? end
    | apply maintains_ret
    | apply maintains_throw
    | apply maintains_gets
    | apply maintains_bind
    | apply maintains_when
    | apply maintains_for_each
    | match goal with
      | |- maintains _ (match ?x with _ => _ end) => destruct x
      end ].

(** ** Retention at the controller *)

Section AppRetention.
Import App.
Context (now maxAge : Z).

Global Instance swept_preorder : PreOrder (swept now maxAge).
Proof.
  split.
  - intros st key c Hc. exists c. split; [done|apply sweep_refl].
  - intros st1 st2 st3 H12 H23 key c Hc.
    destruct (H12 key c Hc) as (c2 & Hc2 & Hs12).
    destruct (H23 key c2 Hc2) as (c3 & Hc3 & Hs23).
    exists c3. split; [done|by eapply sweep_trans].
Qed.

Lemma swept_set_log l st : swept now maxAge st (set_log l st).
Proof. intros key c Hc. exists c. split; [done|apply sweep_refl]. Qed.

Lemma swept_put key0 c' l st col :
  collection key0 st = Some col →
  sweep now maxAge col c' →
  swept now maxAge st (put_collection key0 c' (set_log l st)).
Proof.
  intros Hcol Hsw key c Hc.
  destruct (decide (key0 = key)) as [->|Hne].
  - rewrite collection_put. exists c'. split; [done|].
    rewrite Hcol in Hc. by injection Hc as <-.
  - rewrite collection_put_ne by done. exists c. split; [done|apply sweep_refl].
Qed.
End AppRetention.

Lemma rss_clean_old_articles_swept now feed time :
  maintains (swept now (default 0 (App.selectExpire time)))
            (App.rss_clean_old_articles now feed time).
Proof.
  unfold App.rss_clean_old_articles. maintains_steps.
  all: try apply maintains_call, swept_set_log.
  apply maintains_method; [tc_solve|]. intros st col Hcol.
  eapply swept_put; [done|apply cleanOldArticles_sweep].
Qed.

Lemma rss_clean_all_old_articles_swept now account time :
  maintains (swept now (default 0 (App.selectExpire time)))
            (App.rss_clean_all_old_articles now account time).
Proof.
  unfold App.rss_clean_all_old_articles. maintains_steps.
  all: try apply maintains_call, swept_set_log.
  apply maintains_method; [tc_solve|]. intros st col Hcol.
  eapply swept_put; [done|apply cleanAllOldArticles_sweep].
Qed.

(** What the retention sweep does to the sample archive: only the old,
    read, unstarred article goes. *)
Example archive_swept :
  dom (Collection.abstracts
         (Collection.cleanAllOldArticles Sample.today Sample.month
            Sample.archive))
  = {[ "old-unread"; "old-starred"; "new-read" ]}
  ∧ dom (Collection.contents
           (Collection.cleanAllOldArticles Sample.today Sample.month
              Sample.archive))
    = {[ "old-unread"; "old-starred"; "new-read" ]}.
Proof. split; by vm_compute. Qed.


(** ** The refresh guard *)

Section RefreshGuard.
Import App.

Lemma for_each_call {A} (f : A → Call) (l : list A) st :
  for_each l (λ x, call (f x)) st
  = (Returned tt, set_log (log st ++ (f <$> l)) st).
Proof.
  revert st. induction l as [|x l IH]; intros st; simpl.
  - destruct st; simpl. by rewrite app_nil_r.
  - unfold bind, call, modify at 1. simpl. rewrite IH. simpl.
    by rewrite <- app_assoc.
Qed.

(** With the guard set, each refresh command returns at once and leaves
    the controller as it was. *)
Lemma rss_refresh_busy auto st :
  updating st = true → rss_refresh auto st = (Returned tt, st).
Proof. intros H. unfold rss_refresh, bind, gets. by rewrite H. Qed.

Lemma rss_refresh_account_busy account st :
  updating st = true → rss_refresh_account account st = (Returned tt, st).
Proof. intros H. unfold rss_refresh_account, bind, gets. by rewrite H. Qed.

Lemma rss_refresh_one_busy feed st :
  updating st = true → rss_refresh_one feed st = (Returned tt, st).
Proof. intros H. unfold rss_refresh_one, bind, gets. by rewrite H. Qed.

(** With the guard clear, each of them sets it and calls its fetch. *)
Lemma rss_refresh_idle auto st :
  updating st = false →
  let keys := (map_to_list (collections st)).*1 in
  rss_refresh auto st
  = (Returned tt,
     started (TaskAll keys) ((λ k, CallFetchAll k true) <$> keys) st).
Proof.
  intros H. unfold rss_refresh, bind at 1, gets at 1. rewrite H.
  unfold bind, modify, call, gets. simpl.
  rewrite (for_each_call (λ k, CallFetchAll k true)). simpl. unfold started.
  by rewrite <- app_assoc.
Qed.

Lemma rss_refresh_account_idle account st :
  updating st = false →
  let key := account_key account st in
  rss_refresh_account account st
  = match collection key st with
    | Some _ =>
        (Returned tt, started (TaskAccount key) [CallFetchAll key true] st)
    | None => (Thrown, stuck st)
    end.
Proof.
  intros H. unfold rss_refresh_account, bind at 1, gets at 1. rewrite H.
  unfold bind, modify, call, gets. simpl.
  destruct account as [k|]; simpl;
    unfold ret, bind, gets, collection, persisted, curr_key; simpl;
    match goal with |- context [collections st !! ?k] =>
      destruct (collections st !! k) end; simpl;
    unfold started, stuck; by rewrite <- ?app_assoc.
Qed.

Lemma rss_refresh_one_idle feed st :
  updating st = false →
  rss_refresh_one feed st
  = match (match feed with Some f => Some f | None => current_feed st end) with
    | None => (Returned tt, st)
    | Some url =>
        let key := curr_key st in
        match collection key st with
        | Some _ =>
            (Returned tt,
             started (TaskOne key url) [CallFetchOne key url true] st)
        | None => (Thrown, stuck st)
        end
    end.
Proof.
  intros H. unfold rss_refresh_one, bind at 1, gets at 1. rewrite H.
  destruct feed as [f|]; simpl.
  - unfold ret, bind, modify, call, gets, collection, persisted, curr_key.
    simpl. destruct (collections st !! _); simpl;
      unfold started, stuck; by rewrite <- ?app_assoc.
  - unfold bind at 1, gets at 1. destruct (current_feed st) as [url|]; [|done].
    unfold ret, bind, modify, call, gets, collection, persisted, curr_key.
    simpl. destruct (collections st !! _); simpl;
      unfold started, stuck; by rewrite <- ?app_assoc.
Qed.
End RefreshGuard.

(** ** Runs keep the guard *)

Global Instance quiet_preorder : PreOrder quiet.
Proof.
  split; [by split|].
  intros st1 st2 st3 [H1 H2] [H3 H4]. split; congruence.
Qed.

Global Instance keeps_inflight_preorder : PreOrder keeps_inflight.
Proof. split; [done|]. unfold keeps_inflight. intros ???; congruence. Qed.

(** Closes the primitive steps that do not touch the fields a relation
    speaks about. *)
Ltac maintains_leaves :=
  try (apply maintains_call; intros; by repeat split);
  try (apply maintains_modify; intros; by repeat split);
  try (apply maintains_method; [tc_solve|]; intros; by repeat split).

Section Runs.
Import App.
Context (fetchAll : string → bool → Collection.t → Collection.t).
Context (fetchOne : string → string → bool → Collection.t → Collection.t).

Lemma handler_quiet ev :
  is_refresh_event ev = false →
  maintains quiet (handler fetchAll fetchOne ev).
Proof.
  destruct ev; try discriminate; intros _; simpl.
  - unfold rss_select. maintains_steps; maintains_leaves.
  - unfold rss_articles. maintains_steps; maintains_leaves.
  - unfold rss_read, update_and_commit. maintains_steps; maintains_leaves.
  - unfold panel_message, rss_read, update_and_commit.
    maintains_steps; maintains_leaves.
  - unfold rss_mark_read, update_and_commit. maintains_steps; maintains_leaves.
  - unfold rss_mark_unread, update_and_commit.
    maintains_steps; maintains_leaves.
  - unfold rss_mark_all_read, mark_each, currArticles.
    maintains_steps; maintains_leaves.
  - unfold rss_mark_account_read, mark_each. maintains_steps; maintains_leaves.
  - unfold rss_remove_feed. maintains_steps; maintains_leaves.
  - unfold rss_add_to_favorites. maintains_steps; maintains_leaves.
  - unfold rss_remove_from_favorites. maintains_steps; maintains_leaves.
  - unfold rss_del_account, removeAccount. maintains_steps; maintains_leaves.
  - unfold rss_clean_old_articles. maintains_steps; maintains_leaves.
  - unfold rss_clean_all_old_articles. maintains_steps; maintains_leaves.
Qed.

Lemma merge_keeps_inflight key f : maintains keeps_inflight (merge key f).
Proof.
  apply maintains_modify. intros st.
  by destruct (collection key st).
Qed.

Lemma settled_inflight st :
  inflight (exec (settled fetchAll fetchOne) st) = tail (inflight st).
Proof.
  unfold settled, exec at 1, bind at 1, gets at 1.
  destruct (inflight st) as [|task rest] eqn:Hin; simpl; [by rewrite Hin|].
  match goal with |- inflight ((bind _ ?k) st).2 = _ =>
    change (inflight ((k tt) (set_inflight rest st)).2
            = inflight (set_inflight rest st));
    assert (maintains keeps_inflight (k tt)) as Hm end.
  { maintains_steps; maintains_leaves;
      try apply merge_keeps_inflight.
    all: apply maintains_for_each; [tc_solve|].
    all: intros; apply merge_keeps_inflight. }
  apply Hm.
Qed.

Lemma rejected_inflight st :
  inflight (exec rejected st) = tail (inflight st).
Proof.
  unfold rejected, exec, bind, gets.
  destruct (inflight st) as [|task rest] eqn:Hin; simpl; [by rewrite Hin|done].
Qed.

Lemma guarded_step st ev :
  guarded st → guarded (step fetchAll fetchOne st ev).
Proof.
  intros [Hlen Hupd]. unfold step.
  destruct (is_refresh_event ev) eqn:Hev.
  - assert (updating st = false → inflight st = []) as Hidle.
    { intros Hf. destruct (inflight st); [done|].
      rewrite Hupd in Hf; [done|done]. }
    assert (∀ st', inflight st' = tail (inflight st) → guarded st') as Htail.
    { intros st' Hst'. unfold guarded. rewrite Hst'.
      destruct (inflight st) as [|? [|]]; simpl in *; [| |lia];
        (split; [lia|by intros []]). }
    destruct ev; try discriminate; simpl; unfold exec.
    + destruct (updating st) eqn:Hu.
      * rewrite rss_refresh_busy by done. by split.
      * rewrite rss_refresh_idle by done. simpl.
        unfold guarded. simpl. rewrite Hidle by done. simpl. split; [lia|done].
    + destruct (updating st) eqn:Hu.
      * rewrite rss_refresh_account_busy by done. by split.
      * rewrite rss_refresh_account_idle by done.
        destruct (collection _ st); unfold guarded; simpl;
          rewrite Hidle by done; simpl; (split; [lia|done]).
    + destruct (updating st) eqn:Hu.
      * rewrite rss_refresh_one_busy by done. by split.
      * rewrite rss_refresh_one_idle by done.
        destruct (match feed with Some f => Some f | None => current_feed st end);
          [|unfold guarded; simpl; rewrite Hidle by done; simpl;
            split; [lia|done]].
        simpl. destruct (collection _ st); unfold guarded; simpl;
          rewrite Hidle by done; simpl; (split; [lia|done]).
    + apply Htail, settled_inflight.
    + apply Htail, rejected_inflight.
  - destruct (handler_quiet ev Hev st) as [Hi Hu].
    fold (exec (handler fetchAll fetchOne ev) st) in *.
    unfold guarded. by rewrite Hi, Hu.
Qed.

Lemma guarded_run evs st :
  guarded st → guarded (run fetchAll fetchOne evs st).
Proof.
  revert st. induction evs as [|ev evs IH]; intros st Hst; simpl; [done|].
  apply IH, guarded_step, Hst.
Qed.
End Runs.

(** C2. While a refresh is in progress ([updating] set) every new refresh
    request -- [rss_refresh], [rss_refresh_account], [rss_refresh_one] --
    returns at once and leaves the controller exactly as it was: no
    [fetchAll] or [fetchOne] is called and nothing is queued.  Hence along
    every run at most one refresh is in flight, and [updating] is set while
    it is. *)
Theorem refresh_guard :
  (∀ st, App.updating st = true →
     (∀ auto, App.rss_refresh auto st = (App.Returned tt, st))
     ∧ (∀ account,
          App.rss_refresh_account account st = (App.Returned tt, st))
     ∧ (∀ feed, App.rss_refresh_one feed st = (App.Returned tt, st)))
  ∧ (∀ fetchAll fetchOne evs collections storage accounts current,
       guarded (App.run fetchAll fetchOne evs
                  (App.initial collections storage accounts current))).
Proof.
  split.
  - intros st Hbusy. repeat split; intros.
    + by apply rss_refresh_busy.
    + by apply rss_refresh_account_busy.
    + by apply rss_refresh_one_busy.
  - intros. apply guarded_run. split; simpl; [lia|done].
Qed.

Lemma refresh_guard_witness :
  let st := App.exec (App.rss_refresh_account (Some "acc-1"))
              (Sample.app Sample.twoUnread) in
  App.updating st = true
  ∧ App.rss_refresh true st = (App.Returned tt, st).
Proof.
  split; [reflexivity|].
  apply (proj1 refresh_guard). reflexivity.
Defined.

(** C3 as stated fails: with two accounts, a refresh of the first one in
    flight makes the controller drop the request for the second one. *)
Lemma refreshes_not_independent : ¬ refreshes_independent.
Proof.
  intros H.
  specialize (H (λ _ _ c, c) (λ _ _ _ c, c)
                [App.EvRefreshAccount (Some "acc-1")]
                {[ "acc-1" := Collection.mem Sample.twoUnread;
                   "acc-2" := Collection.mem Sample.archive ]}
                {[ "acc-1" := Collection.store Sample.twoUnread;
                   "acc-2" := Collection.store Sample.archive ]}
                {[ "acc-1" := App.LocalAccount "Default";
                   "acc-2" := App.LocalAccount "Second" ]}
                (Some "acc-1") "acc-1" "acc-2").
  simpl in H.
  assert (App.CallFetchAll "acc-2" true ∈ @nil App.Call) as Hin.
  { apply H; [done| |].
    - vm_compute. apply list_elem_of_here.
    - vm_compute. eauto. }
  by apply elem_of_nil in Hin.
Qed.

(** C3, amended.  The guard is one flag of the whole controller.  A
    refresh request for an account whose Collection is registered is
    carried out -- [fetchAll] is called on it and the task is in flight --
    when no refresh is in progress; while a refresh is in flight, of the
    same or of any other account, the request is dropped.  The Collections
    of distinct accounts are fetched together only within one whole-app
    refresh, which calls [fetchAll] on every registered Collection. *)
Theorem refresh_account_one_guard (st : App.t) (account : option string) :
  guarded st →
  is_Some (App.collection (account_key account st) st) →
  (App.updating st = false →
   App.rss_refresh_account account st
   = (App.Returned tt,
      started (App.TaskAccount (account_key account st))
              [App.CallFetchAll (account_key account st) true] st))
  ∧ (App.inflight st ≠ [] →
     App.rss_refresh_account account st = (App.Returned tt, st))
  ∧ (App.updating st = false →
     ∀ auto other, is_Some (App.collection other st) →
       App.CallFetchAll other true
       ∈ new_calls st (App.exec (App.rss_refresh auto) st)).
Proof.
  intros [_ Hupd] [c Hc]. split; [|split].
  - intros Hidle. rewrite rss_refresh_account_idle by done. simpl.
    by rewrite Hc.
  - intros Hin. apply rss_refresh_account_busy. auto.
  - intros Hidle auto other [c' Hc']. unfold App.exec.
    rewrite rss_refresh_idle by done. unfold new_calls, started. simpl.
    rewrite drop_app_length. apply list_elem_of_further.
    apply list_elem_of_fmap. exists other. split; [done|].
    unfold App.collection in Hc'.
    destruct (App.collections st !! other) as [m|] eqn:Hm; [|done].
    apply list_elem_of_fmap. exists (other, m). split; [done|].
    by apply elem_of_map_to_list.
Qed.

Lemma refresh_account_one_guard_witness :
  let st := Sample.app2 Sample.twoUnread Sample.archive in
  App.rss_refresh_account (Some "acc-2") st
  = (App.Returned tt,
     started (App.TaskAccount "acc-2") [App.CallFetchAll "acc-2" true] st).
Proof.
  refine (proj1 (refresh_account_one_guard
                   (Sample.app2 Sample.twoUnread Sample.archive)
                   (Some "acc-2") _ _) _).
  - split; simpl; [lia|done].
  - vm_compute. eauto.
  - reflexivity.
Defined.

(** ** Computing handlers on a live Collection *)

Section After.
Import App.

Lemma logged_logged l l' st : logged l' (logged l st) = logged (l ++ l') st.
Proof. unfold logged. simpl. by rewrite app_assoc. Qed.

Lemma logged_after key c l l' st :
  logged l' (after key c l st) = after key c (l ++ l') st.
Proof. unfold logged, after, put_collection. simpl. by rewrite app_assoc. Qed.

Lemma after_after key c c' l l' st :
  after key c' l' (after key c l st) = after key c' (l ++ l') st.
Proof.
  unfold after, put_collection. simpl.
  by rewrite !insert_insert_eq, app_assoc.
Qed.

Lemma collection_after key c l st : collection key (after key c l st) = Some c.
Proof. apply collection_put. Qed.

Lemma refreshLists_logged mask st :
  refreshLists mask st = (Returned tt, logged (refresh_calls mask) st).
Proof.
  unfold refreshLists, refresh_calls, logged, bind, when, call, modify, ret.
  simpl.
  destruct (truthy (Z.land mask ACCOUNT)), (truthy (Z.land mask FEED)),
    (truthy (Z.land mask ARTICLE)), (truthy (Z.land mask FAVORITES)),
    (truthy (Z.land mask STATUS_BAR)); simpl;
    rewrite <- ?app_assoc; simpl; try done.
  destruct st; simpl. by rewrite app_nil_r.
Qed.

Lemma method_start {A} key c (f : Collection.t → A * Collection.t) st col :
  collection key st = Some col →
  method key c f st = (Returned (f col).1, after key (f col).2 [c] st).
Proof. intros H. unfold method. rewrite H. by destruct (f col). Qed.

Lemma method_logged {A} key c (f : Collection.t → A * Collection.t) l st col :
  collection key st = Some col →
  method key c f (logged l st)
  = (Returned (f col).1, after key (f col).2 (l ++ [c]) st).
Proof.
  intros H. unfold method, logged. rewrite collection_set_log, H.
  destruct (f col). unfold after. simpl. by rewrite <- app_assoc.
Qed.

Lemma method_after {A} key c (f : Collection.t → A * Collection.t) l st col :
  method key c f (after key col l st)
  = (Returned (f col).1, after key (f col).2 (l ++ [c]) st).
Proof.
  unfold method. rewrite collection_after. destruct (f col). simpl.
  unfold after, put_collection. simpl.
  by rewrite !insert_insert_eq, app_assoc.
Qed.

Lemma call_logged c l st : call c (logged l st) = (Returned tt, logged (l ++ [c]) st).
Proof. unfold call, modify, logged. simpl. by rewrite app_assoc. Qed.

Lemma call_after c key col l st :
  call c (after key col l st) = (Returned tt, after key col (l ++ [c]) st).
Proof.
  unfold call, modify. fold (logged [c] (after key col l st)).
  by rewrite logged_after.
Qed.

Lemma refreshLists_after mask key col l st :
  refreshLists mask (after key col l st)
  = (Returned tt, after key col (l ++ refresh_calls mask) st).
Proof. by rewrite refreshLists_logged, logged_after. Qed.

Lemma new_calls_after key c l st : new_calls st (after key c l st) = l.
Proof. unfold new_calls, after. simpl. by rewrite drop_app_length. Qed.

Lemma new_calls_logged l st : new_calls st (logged l st) = l.
Proof. unfold new_calls, logged. simpl. by rewrite drop_app_length. Qed.
End After.

(** ** Marking articles read *)

Section Marking.
Import App.

Lemma update_and_commit_logged a l st c :
  collection (curr_key st) st = Some c →
  update_and_commit a (logged l st)
  = (Returned tt,
     after (curr_key st)
       (Collection.commit (Collection.updateAbstract (Abstract.id a) a c))
       (l ++ [CallUpdateAbstract (curr_key st) (Abstract.id a);
              CallCommit (curr_key st)])
       st).
Proof.
  intros Hc. unfold update_and_commit, bind at 1, gets at 1.
  change (curr_key (logged l st)) with (curr_key st).
  unfold bind. rewrite (method_logged _ _ _ _ _ _ Hc). simpl.
  rewrite method_after. simpl. by rewrite <- app_assoc.
Qed.

Lemma rss_mark_read_computes a st c :
  collection (curr_key st) st = Some c →
  rss_mark_read a st
  = (Returned tt,
     after (curr_key st)
       (Collection.commit
          (Collection.updateAbstract (Abstract.id a)
             (Abstract.set_read true a) c))
       (refresh_calls ALL_LISTS
        ++ [CallUpdateAbstract (curr_key st) (Abstract.id a);
            CallCommit (curr_key st)])
       st).
Proof.
  intros Hc. unfold rss_mark_read, bind.
  rewrite refreshLists_logged.
  by rewrite (update_and_commit_logged _ _ _ _ Hc).
Qed.

Lemma mark_each_after arts key c l st :
  key = curr_key st →
  mark_each (gets curr_key) arts (after key c l st)
  = (Returned tt,
     after key (mark_all arts c)
       (l ++ ((λ a, CallUpdateAbstract key (Abstract.id a)) <$> arts)) st).
Proof.
  intros ->. revert c l. unfold mark_each.
  induction arts as [|a arts IH]; intros c l; simpl.
  - unfold ret. by rewrite app_nil_r.
  - unfold bind at 1. unfold bind at 1, gets at 1.
    change (curr_key (after (curr_key st) c l st)) with (curr_key st).
    rewrite method_after. simpl. rewrite IH. by rewrite <- app_assoc.
Qed.

(** The feed [rss_mark_all_read] works on. *)
Lemma rss_mark_all_read_computes feed f st c :
  match feed with Some f => Some f | None => current_feed st end = Some f →
  collection (curr_key st) st = Some c →
  let key := curr_key st in
  let arts := Collection.getArticles f c in
  rss_mark_all_read feed st
  = (Returned tt,
     after key (Collection.commit (mark_all arts c))
       (CallGetArticles key f
        :: ((λ a, CallUpdateAbstract key (Abstract.id a)) <$> arts)
        ++ refresh_calls ALL_LISTS ++ [CallCommit key])
       st).
Proof.
  intros Hf Hc key arts. unfold rss_mark_all_read, bind at 1.
  assert (match feed with
          | Some f0 =>
              bind (gets curr_key) (λ key0,
                method key0 (CallGetArticles key0 f0)
                       (query (Collection.getArticles f0)))
          | None => currArticles
          end st = (Returned arts, after key c [CallGetArticles key f] st))
    as ->.
  { destruct feed as [f0|].
    - injection Hf as ->. unfold bind, gets.
      by rewrite (method_start _ _ _ _ _ Hc).
    - unfold currArticles, bind, gets. rewrite Hf.
      by rewrite (method_start _ _ _ _ _ Hc). }
  unfold bind at 1. rewrite mark_each_after by done.
  unfold bind at 1. rewrite refreshLists_after.
  unfold bind, gets.
  change (curr_key (after key _ _ st)) with (curr_key st).
  rewrite method_after. simpl. by rewrite <- !app_assoc.
Qed.
Lemma update_and_commit_after a l st c :
  update_and_commit a (after (curr_key st) c l st)
  = (Returned tt,
     after (curr_key st)
       (Collection.commit (Collection.updateAbstract (Abstract.id a) a c))
       (l ++ [CallUpdateAbstract (curr_key st) (Abstract.id a);
              CallCommit (curr_key st)])
       st).
Proof.
  unfold update_and_commit, bind at 1, gets at 1.
  change (curr_key (after (curr_key st) c l st)) with (curr_key st).
  unfold bind. rewrite method_after. simpl.
  rewrite method_after. simpl. by rewrite <- app_assoc.
Qed.

Lemma rss_read_computes a body st c :
  collection (curr_key st) st = Some c →
  Collection.contents c !! Abstract.id a = Some body →
  let key := curr_key st in
  rss_read a st
  = (Returned tt,
     after key
       (Collection.commit
          (Collection.updateAbstract (Abstract.id a)
             (Abstract.set_read true a) c))
       ([CallGetContent key (Abstract.id a);
         CallCreatePanel (Abstract.title a);
         CallGetArticles key "<unread>"]
        ++ refresh_calls ALL_LISTS
        ++ [CallUpdateAbstract key (Abstract.id a); CallCommit key])
       st).
Proof.
  intros Hc Hbody key. unfold rss_read, bind at 1, gets at 1.
  unfold bind at 1. rewrite (method_start _ _ _ _ _ Hc). simpl.
  unfold Collection.getContent. rewrite Hbody.
  unfold bind at 1. rewrite call_after.
  unfold bind at 1. unfold bind at 1, gets at 1.
  change (curr_key (after (curr_key st) _ _ st)) with (curr_key st).
  unfold bind at 1. rewrite method_after. simpl.
  unfold bind at 1. rewrite refreshLists_after.
  rewrite update_and_commit_after. simpl. done.
Qed.
End Marking.

(** ** Updating and committing in a Collection *)

Section UpdateCommit.
Import Collection.

Lemma flush_lookup (m s : gmap string Abstract.t) (l : list string) i :
  foldr (flush_one m) s l !! i = if decide (i ∈ l) then m !! i else s !! i.
Proof.
  induction l as [|j l IH]; cbn [foldr].
  - rewrite decide_False; [done|apply not_elem_of_nil].
  - assert (i ∈ j :: l ↔ j = i ∨ i ∈ l) as Hcons.
    { rewrite elem_of_cons. split; (intros [?|?]; [left|right]; done). }
    unfold flush_one at 1. destruct (decide (j = i)) as [->|Hne].
    + rewrite decide_True by (apply Hcons; by left).
      destruct (m !! i) eqn:Hm; [by rewrite lookup_insert_eq|].
      by rewrite lookup_delete_eq.
    + destruct (m !! j);
        [rewrite lookup_insert_ne by done|rewrite lookup_delete_ne by done];
        rewrite IH; repeat case_decide; try done; intuition congruence.
Qed.

(** [commit] writes every pending Abstract through and leaves nothing
    pending; the rest of the store is not touched. *)
Lemma commit_store c i :
  st_abstracts (store (commit c)) !! i
  = if decide (i ∈ dirty c) then abstracts c !! i
    else st_abstracts (store c) !! i.
Proof.
  unfold commit. simpl. rewrite flush_lookup.
  repeat case_decide; try done;
    match goal with H : _ |- _ => apply elem_of_elements in H; done end.
Qed.

Lemma commit_dirty c : dirty (commit c) = ∅.
Proof. done. Qed.

Lemma commit_abstracts c : abstracts (commit c) = abstracts c.
Proof. done. Qed.

Lemma commit_nothing_pending c i :
  dirty c = ∅ →
  st_abstracts (store (commit c)) !! i = st_abstracts (store c) !! i.
Proof. intros H. rewrite commit_store, H. by rewrite decide_False. Qed.

Lemma updateAbstract_lookup id new c :
  abstracts (updateAbstract id new c) !! id
  = apply_state new <$> abstracts c !! id.
Proof. unfold updateAbstract, abstracts. simpl. apply lookup_alter_eq. Qed.

Lemma updateAbstract_lookup_ne id new c i :
  id ≠ i → abstracts (updateAbstract id new c) !! i = abstracts c !! i.
Proof.
  intros. unfold updateAbstract, abstracts. simpl. by apply lookup_alter_ne.
Qed.

Lemma updateAbstract_dirty id new c i :
  i ∈ dirty (updateAbstract id new c) ↔ i = id ∨ i ∈ dirty c.
Proof. unfold updateAbstract, dirty. simpl. set_solver. Qed.

(** After [mark_all], the Abstracts under the ids of the list are read
    and pending; the read ones stay read. *)
Lemma mark_all_read l c i x :
  abstracts c !! i = Some x →
  Abstract.read x = true ∨ i ∈ Abstract.id <$> l →
  ∃ x', abstracts (mark_all l c) !! i = Some x' ∧ Abstract.read x' = true.
Proof.
  unfold mark_all. revert c x.
  induction l as [|a l IH]; intros c x Hx Hi; simpl.
  - destruct Hi as [Hi|Hi]; [eauto|by apply elem_of_nil in Hi].
  - destruct (decide (Abstract.id a = i)) as [<-|Hne].
    + eapply IH.
      * rewrite updateAbstract_lookup, Hx. simpl. reflexivity.
      * left. done.
    + eapply IH.
      * by rewrite updateAbstract_lookup_ne.
      * destruct Hi as [Hi|Hi]; [by left|right].
        simpl in Hi. apply elem_of_cons in Hi as [Hi|Hi]; [congruence|done].
Qed.

Lemma mark_all_dirty l c i :
  i ∈ dirty (mark_all l c) ↔ i ∈ Abstract.id <$> l ∨ i ∈ dirty c.
Proof.
  unfold mark_all. revert c.
  induction l as [|a l IH]; intros c; simpl.
  - rewrite elem_of_nil. tauto.
  - rewrite IH, updateAbstract_dirty, elem_of_cons. tauto.
Qed.

(** What [getArticles] lists is filed in the Collection. *)
Lemma catalog_abstracts_elem c s a :
  a ∈ catalog_abstracts c s →
  ∃ i, i ∈ Summary.catalog s ∧ abstracts c !! i = Some a.
Proof.
  unfold catalog_abstracts. rewrite list_elem_of_omap.
  intros (i & Hi & Ha). eauto.
Qed.
End UpdateCommit.

(** ** The unread feed *)

Section Unread.
Import Collection.

Global Instance date_desc_total : Total date_desc.
Proof. intros a b. unfold date_desc. lia. Qed.

Global Instance date_desc_trans : Transitive date_desc.
Proof. intros a b c. unfold date_desc. lia. Qed.

(** An Abstract is in the catalog of some feed of the Collection. *)
Lemma elem_of_all_catalogs c a :
  a ∈ mjoin (catalog_abstracts c <$> (map_to_list (summaries c)).*2)
  ↔ ∃ url s i, summaries c !! url = Some s ∧ i ∈ Summary.catalog s
               ∧ abstracts c !! i = Some a.
Proof.
  rewrite (list_elem_of_join a). split.
  - intros (l & Ha & Hl).
    apply list_elem_of_fmap in Hl as (s & -> & Hs).
    apply list_elem_of_fmap in Hs as ([url s'] & -> & Hs).
    apply elem_of_map_to_list in Hs.
    apply catalog_abstracts_elem in Ha as (i & Hi & Ha).
    exists url, s', i. done.
  - intros (url & s & i & Hs & Hi & Ha).
    exists (catalog_abstracts c s). split.
    + unfold catalog_abstracts. apply list_elem_of_omap. eauto.
    + apply list_elem_of_fmap. exists s. split; [done|].
      apply list_elem_of_fmap. exists (url, s). split; [done|].
      by apply elem_of_map_to_list.
Qed.

Lemma getArticles_unread_perm c :
  getArticles "<unread>" c
  ≡ₚ List.filter unread
       (mjoin (catalog_abstracts c <$> (map_to_list (summaries c)).*2)).
Proof. unfold getArticles. simpl. apply merge_sort_Permutation. Qed.

Lemma getArticles_unread_elem c a :
  a ∈ getArticles "<unread>" c
  ↔ Abstract.read a = false
    ∧ ∃ url s i, summaries c !! url = Some s ∧ i ∈ Summary.catalog s
                 ∧ abstracts c !! i = Some a.
Proof.
  rewrite getArticles_unread_perm, elem_of_List_filter, elem_of_all_catalogs.
  unfold unread. rewrite negb_true_iff. tauto.
Qed.

Lemma getArticles_unread_sorted c :
  StronglySorted date_desc (getArticles "<unread>" c).
Proof.
  unfold getArticles. simpl. apply StronglySorted_merge_sort; apply _.
Qed.

(** Whatever [getArticles] lists is filed in the Collection. *)
Lemma getArticles_filed feed c a :
  a ∈ getArticles feed c → ∃ i, abstracts c !! i = Some a.
Proof.
  destruct (decide (feed = "<unread>")) as [->|Hne].
  - rewrite getArticles_unread_elem. intros (_ & _ & _ & i & _ & _ & Ha). eauto.
  - unfold getArticles. rewrite decide_False by done.
    destruct (summaries c !! feed) as [s|]; [|by intros ?%elem_of_nil].
    intros (i & _ & Ha)%catalog_abstracts_elem. eauto.
Qed.
End Unread.

(** ** Retention safety *)

Section RetentionSafety.
Import Collection.

Lemma kept_listed now maxAge c c' id a :
  kept c c' id ∨ dropped now maxAge c c' id →
  abstracts c' !! id = Some a →
  still_listed c c' id a.
Proof.
  intros Hk Ha url s Hs Hin.
  assert (∃ s', summaries c' !! url = Some s' ∧ id ∈ Summary.catalog s')
    as (s' & Hs' & Hin').
  { destruct Hk as [(_ & _ & _ & Hl)|(_ & Hgone & _)]; [eauto|congruence]. }
  split; [eauto|]. split.
  - intros Hne. unfold getArticles. rewrite decide_False by done.
    rewrite Hs'. unfold catalog_abstracts. apply list_elem_of_omap. eauto.
  - intros Hread. apply getArticles_unread_elem. eauto 10.
Qed.

(** What a sweep owes an Abstract it may not remove. *)
Lemma sweep_safe now maxAge c c' id a :
  sweep now maxAge c c' →
  abstracts c !! id = Some a →
  Abstract.read a = false ∨ Abstract.favorite a = true
  ∨ now - Abstract.date a ≤ maxAge →
  abstracts c' !! id = Some a
  ∧ contents c' !! id = contents c !! id
  ∧ st_abstracts (store c') !! id = st_abstracts (store c) !! id
  ∧ still_listed c c' id a.
Proof.
  intros Hsw Ha Hflag.
  assert (abstracts c' !! id = Some a
          ∧ contents c' !! id = contents c !! id
          ∧ st_abstracts (store c') !! id = st_abstracts (store c) !! id)
    as (Ha' & Hc' & Hs').
  { destruct (Hsw id) as [(Ha' & Hs' & Hc' & _)|(Hr & _)];
      [repeat split; congruence|].
    exfalso. unfold removable_id, removable, expired in Hr.
    rewrite Ha in Hr.
    apply andb_true_iff in Hr as [Hr Hfav].
    apply andb_true_iff in Hr as [Hexp Hread].
    apply negb_true_iff in Hfav. apply bool_decide_eq_true in Hexp.
    destruct Hflag as [?|[?|?]]; [congruence|congruence|lia]. }
  split; [done|]. split; [done|]. split; [done|].
  apply (kept_listed now maxAge); [apply Hsw|done].
Qed.
End RetentionSafety.

(** C1. Retention safety: [cleanOldArticles] and [cleanAllOldArticles]
    leave every Abstract that is unread, or a favorite, or not older than
    the threshold exactly as it was, however old it is: the Abstract in
    memory, its persisted copy and its content are unchanged, every feed
    whose catalog had its id still has it and still lists the Abstract,
    and so does the unread feed if it is unread.  So only read,
    non-favorite Abstracts older than the threshold are deleted, and the
    persisted summaries stay in step with the ones in memory.  The same
    holds for every Collection of the controller after the commands
    [rss_clean_old_articles] and [rss_clean_all_old_articles]. *)
Theorem retention_safety (now : Z) (c : Collection.t) (id : string)
    (a : Abstract.t) :
  Collection.abstracts c !! id = Some a →
  (∀ maxAge c',
     c' = Collection.cleanAllOldArticles now maxAge c
     ∨ (∃ url, c' = Collection.cleanOldArticles now url maxAge c) →
     (Abstract.read a = false ∨ Abstract.favorite a = true
      ∨ now - Abstract.date a ≤ maxAge →
      Collection.abstracts c' !! id = Some a
      ∧ Collection.contents c' !! id = Collection.contents c !! id
      ∧ Collection.st_abstracts (Collection.store c') !! id
        = Collection.st_abstracts (Collection.store c) !! id
      ∧ still_listed c c' id a)
     ∧ (Collection.abstracts c' !! id = None →
        Abstract.read a = true ∧ Abstract.favorite a = false
        ∧ maxAge < now - Abstract.date a)
     ∧ (Collection.st_summaries (Collection.store c)
        = Collection.summaries c →
        Collection.st_summaries (Collection.store c')
        = Collection.summaries c'))
  ∧ (∀ st key st',
       App.collection key st = Some c →
       (∃ feed time,
          st' = App.exec (App.rss_clean_old_articles now feed time) st)
       ∨ (∃ account time,
            st' = App.exec (App.rss_clean_all_old_articles now account time)
                    st) →
       Abstract.read a = false ∨ Abstract.favorite a = true →
       ∃ c', App.collection key st' = Some c'
             ∧ Collection.abstracts c' !! id = Some a
             ∧ Collection.contents c' !! id = Collection.contents c !! id
             ∧ Collection.st_abstracts (Collection.store c') !! id
               = Collection.st_abstracts (Collection.store c) !! id
             ∧ still_listed c c' id a).
Proof.
  intros Ha. split.
  - intros maxAge c' Hc'.
    assert (sweep now maxAge c c') as Hsw.
    { destruct Hc' as [->|[url ->]];
        [apply cleanAllOldArticles_sweep|apply cleanOldArticles_sweep]. }
    split; [intros Hflag; by eapply sweep_safe|].
    split; [intros Hgone; by eapply sweep_only|].
    destruct Hc' as [->|[url ->]];
      [apply cleanAllOldArticles_synced|apply cleanOldArticles_synced].
  - intros st key st' Hc Hst' Hflag.
    assert (∃ maxAge, swept now maxAge st st') as [maxAge Hsw].
    { destruct Hst' as [(feed & time & ->)|(account & time & ->)];
        eexists; [apply rss_clean_old_articles_swept
                 |apply rss_clean_all_old_articles_swept]. }
    destruct (Hsw key c Hc) as (c' & Hc' & Hs).
    exists c'. split; [done|].
    apply (sweep_safe now maxAge); [done|done|].
    destruct Hflag; [by left|by right; left].
Qed.

Lemma retention_safety_witness :
  Collection.abstracts
    (Collection.cleanAllOldArticles Sample.today Sample.month Sample.archive)
    !! "old-unread"
  = Some (Sample.article "old-unread" 0 false false)
  ∧ Sample.article "old-unread" 0 false false
    ∈ Collection.getArticles Sample.F
        (Collection.cleanAllOldArticles Sample.today Sample.month
           Sample.archive).
Proof.
  assert (Collection.abstracts Sample.archive !! "old-unread"
          = Some (Sample.article "old-unread" 0 false false)) as Ha
    by reflexivity.
  destruct (retention_safety Sample.today Sample.archive "old-unread"
              (Sample.article "old-unread" 0 false false) Ha) as [Hclean _].
  destruct (Hclean Sample.month
              (Collection.cleanAllOldArticles Sample.today Sample.month
                 Sample.archive)) as (Hsafe & _); [by left|].
  destruct Hsafe as (Ha' & _ & _ & Hl); [by left|].
  split; [exact Ha'|].
  destruct (Hl Sample.F (Sample.summaryF
                           ["old-unread"; "old-starred"; "old-read";
                            "new-read"])) as (_ & Hin & _).
  - reflexivity.
  - apply list_elem_of_here.
  - apply Hin. discriminate.
Defined.


(** C5. [getArticles('<unread>')] lists exactly the Abstracts with
    [read = false] found in the catalogs of the feeds of the Collection,
    newest first; and once a feed with the unread items A and B has A
    marked read, it lists exactly B, which is also what the Next button of
    the article panel opens. *)
Theorem unread_feed (c : Collection.t) :
  (∀ a, a ∈ Collection.getArticles "<unread>" c
        ↔ Abstract.read a = false
          ∧ ∃ url s i, Collection.summaries c !! url = Some s
                       ∧ i ∈ Summary.catalog s
                       ∧ Collection.abstracts c !! i = Some a)
  ∧ Collection.getArticles "<unread>" c
    ≡ₚ List.filter Collection.unread
         (mjoin (Collection.catalog_abstracts c
                    <$> (map_to_list (Collection.summaries c)).*2))
  ∧ StronglySorted (λ a b, Abstract.date b ≤ Abstract.date a)
      (Collection.getArticles "<unread>" c)
  ∧ (let st := App.exec (App.rss_mark_read Sample.A)
                 (Sample.app Sample.twoUnread) in
     Collection.getArticles "<unread>" Sample.twoUnread = [Sample.B; Sample.A]
     ∧ (Collection.getArticles "<unread>" <$> App.collection "acc-1" st)
       = Some [Sample.B]
     ∧ (App.currArticles (App.exec (App.rss_articles "<unread>") st)).1
       = App.Returned [Sample.B]
     ∧ take 4 (new_calls st
                 (App.exec (App.panel_message App.MsgNext Sample.A) st))
       = [App.CallGetArticles "acc-1" "<unread>"; App.CallDisposePanel;
          App.CallGetContent "acc-1" "B";
          App.CallCreatePanel (Abstract.title Sample.B)]).
Proof.
  split; [apply getArticles_unread_elem|].
  split; [apply getArticles_unread_perm|].
  split; [apply getArticles_unread_sorted|].
  repeat split; by vm_compute.
Qed.

Lemma apply_state_read (a : Abstract.t) :
  Collection.apply_state (Abstract.set_read true a) a
  = Abstract.set_read true a.
Proof. by destruct a. Qed.

(** C4. [updateAbstract] applies the read and favorite flags to the
    in-memory Abstract, and the [commit] of the handle it returns writes
    that mutation to the store at once, which is what [rss_mark_read] and
    [rss_read] do for one article.  [rss_mark_all_read] sets [read] on
    every Abstract of the target feed, registers each one through
    [updateAbstract], and calls [commit] on the Collection once, after all
    the updates. *)
Theorem update_then_commit (st : App.t) (c : Collection.t) :
  App.collection (App.curr_key st) st = Some c →
  keyed c →
  let key := App.curr_key st in
  (∀ id new old,
     Collection.abstracts c !! id = Some old →
     let c1 := Collection.updateAbstract id new c in
     ∃ x, Collection.abstracts c1 !! id = Some x
          ∧ Abstract.read x = Abstract.read new
          ∧ Abstract.favorite x = Abstract.favorite new
          ∧ id ∈ Collection.dirty c1
          ∧ Collection.st_abstracts (Collection.store (Collection.commit c1))
              !! id = Some x
          ∧ Collection.dirty (Collection.commit c1) = ∅)
  ∧ (∀ a,
       Collection.abstracts c !! Abstract.id a = Some a →
       ∃ c',
         App.rss_mark_read a st
         = (App.Returned tt,
            after key c'
              (refresh_calls App.ALL_LISTS
               ++ [App.CallUpdateAbstract key (Abstract.id a);
                   App.CallCommit key]) st)
         ∧ Collection.abstracts c' !! Abstract.id a
           = Some (Abstract.set_read true a)
         ∧ Collection.st_abstracts (Collection.store c') !! Abstract.id a
           = Some (Abstract.set_read true a)
         ∧ Collection.dirty c' = ∅)
  ∧ (∀ a body,
       Collection.abstracts c !! Abstract.id a = Some a →
       Collection.contents c !! Abstract.id a = Some body →
       ∃ c',
         App.rss_read a st
         = (App.Returned tt,
            after key c'
              ([App.CallGetContent key (Abstract.id a);
                App.CallCreatePanel (Abstract.title a);
                App.CallGetArticles key "<unread>"]
               ++ refresh_calls App.ALL_LISTS
               ++ [App.CallUpdateAbstract key (Abstract.id a);
                   App.CallCommit key]) st)
         ∧ Collection.abstracts c' !! Abstract.id a
           = Some (Abstract.set_read true a)
         ∧ Collection.st_abstracts (Collection.store c') !! Abstract.id a
           = Some (Abstract.set_read true a)
         ∧ Collection.dirty c' = ∅)
  ∧ (∀ feed f,
       match feed with Some f => Some f | None => App.current_feed st end
       = Some f →
       let arts := Collection.getArticles f c in
       ∃ c',
         App.rss_mark_all_read feed st
         = (App.Returned tt,
            after key c'
              (App.CallGetArticles key f
               :: ((λ a, App.CallUpdateAbstract key (Abstract.id a)) <$> arts)
               ++ refresh_calls App.ALL_LISTS ++ [App.CallCommit key]) st)
         ∧ (∀ a, a ∈ arts →
              ∃ a', Collection.abstracts c' !! Abstract.id a = Some a'
                    ∧ Abstract.read a' = true
                    ∧ Collection.st_abstracts (Collection.store c')
                        !! Abstract.id a = Some a')
         ∧ Collection.dirty c' = ∅).
Proof.
  intros Hc Hkeyed key.
  assert (∀ a, Collection.abstracts c !! Abstract.id a = Some a →
            let c' := Collection.commit
                        (Collection.updateAbstract (Abstract.id a)
                           (Abstract.set_read true a) c) in
            Collection.abstracts c' !! Abstract.id a
            = Some (Abstract.set_read true a)
            ∧ Collection.st_abstracts (Collection.store c') !! Abstract.id a
              = Some (Abstract.set_read true a)
            ∧ Collection.dirty c' = ∅) as Hsingle.
  { intros a Ha c'.
    assert (Collection.abstracts
              (Collection.updateAbstract (Abstract.id a)
                 (Abstract.set_read true a) c) !! Abstract.id a
            = Some (Abstract.set_read true a)) as Hx.
    { by rewrite updateAbstract_lookup, Ha; simpl; rewrite apply_state_read. }
    repeat split; try done.
    unfold c'. rewrite commit_store, decide_True; [done|].
    apply updateAbstract_dirty. by left. }
  split; [|split; [|split]].
  - intros id new old Hold c1.
    exists (Collection.apply_state new old).
    assert (Collection.abstracts c1 !! id
            = Some (Collection.apply_state new old)) as Hx.
    { unfold c1. by rewrite updateAbstract_lookup, Hold. }
    assert (id ∈ Collection.dirty c1) as Hd.
    { apply updateAbstract_dirty. by left. }
    repeat split; try done.
    by rewrite commit_store, decide_True.
  - intros a Ha. eexists. split; [by apply rss_mark_read_computes|].
    by apply Hsingle.
  - intros a body Ha Hbody. eexists.
    split; [by eapply rss_read_computes|]. by apply Hsingle.
  - intros feed f Hf arts. eexists.
    split; [by apply rss_mark_all_read_computes|].
    split; [|done].
    intros a Ha.
    destruct (getArticles_filed _ _ _ Ha) as (i & Hi).
    assert (Abstract.id a = i) as Hid by apply (Hkeyed i a Hi).
    destruct (mark_all_read arts c i a Hi) as (a' & Ha' & Hread).
    { right. rewrite <- Hid. apply list_elem_of_fmap. eauto. }
    exists a'. rewrite Hid. repeat split; try done.
    rewrite commit_store, decide_True; [done|].
    apply mark_all_dirty. left. rewrite <- Hid.
    apply list_elem_of_fmap. eauto.
Qed.

Lemma update_then_commit_witness :
  let st := Sample.app Sample.twoUnread in
  ∃ c',
    App.rss_mark_all_read (Some Sample.F) st
    = (App.Returned tt,
       after "acc-1" c'
         (App.CallGetArticles "acc-1" Sample.F
          :: [App.CallUpdateAbstract "acc-1" "A";
              App.CallUpdateAbstract "acc-1" "B"]
          ++ refresh_calls App.ALL_LISTS ++ [App.CallCommit "acc-1"]) st)
    ∧ (∀ a, a ∈ [Sample.A; Sample.B] →
         ∃ a', Collection.abstracts c' !! Abstract.id a = Some a'
               ∧ Abstract.read a' = true
               ∧ Collection.st_abstracts (Collection.store c')
                   !! Abstract.id a = Some a')
    ∧ Collection.dirty c' = ∅.
Proof.
  refine (proj2 (proj2 (proj2 (update_then_commit
                                 (Sample.app Sample.twoUnread)
                                 Sample.twoUnread _ _)))
            (Some Sample.F) Sample.F _).
  - reflexivity.
  - unfold keyed. apply (bool_decide_unpack _). by vm_compute.
  - reflexivity.
Defined.

(** ** The favorites invariant *)

Section Favorites.
Import Collection.

Lemma favorites_checked_invariant c :
  favorites_checked c → favorites_invariant c.
Proof.
  intros [Hl Hm] id. split.
  - intros Hin. rewrite Forall_forall in Hl. specialize (Hl id Hin).
    destruct (abstracts c !! id) as [a|]; [|done].
    injection Hl as Hl. eauto.
  - intros (a & Ha & Hf). by apply (Hm id a).
Qed.

Lemma addToFavorites_invariant id c :
  favorites_invariant c → favorites_invariant (addToFavorites id c).
Proof.
  intros Hinv. unfold addToFavorites.
  destruct (abstracts c !! id) as [a|] eqn:Ha; [|done].
  intros i. unfold favorites, abstracts. simpl.
  destruct (decide (id = i)) as [->|Hne].
  - rewrite lookup_insert_eq. split; [eauto|intros _].
    case_decide; [done|]. apply elem_of_app. right. apply list_elem_of_here.
  - rewrite lookup_insert_ne by done. rewrite <- (Hinv i).
    case_decide; [done|]. rewrite elem_of_app, list_elem_of_singleton.
    unfold favorites. intuition congruence.
Qed.

Lemma removeFromFavorites_invariant id c :
  favorites_invariant c → favorites_invariant (removeFromFavorites id c).
Proof.
  intros Hinv i. unfold removeFromFavorites, favorites, abstracts. simpl.
  rewrite elem_of_List_filter, bool_decide_eq_true.
  destruct (decide (id = i)) as [->|Hne].
  - rewrite lookup_alter_eq. split; [by intros [_ ?]|].
    intros (a & Ha & Hf).
    destruct (m_abstracts (mem c) !! i); simpl in Ha; [|done].
    injection Ha as <-. done.
  - rewrite lookup_alter_ne by done. rewrite <- (Hinv i).
    unfold favorites. intuition congruence.
Qed.

Lemma delFeed_invariant url c :
  favorites_invariant c → favorites_invariant (delFeed url c).
Proof.
  intros Hinv. unfold delFeed.
  destruct (summaries c !! url) as [s|]; [|done].
  intros i. unfold favorites, abstracts. simpl.
  rewrite elem_of_List_filter, lookup_delete_all.
  unfold not_in. rewrite bool_decide_eq_true.
  case_decide as Hin.
  - split; [by intros [_ ?]|by intros (a & ? & _)].
  - rewrite <- (Hinv i). unfold favorites. tauto.
Qed.

(** Nothing of a deleted feed is left behind. *)
Lemma delFeed_purges url s c i :
  summaries c !! url = Some s →
  i ∈ Summary.catalog s →
  summaries (delFeed url c) !! url = None
  ∧ abstracts (delFeed url c) !! i = None
  ∧ (i ∉ favorites (delFeed url c))
  ∧ contents (delFeed url c) !! i = None.
Proof.
  intros Hs Hi. unfold delFeed. rewrite Hs.
  unfold summaries, abstracts, favorites, contents. simpl.
  rewrite lookup_delete_eq, !lookup_delete_all_in by done.
  repeat split; try done.
  rewrite elem_of_List_filter. unfold not_in. rewrite bool_decide_eq_true.
  tauto.
Qed.

Lemma cleanOldArticles_favorites now url maxAge c :
  favorites (cleanOldArticles now url maxAge c) = favorites c.
Proof. unfold cleanOldArticles. by destruct (summaries c !! url). Qed.

Lemma cleanAllOldArticles_favorites now maxAge c :
  favorites (cleanAllOldArticles now maxAge c) = favorites c.
Proof.
  unfold cleanAllOldArticles.
  induction ((map_to_list (summaries c)).*1) as [|url urls IH]; simpl; [done|].
  by rewrite cleanOldArticles_favorites.
Qed.

(** A sweep that leaves the FavoritesList alone keeps the invariant: what
    it drops was not a favorite. *)
Lemma sweep_invariant now maxAge c c' :
  sweep now maxAge c c' →
  favorites c' = favorites c →
  favorites_invariant c → favorites_invariant c'.
Proof.
  intros Hsw Hfav Hinv i. rewrite Hfav, (Hinv i).
  destruct (Hsw i) as [(Ha & _)|(Hr & Ha & _)].
  - by rewrite Ha.
  - rewrite Ha. unfold removable_id, removable in Hr.
    split; [|by intros (a & ? & _)].
    intros (a & Hc & Hf). rewrite Hc, Hf in Hr.
    by rewrite andb_false_r in Hr.
Qed.
End Favorites.

Global Instance carries_preorder (P : App.t → Prop) : PreOrder (carries P).
Proof. split; unfold carries; [intros ?; done|intros ???; auto]. Qed.

Section AppFavorites.
Import App.

Lemma favorites_kept_set_log l st :
  carries favorites_kept st (set_log l st).
Proof. intros H key c Hc. by apply (H key c). Qed.

Lemma favorites_kept_put key c l st :
  favorites_invariant c →
  carries favorites_kept st (put_collection key c (set_log l st)).
Proof.
  intros Hinv H key' c' Hc'.
  destruct (decide (key = key')) as [->|Hne].
  - rewrite collection_put in Hc'. by injection Hc' as <-.
  - rewrite collection_put_ne in Hc' by done. by apply (H key' c').
Qed.

Lemma favorites_kept_delete key st :
  carries favorites_kept st
    (set_collections (delete key (collections st)) st).
Proof.
  intros H key' c' Hc'. apply (H key' c').
  unfold collection in *. simpl in Hc'.
  destruct (decide (key = key')) as [->|Hne].
  - by rewrite lookup_delete_eq in Hc'.
  - by rewrite lookup_delete_ne in Hc'.
Qed.

Lemma method_favorites {A} key c (f : Collection.t → A * Collection.t) :
  (∀ col, favorites_invariant col → favorites_invariant (f col).2) →
  maintains (carries favorites_kept) (method key c f).
Proof.
  intros Hf. apply maintains_method; [tc_solve|].
  intros st col Hcol Hst. apply favorites_kept_put; [|done].
  apply Hf. by apply (Hst key).
Qed.

(** Closes the steps of a handler that calls [f] on a Collection. *)
Ltac favorites_steps lemma :=
  maintains_steps;
  try (apply maintains_call; intros; apply favorites_kept_set_log);
  try (apply maintains_modify; intros; first
         [apply favorites_kept_set_log|apply favorites_kept_delete
         |by intros Hkept key' c' Hc'; apply (Hkept key' c')]);
  try (apply method_favorites; intros; simpl; first [done|by apply lemma]).

Lemma rss_add_to_favorites_kept a :
  maintains (carries favorites_kept) (rss_add_to_favorites a).
Proof.
  unfold rss_add_to_favorites. favorites_steps addToFavorites_invariant.
Qed.

Lemma panel_star_kept a :
  maintains (carries favorites_kept) (panel_message MsgStar a).
Proof. simpl. favorites_steps addToFavorites_invariant. Qed.

Lemma rss_remove_from_favorites_kept a :
  maintains (carries favorites_kept) (rss_remove_from_favorites a).
Proof.
  unfold rss_remove_from_favorites.
  favorites_steps removeFromFavorites_invariant.
Qed.

Lemma rss_remove_feed_kept feed :
  maintains (carries favorites_kept) (rss_remove_feed feed).
Proof. unfold rss_remove_feed. favorites_steps delFeed_invariant. Qed.

Lemma cleanOldArticles_invariant now url maxAge c :
  favorites_invariant c →
  favorites_invariant (Collection.cleanOldArticles now url maxAge c).
Proof.
  apply (sweep_invariant now maxAge);
    [apply cleanOldArticles_sweep|apply cleanOldArticles_favorites].
Qed.

Lemma cleanAllOldArticles_invariant now maxAge c :
  favorites_invariant c →
  favorites_invariant (Collection.cleanAllOldArticles now maxAge c).
Proof.
  apply (sweep_invariant now maxAge);
    [apply cleanAllOldArticles_sweep|apply cleanAllOldArticles_favorites].
Qed.

Lemma rss_clean_old_articles_kept now feed time :
  maintains (carries favorites_kept) (rss_clean_old_articles now feed time).
Proof.
  unfold rss_clean_old_articles. favorites_steps cleanOldArticles_invariant.
Qed.

Lemma rss_clean_all_old_articles_kept now account time :
  maintains (carries favorites_kept)
            (rss_clean_all_old_articles now account time).
Proof.
  unfold rss_clean_all_old_articles.
  favorites_steps cleanAllOldArticles_invariant.
Qed.

Lemma clean_invariant c : favorites_invariant (Collection.clean c).
Proof.
  intros i. unfold Collection.clean, Collection.favorites,
    Collection.abstracts. simpl. rewrite elem_of_nil, lookup_empty.
  split; [done|by intros (? & ? & _)].
Qed.

Lemma rss_del_account_kept confirm account :
  maintains (carries favorites_kept) (rss_del_account confirm account).
Proof.
  unfold rss_del_account, removeAccount.
  favorites_steps (λ c (_ : favorites_invariant c), clean_invariant c).
Qed.
End AppFavorites.

Lemma sample_app_kept c :
  favorites_checked c → favorites_kept (Sample.app c).
Proof.
  intros Hc key c' Hc'. apply favorites_checked_invariant.
  unfold App.collection, App.persisted, Sample.app in Hc'. simpl in Hc'.
  destruct (decide (key = "acc-1")) as [->|Hne].
  - rewrite !lookup_singleton_eq in Hc'. simpl in Hc'.
    destruct c. simpl in Hc'. by injection Hc' as <-.
  - rewrite !lookup_singleton_ne in Hc' by done. by simpl in Hc'.
Qed.

(** Starring B and then deleting its feed leaves no favorite behind. *)
Example favorite_then_delete_feed :
  let st1 := App.exec (App.rss_add_to_favorites Sample.B)
               (Sample.app Sample.twoUnread) in
  let st2 := App.exec (App.rss_remove_feed Sample.F) st1 in
  (Collection.getFavorites <$> App.collection "acc-1" st1)
  = Some [Abstract.set_favorite true Sample.B]
  ∧ (Collection.getFavorites <$> App.collection "acc-1" st2) = Some []
  ∧ (Collection.favorites <$> App.collection "acc-1" st2) = Some [].
Proof. repeat split; by vm_compute. Qed.

(** C6. The favorites invariant -- an id is in the FavoritesList exactly
    when its Abstract has the favorite flag -- holds again after
    [addToFavorites], [removeFromFavorites], the deletion of a feed and
    the deletion of articles, in the Collection and through the commands
    of the controller; and deleting a feed removes its Abstracts together
    with the favorites that reference them. *)
Theorem favorites_invariant_maintained (st : App.t) :
  favorites_kept st →
  (∀ a, favorites_kept (App.exec (App.rss_add_to_favorites a) st))
  ∧ (∀ a, favorites_kept (App.exec (App.panel_message App.MsgStar a) st))
  ∧ (∀ a, favorites_kept (App.exec (App.rss_remove_from_favorites a) st))
  ∧ (∀ feed, favorites_kept (App.exec (App.rss_remove_feed feed) st))
  ∧ (∀ now feed time,
       favorites_kept (App.exec (App.rss_clean_old_articles now feed time) st))
  ∧ (∀ now account time,
       favorites_kept
         (App.exec (App.rss_clean_all_old_articles now account time) st))
  ∧ (∀ confirm account,
       favorites_kept (App.exec (App.rss_del_account confirm account) st))
  ∧ (∀ key c, App.collection key st = Some c →
       (∀ id, favorites_invariant (Collection.addToFavorites id c))
       ∧ (∀ id, favorites_invariant (Collection.removeFromFavorites id c))
       ∧ (∀ url, favorites_invariant (Collection.delFeed url c))
       ∧ (∀ now url maxAge,
            favorites_invariant (Collection.cleanOldArticles now url maxAge c))
       ∧ (∀ now maxAge,
            favorites_invariant (Collection.cleanAllOldArticles now maxAge c))
       ∧ (∀ url s id,
            Collection.summaries c !! url = Some s →
            id ∈ Summary.catalog s →
            Collection.abstracts (Collection.delFeed url c) !! id = None
            ∧ (id ∉ Collection.favorites (Collection.delFeed url c)))).
Proof.
  intros Hst.
  split; [intros a; by apply rss_add_to_favorites_kept|].
  split; [intros a; by apply panel_star_kept|].
  split; [intros a; by apply rss_remove_from_favorites_kept|].
  split; [intros feed; by apply rss_remove_feed_kept|].
  split; [intros now feed time; by apply rss_clean_old_articles_kept|].
  split; [intros now account time;
          by apply rss_clean_all_old_articles_kept|].
  split; [intros confirm account; by apply rss_del_account_kept|].
  intros key c Hc. specialize (Hst key c Hc).
  split; [intros id; by apply addToFavorites_invariant|].
  split; [intros id; by apply removeFromFavorites_invariant|].
  split; [intros url; by apply delFeed_invariant|].
  split; [intros now url maxAge; by apply cleanOldArticles_invariant|].
  split; [intros now maxAge; by apply cleanAllOldArticles_invariant|].
  intros url s id Hs Hid.
  destruct (delFeed_purges url s c id Hs Hid) as (_ & Ha & Hf & _). done.
Qed.

Lemma favorites_invariant_maintained_witness :
  favorites_kept
    (App.exec (App.rss_remove_feed Sample.F)
       (App.exec (App.rss_add_to_favorites Sample.B)
          (Sample.app Sample.twoUnread))).
Proof.
  apply favorites_invariant_maintained.
  apply favorites_invariant_maintained.
  apply sample_app_kept.
  split; apply (bool_decide_unpack _); by vm_compute.
Defined.

(** ** Accounts and the current feed *)

Section Accounts.
Import App.

Lemma rss_select_computes account st :
  rss_select account st
  = (Returned tt,
     logged (refresh_calls (Z.lor (Z.lor FEED ARTICLE) FAVORITES))
       (set_article_tree_view
          (match article_tree_view st with
           | Some _ => Some "Articles"
           | None => None
           end)
          (set_current_feed None (set_current_account (Some account) st)))).
Proof.
  unfold rss_select, bind, modify, gets, when. simpl.
  destruct st as [ca cf u v cs sg cfg fl lg]; simpl.
  destruct v; simpl; by rewrite refreshLists_logged.
Qed.

Lemma removeAccount_missing key st :
  collections st !! key = None →
  removeAccount key st
  = (if inherited key then Thrown else Returned tt, st).
Proof.
  intros H. unfold removeAccount, bind, gets, collection. rewrite H.
  by destruct (inherited key).
Qed.

Lemma removeAccount_computes key st c :
  collection key st = Some c →
  removeAccount key st
  = (Returned tt,
     logged [CallCfgUpdateAccounts]
       (set_cfg_accounts (delete key (cfg_accounts st))
          (set_collections (delete key (collections st))
             (set_storage (<[ key := Collection.empty_store ]> (storage st))
                (logged [CallClean key] st))))).
Proof.
  intros Hc. unfold removeAccount, bind at 1, gets at 1. rewrite Hc.
  unfold bind at 1. rewrite (method_start _ _ _ _ _ Hc). simpl.
  unfold bind, modify, call, after, logged, put_collection. simpl.
  by rewrite delete_insert_eq.
Qed.
End Accounts.

(** C7. Removing an account that has a registered Collection calls
    [clean()] on that Collection, which erases what the account had
    persisted, takes the Collection out of the live collections and the
    account out of the accounts setting; afterwards neither is there, and
    the other accounts are as before. *)
Theorem removeAccount_teardown (st : App.t) (key : string) :
  is_Some (App.collections st !! key) →
  let st' := App.exec (App.removeAccount key) st in
  (App.removeAccount key st).1 = App.Returned tt
  ∧ new_calls st st' = [App.CallClean key; App.CallCfgUpdateAccounts]
  ∧ App.persisted key st' = Collection.empty_store
  ∧ App.collections st' = delete key (App.collections st)
  ∧ App.cfg_accounts st' = delete key (App.cfg_accounts st)
  ∧ App.collection key st' = None
  ∧ App.cfg_accounts st' !! key = None
  ∧ (∀ other, other ≠ key →
       App.collection other st' = App.collection other st
       ∧ App.cfg_accounts st' !! other = App.cfg_accounts st !! other)
  ∧ App.rss_del_account (Some "yes") key st = App.removeAccount key st.
Proof.
  intros [m Hm] st'.
  assert (App.collection key st
          = Some (Collection.mk m (App.persisted key st))) as Hc.
  { unfold App.collection. by rewrite Hm. }
  unfold st', App.exec. rewrite (removeAccount_computes _ _ _ Hc).
  unfold new_calls, App.persisted, App.collection, logged. simpl.
  rewrite lookup_insert_eq, !lookup_delete_eq, <- app_assoc, drop_app_length.
  repeat split; try done.
  - unfold App.persisted. simpl.
    by rewrite lookup_delete_ne, lookup_insert_ne.
  - by rewrite lookup_delete_ne.
  - unfold App.rss_del_account. rewrite decide_True by done.
    rewrite (removeAccount_computes _ _ _ Hc). unfold logged. simpl.
    by rewrite <- app_assoc.
Qed.

Lemma removeAccount_teardown_witness :
  let st' := App.exec (App.removeAccount "acc-2")
               (Sample.app2 Sample.twoUnread Sample.archive) in
  App.collection "acc-2" st' = None
  ∧ App.cfg_accounts st' !! "acc-2" = None
  ∧ App.persisted "acc-2" st' = Collection.empty_store.
Proof.
  destruct (removeAccount_teardown
              (Sample.app2 Sample.twoUnread Sample.archive) "acc-2")
    as (_ & _ & Hp & _ & _ & Hc & Ha & _).
  - vm_compute. eauto.
  - repeat split; assumption.
Defined.

(** An ordinary key without a Collection: nothing happens. *)
Example removeAccount_ordinary :
  App.removeAccount "acc-9" (Sample.app Sample.twoUnread)
  = (App.Returned tt, Sample.app Sample.twoUnread).
Proof. by rewrite removeAccount_missing. Qed.

(** C9. [removeAccount] with a key that has no registered Collection
    leaves the collections, the accounts setting and everything else as
    they were and makes no call.  It returns, except for a key that names
    a member [this.collections] inherits from [Object.prototype]: the
    test against [undefined] lets such a key through, and the call of
    [clean()] on the inherited member throws. *)
Theorem removeAccount_unknown (st : App.t) (key : string) :
  App.collections st !! key = None →
  App.removeAccount key st
  = (if App.inherited key then App.Thrown else App.Returned tt, st).
Proof. apply removeAccount_missing. Qed.

Lemma removeAccount_unknown_witness :
  App.removeAccount "constructor" (Sample.app Sample.twoUnread)
  = (App.Thrown, Sample.app Sample.twoUnread).
Proof.
  apply (removeAccount_unknown (Sample.app Sample.twoUnread) "constructor").
  reflexivity.
Defined.

(** C8. With no feed selected, [currArticles] returns the empty list: it
    does not throw and makes no call on any Collection, registered or not;
    this is the state right after [rss_select]. *)
Theorem currArticles_no_feed (st : App.t) :
  App.current_feed st = None →
  App.currArticles st = (App.Returned [], st)
  ∧ (∀ account,
       App.current_feed (App.exec (App.rss_select account) st) = None
       ∧ App.currArticles (App.exec (App.rss_select account) st)
         = (App.Returned [], App.exec (App.rss_select account) st)).
Proof.
  assert (∀ s, App.current_feed s = None
               → App.currArticles s = (App.Returned [], s)) as Hcur.
  { intros s Hs. unfold App.currArticles, App.bind, App.gets. by rewrite Hs. }
  intros Hst. split; [by apply Hcur|].
  intros account.
  assert (App.current_feed (App.exec (App.rss_select account) st) = None)
    as Hsel.
  { unfold App.exec. by rewrite rss_select_computes. }
  split; [done|by apply Hcur].
Qed.

Lemma currArticles_no_feed_witness :
  App.currArticles (Sample.app Sample.twoUnread)
  = (App.Returned [], Sample.app Sample.twoUnread).
Proof. apply currArticles_no_feed. reflexivity. Defined.

(** ** The API key *)

Section ApiKey.
Import AIConfigManager.

Lemma trimStart_blank s : blank (trimStart s) ↔ blank s.
Proof.
  unfold blank. induction s as [|c s IH]; simpl; [done|].
  destruct (is_white_space c) eqn:Hc; [|done].
  rewrite IH, Forall_cons. tauto.
Qed.

Lemma trimStart_nil s : trimStart s = [] ↔ blank s.
Proof.
  unfold blank. induction s as [|c s IH]; simpl.
  - split; [constructor|done].
  - destruct (is_white_space c) eqn:Hc.
    + rewrite IH, Forall_cons. tauto.
    + split; [done|]. intros H. apply Forall_cons in H as [H _]. congruence.
Qed.

Lemma blank_rev s : blank (rev s) ↔ blank s.
Proof.
  unfold blank. rewrite !Forall_forall.
  split; intros H c Hc; apply H; apply list_elem_of_In;
    apply list_elem_of_In in Hc; [by apply in_rev in Hc|by apply in_rev].
Qed.

Lemma trimEnd_nil s : trimEnd s = [] ↔ blank s.
Proof.
  unfold trimEnd. rewrite <- blank_rev, <- trimStart_nil.
  split; intros H; [|by rewrite H].
  by rewrite <- (rev_involutive (trimStart (rev s))), H.
Qed.

(** [s.trim() === ''] says that [s] is empty or white space only. *)
Lemma trim_nil s : trim s = [] ↔ blank s.
Proof. unfold trim. by rewrite trimEnd_nil, trimStart_blank. Qed.

Lemma is_empty_trim s : is_empty s || is_empty (trim s) = true ↔ blank s.
Proof.
  rewrite <- trim_nil. destruct s as [|c s]; [done|]. simpl.
  destruct (trim (c :: s)); simpl; split; congruence.
Qed.

Lemma present_spec v : present v = true ↔ ¬ absent v.
Proof.
  destruct v as [s|]; simpl; [|split; [done|tauto]].
  rewrite <- negb_orb, negb_true_iff, <- is_empty_trim.
  destruct (is_empty s || is_empty (trim s)); split; congruence.
Qed.

Lemma setApiKey_blank k st : blank k → setApiKey k st = deleteApiKey st.
Proof.
  intros H. unfold setApiKey. apply is_empty_trim in H. by rewrite H.
Qed.

Lemma setApiKey_not_blank k st :
  ¬ blank k → setApiKey k st = mk (Some k) (settings_key st).
Proof.
  intros H. unfold setApiKey.
  destruct (is_empty k || is_empty (trim k)) eqn:E; [|done].
  by apply is_empty_trim in E.
Qed.
End ApiKey.

(** C10. The stored API key is never blank: [setApiKey] with an empty or
    white-space-only string deletes the stored secret instead of storing
    it, and [getApiKey] returns [undefined] or a key that is not empty
    after trimming; a blank value in the SecretStorage or in the settings
    counts as absent. *)
Theorem api_key_never_blank (st : AIConfigManager.t) :
  (∀ k, AIConfigManager.blank k →
        AIConfigManager.setApiKey k st = AIConfigManager.deleteApiKey st
        ∧ AIConfigManager.secret (AIConfigManager.setApiKey k st) = None)
  ∧ (∀ k, match AIConfigManager.secret (AIConfigManager.setApiKey k st) with
          | Some s => s = k ∧ AIConfigManager.trim s ≠ []
          | None => AIConfigManager.blank k
          end)
  ∧ match (AIConfigManager.getApiKey st).1 with
    | Some k =>
        AIConfigManager.trim k ≠ []
        ∧ AIConfigManager.secret (AIConfigManager.getApiKey st).2 = Some k
    | None => True
    end
  ∧ (AIConfigManager.absent (AIConfigManager.secret st) →
     AIConfigManager.absent (AIConfigManager.settings_key st) →
     AIConfigManager.getApiKey st = (None, st)).
Proof.
  split; [|split; [|split]].
  - intros k Hk. rewrite setApiKey_blank by done. done.
  - intros k. destruct (decide (AIConfigManager.blank k)) as [Hk|Hk].
    + by rewrite setApiKey_blank.
    + rewrite setApiKey_not_blank by done. simpl.
      split; [done|]. by rewrite trim_nil.
  - unfold AIConfigManager.getApiKey.
    destruct (AIConfigManager.present (AIConfigManager.secret st)) eqn:Hs.
    + simpl. apply present_spec in Hs.
      destruct (AIConfigManager.secret st) as [k|]; simpl in *; [|tauto].
      split; [by rewrite trim_nil|done].
    + destruct (AIConfigManager.settings_key st) as [k|] eqn:Hk; [|done].
      destruct (AIConfigManager.present (Some k)) eqn:Hp; [|done].
      simpl. apply present_spec in Hp. simpl in Hp.
      rewrite setApiKey_not_blank by done. simpl.
      split; [by rewrite trim_nil|done].
  - intros Hs Hk. unfold AIConfigManager.getApiKey.
    destruct (AIConfigManager.present (AIConfigManager.secret st)) eqn:Hp.
    { apply present_spec in Hp. tauto. }
    destruct (AIConfigManager.settings_key st) as [k|] eqn:Ek; [|done].
    destruct (AIConfigManager.present (Some k)) eqn:Hp'; [|done].
    apply present_spec in Hp'. tauto.
Qed.

Lemma api_key_never_blank_witness :
  AIConfigManager.secret
    (AIConfigManager.setApiKey [32; 9; 160]%N
       (AIConfigManager.mk (Some [115; 107; 45; 49]%N) None))
  = None.
Proof.
  apply api_key_never_blank. unfold AIConfigManager.blank.
  repeat constructor.
Defined.

(** * Further properties of the code *)

(** ** The API key and the AI settings *)

Section AISettings.
Import AIConfigManager.

Lemma present_missing v : present v = true → AIConfig.missing v = false.
Proof.
  destruct v as [s|]; simpl; [|done].
  intros H. apply andb_true_iff in H as [H _]. by apply negb_true_iff in H.
Qed.

Lemma getApiKey_present st :
  present (secret st) = true → getApiKey st = (secret st, st).
Proof. intros H. unfold getApiKey. by rewrite H. Qed.

Lemma getApiKey_migrates st k :
  present (secret st) = false →
  settings_key st = Some k →
  present (Some k) = true →
  getApiKey st = (Some k, mk (Some k) (Some [])).
Proof.
  intros Hs Hk Hp. unfold getApiKey. rewrite Hs, Hk, Hp.
  apply present_spec in Hp. simpl in Hp.
  by rewrite setApiKey_not_blank.
Qed.

Lemma getApiKey_nothing st :
  present (secret st) = false →
  present (settings_key st) = false →
  getApiKey st = (None, st).
Proof.
  intros Hs Hk. unfold getApiKey. rewrite Hs.
  destruct (settings_key st); [by rewrite Hk|done].
Qed.

Lemma absent_spec v : present v = false ↔ absent v.
Proof.
  destruct v as [s|]; simpl; [|done].
  rewrite <- negb_orb, negb_false_iff. apply is_empty_trim.
Qed.

(** The three ways [getApiKey] can go. *)
Lemma getApiKey_cases st :
  (present (secret st) = true ∧ getApiKey st = (secret st, st))
  ∨ (∃ k, present (secret st) = false ∧ settings_key st = Some k
          ∧ present (Some k) = true
          ∧ getApiKey st = (Some k, mk (Some k) (Some [])))
  ∨ (present (secret st) = false ∧ present (settings_key st) = false
     ∧ getApiKey st = (None, st)).
Proof.
  destruct (present (secret st)) eqn:Hs.
  { left. split; [done|by apply getApiKey_present]. }
  destruct (present (settings_key st)) eqn:Hk.
  - right. left. destruct (settings_key st) as [k|] eqn:Ek; [|done].
    exists k. repeat split; try done. by apply getApiKey_migrates.
  - right. right. repeat split; try done. by apply getApiKey_nothing.
Qed.

Lemma getApiKey_result_present st :
  match (getApiKey st).1 with
  | Some k => present (Some k) = true ∧ secret (getApiKey st).2 = Some k
  | None => True
  end.
Proof.
  destruct (getApiKey_cases st)
    as [[Hs ->]|[(k & Hs & Hk & Hp & ->)|(Hs & Hk & ->)]]; simpl; try done.
  destruct (secret st); [done|by simpl in Hs].
Qed.
End AISettings.

(** X1. Reading the key moves a key found in the settings into the
    secret store once: the second of two reads in a row returns what the
    first returned and changes nothing.  A key is taken from the settings
    only when the secret store holds none; it is then stored as the secret
    and the setting is emptied. *)
Theorem getApiKey_twice (st : AIConfigManager.t) :
  AIConfigManager.getApiKey (AIConfigManager.getApiKey st).2
  = ((AIConfigManager.getApiKey st).1, (AIConfigManager.getApiKey st).2)
  ∧ (∀ k, AIConfigManager.absent (AIConfigManager.secret st) →
          AIConfigManager.settings_key st = Some k →
          ¬ AIConfigManager.blank k →
          AIConfigManager.getApiKey st
          = (Some k, AIConfigManager.mk (Some k) (Some [])))
  ∧ (¬ AIConfigManager.absent (AIConfigManager.secret st) →
     AIConfigManager.getApiKey st = (AIConfigManager.secret st, st)).
Proof.
  split; [|split].
  - destruct (getApiKey_cases st)
      as [[Hs ->]|[(k & Hs & Hk & Hp & ->)|(Hs & Hk & ->)]]; simpl.
    + by apply getApiKey_present.
    + by apply getApiKey_present.
    + by apply getApiKey_nothing.
  - intros k Hs Hk Hb. apply getApiKey_migrates; [|done|].
    + destruct (AIConfigManager.present (AIConfigManager.secret st)) eqn:E;
        [|done].
      apply present_spec in E. tauto.
    + by apply present_spec.
  - intros Hs. apply getApiKey_present. by apply present_spec.
Qed.

Lemma getApiKey_twice_witness :
  AIConfigManager.getApiKey (AIConfigManager.mk (Some [32]%N) (Some [115; 107]%N))
  = (Some [115; 107]%N, AIConfigManager.mk (Some [115; 107]%N) (Some [])).
Proof.
  apply getApiKey_twice.
  - unfold AIConfigManager.absent, AIConfigManager.blank. simpl.
    repeat constructor.
  - reflexivity.
  - unfold AIConfigManager.blank. intros H.
    apply Forall_cons in H as [H _]. discriminate H.
Defined.

(** X2. A key that is not blank is read back as it was set, whatever the
    settings hold; and deleting the secret makes [getApiKey] fall back on
    the settings, so that it returns nothing only when the setting is
    absent or blank too. *)
Theorem setApiKey_getApiKey (st : AIConfigManager.t)
    (k : AIConfigManager.jsstring) :
  ¬ AIConfigManager.blank k →
  AIConfigManager.getApiKey (AIConfigManager.setApiKey k st)
  = (Some k, AIConfigManager.setApiKey k st)
  ∧ AIConfigManager.settings_key (AIConfigManager.setApiKey k st)
    = AIConfigManager.settings_key st
  ∧ ((AIConfigManager.getApiKey (AIConfigManager.deleteApiKey st)).1 = None
     ↔ AIConfigManager.absent (AIConfigManager.settings_key st)).
Proof.
  intros Hk. rewrite setApiKey_not_blank by done.
  split; [|split; [done|]].
  - apply getApiKey_present. by apply present_spec.
  - destruct (getApiKey_cases (AIConfigManager.deleteApiKey st))
      as [[Hs ->]|[(k' & Hs & Hk' & Hp & ->)|(Hs & Hk' & ->)]].
    + done.
    + change (AIConfigManager.settings_key st = Some k') in Hk'.
      rewrite Hk'. apply present_spec in Hp. simpl. split; [done|tauto].
    + change (AIConfigManager.present (AIConfigManager.settings_key st)
              = false) in Hk'.
      simpl. split; [intros _|done]. by apply absent_spec.
Qed.

Lemma setApiKey_getApiKey_witness :
  AIConfigManager.getApiKey
    (AIConfigManager.setApiKey [115; 107]%N (AIConfigManager.mk None None))
  = (Some [115; 107]%N,
     AIConfigManager.setApiKey [115; 107]%N (AIConfigManager.mk None None)).
Proof.
  apply setApiKey_getApiKey. unfold AIConfigManager.blank. intros H.
  apply Forall_cons in H as [H _]. discriminate H.
Defined.

Section Validate.
Import AIConfigManager.

Lemma present_nonempty v :
  present v = true → ∃ s, v = Some s ∧ s ≠ [] ∧ ¬ blank s.
Proof.
  intros H. destruct v as [s|]; [|done]. exists s.
  split; [done|]. split; [by destruct s|].
  by apply (present_spec (Some s)).
Qed.

Lemma missing_getEndpoint st :
  AIConfig.missing (AIConfig.getEndpoint st) = negb (present (AIConfig.endpoint st)).
Proof.
  unfold AIConfig.getEndpoint.
  destruct (present (AIConfig.endpoint st)) eqn:E; [|done].
  by apply present_missing.
Qed.

Lemma missing_getModel st :
  AIConfig.missing (AIConfig.getModel st) = negb (present (AIConfig.model st)).
Proof.
  unfold AIConfig.getModel.
  destruct (present (AIConfig.model st)) eqn:E; [|done].
  by apply present_missing.
Qed.

Lemma missing_getApiKey st :
  AIConfig.missing (getApiKey st).1
  = negb (present (secret st) || present (settings_key st)).
Proof.
  destruct (getApiKey_cases st)
    as [[Hs ->]|[(k & Hs & Hk & Hp & ->)|(Hs & Hk & ->)]]; simpl.
  - rewrite Hs. by apply present_missing.
  - rewrite Hs, Hk, Hp. by apply (present_missing (Some k)).
  - by rewrite Hs, Hk.
Qed.

(** [validateConfig] written out by what it finds. *)
Lemma validateConfig_unfold st :
  AIConfig.validateConfig st
  = if negb (AIConfig.enabled st)
    then (AIConfig.mkValidation false (Some AIConfig.not_enabled), st)
    else if negb (present (AIConfig.endpoint st))
    then (AIConfig.mkValidation false (Some AIConfig.no_endpoint), st)
    else
      let st' := AIConfig.set_keys (getApiKey (AIConfig.keys st)).2 st in
      if negb (present (secret (AIConfig.keys st))
               || present (settings_key (AIConfig.keys st)))
      then (AIConfig.mkValidation false (Some AIConfig.no_api_key), st')
      else if negb (present (AIConfig.model st))
      then (AIConfig.mkValidation false (Some AIConfig.no_model), st')
      else (AIConfig.mkValidation true None, st').
Proof.
  unfold AIConfig.validateConfig, AIConfig.isEnabled.
  destruct (negb (AIConfig.enabled st)); [done|].
  rewrite missing_getEndpoint.
  destruct (negb (present (AIConfig.endpoint st))); [done|].
  rewrite <- missing_getApiKey.
  destruct (getApiKey (AIConfig.keys st)) as [apiKey keys'] eqn:E. simpl.
  destruct (AIConfig.missing apiKey); [done|].
  by rewrite missing_getModel.
Qed.
End Validate.

(** X3. [validateConfig] accepts exactly when the feature is enabled, the
    endpoint and the model are not blank, and a key that is not blank is
    in the secret store or in the settings.  When it accepts, the key, the
    endpoint and the model read right after it are all there and not
    empty; when it rejects, it gives a message; and when the feature is
    off or the endpoint is missing it has not touched the key store. *)
Theorem validateConfig_accepts (st : AIConfig.t) :
  let r := AIConfig.validateConfig st in
  (AIConfig.valid r.1 = true
   ↔ AIConfig.enabled st = true
     ∧ ¬ AIConfigManager.absent (AIConfig.endpoint st)
     ∧ ¬ (AIConfigManager.absent (AIConfigManager.secret (AIConfig.keys st))
          ∧ AIConfigManager.absent
              (AIConfigManager.settings_key (AIConfig.keys st)))
     ∧ ¬ AIConfigManager.absent (AIConfig.model st))
  ∧ (AIConfig.valid r.1 = true →
     AIConfig.error r.1 = None
     ∧ ∃ k e m,
         AIConfigManager.getApiKey (AIConfig.keys r.2)
         = (Some k, AIConfig.keys r.2)
         ∧ AIConfig.getEndpoint r.2 = Some e
         ∧ AIConfig.getModel r.2 = Some m
         ∧ k ≠ [] ∧ e ≠ [] ∧ m ≠ [])
  ∧ (AIConfig.valid r.1 = false →
     ∃ message, AIConfig.error r.1 = Some message ∧ message ≠ "")
  ∧ (AIConfig.enabled st = false
     ∨ AIConfigManager.absent (AIConfig.endpoint st) → r.2 = st).
Proof.
  intros r. unfold r. rewrite validateConfig_unfold.
  destruct (AIConfig.enabled st) eqn:Hen; simpl.
  2:{ repeat split; try done; try (intros (? & _); done).
      eexists; split; [done|done]. }
  destruct (AIConfigManager.present (AIConfig.endpoint st)) eqn:He; simpl.
  2:{ apply absent_spec in He.
      repeat split; try done; try (intros (_ & ? & _); done).
      eexists; split; [done|done]. }
  assert (¬ AIConfigManager.absent (AIConfig.endpoint st)) as He'
    by by apply present_spec.
  destruct (AIConfigManager.present
              (AIConfigManager.secret (AIConfig.keys st))
            || AIConfigManager.present
                 (AIConfigManager.settings_key (AIConfig.keys st))) eqn:Hk;
    simpl.
  2:{ apply orb_false_iff in Hk as [Hs Hs'].
      apply absent_spec in Hs. apply absent_spec in Hs'.
      repeat split; try done; try (intros (_ & _ & ? & _); tauto);
        try (intros [?|?]; done).
      eexists; split; [done|done]. }
  assert (¬ (AIConfigManager.absent
               (AIConfigManager.secret (AIConfig.keys st))
             ∧ AIConfigManager.absent
                 (AIConfigManager.settings_key (AIConfig.keys st)))) as Hk'.
  { intros [Hs Hs']. apply absent_spec in Hs. apply absent_spec in Hs'.
    by rewrite Hs, Hs' in Hk. }
  destruct (AIConfigManager.present (AIConfig.model st)) eqn:Hm; simpl.
  2:{ apply absent_spec in Hm.
      repeat split; try done; try (intros (_ & _ & _ & ?); done);
        try (intros [?|?]; done).
      eexists; split; [done|done]. }
  assert (¬ AIConfigManager.absent (AIConfig.model st)) as Hm'
    by by apply present_spec.
  repeat split; try done; try (intros [?|?]; done).
  destruct (present_nonempty _ He) as (e & Ee & Hne & _).
  destruct (present_nonempty _ Hm) as (m & Em & Hnm & _).
  pose proof (getApiKey_result_present (AIConfig.keys st)) as Hres.
  pose proof (missing_getApiKey (AIConfig.keys st)) as Hmiss.
  rewrite Hk in Hmiss. simpl in Hmiss.
  destruct (AIConfigManager.getApiKey (AIConfig.keys st)) as [[k|] ks] eqn:E;
    cbn [fst snd] in *; [|done].
  destruct Hres as [Hp Hsec].
  destruct (present_nonempty _ Hp) as (k' & Ek & Hnk & _).
  injection Ek as <-.
  exists k, e, m. unfold AIConfig.getEndpoint, AIConfig.getModel.
  cbn [AIConfig.set_keys AIConfig.keys AIConfig.endpoint AIConfig.model].
  rewrite He, Hm. repeat split; try done.
  rewrite (getApiKey_present ks) by by rewrite Hsec.
  by rewrite Hsec.
Qed.

(** X4. The input box accepts a key exactly when it is not blank; an
    accepted key is stored as the secret and reported as saved, and a
    dismissed box changes nothing. *)
Theorem promptForApiKey_stores (st : AIConfigManager.t)
    (k : AIConfigManager.jsstring) :
  (AIConfig.validateInput k = None ↔ ¬ AIConfigManager.blank k)
  ∧ (AIConfig.validateInput k = None →
     AIConfig.promptForApiKey (Some k) st
     = (true, AIConfigManager.mk (Some k) (AIConfigManager.settings_key st)))
  ∧ AIConfig.promptForApiKey None st = (false, st).
Proof.
  assert (AIConfig.validateInput k = None ↔ ¬ AIConfigManager.blank k) as Hv.
  { unfold AIConfig.validateInput. rewrite <- is_empty_trim.
    destruct (AIConfigManager.is_empty k
              || AIConfigManager.is_empty (AIConfigManager.trim k)).
    - split; [done|]. intros H. by destruct H.
    - split; [by intros _ ?|done]. }
  split; [done|]. split; [|done].
  intros H. apply Hv in H. unfold AIConfig.promptForApiKey.
  rewrite setApiKey_not_blank by done.
  destruct k; [|done]. destruct H. constructor.
Qed.

Lemma promptForApiKey_stores_witness :
  AIConfig.promptForApiKey (Some [107]%N) (AIConfigManager.mk None None)
  = (true, AIConfigManager.mk (Some [107]%N) None).
Proof. by apply promptForApiKey_stores. Defined.

(** ** Reading the streamed response *)

Section Lines.
Import AIConfigManager AIService.

Lemma split_nonempty s : split s ≠ [].
Proof.
  induction s as [|c s IH]; simpl; [done|].
  destruct (c =? 10)%N; [done|]. by destruct (split s).
Qed.

Lemma removelast_cons {A} (x : A) l :
  l ≠ [] → removelast (x :: l) = x :: removelast l.
Proof. by destruct l. Qed.

Lemma last_cons {A} (x d : A) l : l ≠ [] → List.last (x :: l) d = List.last l d.
Proof. by destruct l. Qed.

Lemma last_app_nonempty {A} (l1 l2 : list A) d :
  l2 ≠ [] → List.last (l1 ++ l2) d = List.last l2 d.
Proof.
  intros H. induction l1 as [|x l1 IH]; [done|].
  cbn [app]. rewrite last_cons; [done|]. by destruct l1, l2.
Qed.

(** Splitting a text that goes on: the complete lines of the first part
    stay, its unfinished line is continued. *)
Lemma split_app x y :
  split (x ++ y)
  = removelast (split x) ++ split (List.last (split x) [] ++ y).
Proof.
  induction x as [|c x IH]; [done|].
  pose proof (split_nonempty x) as Hx.
  cbn [app split]. destruct (c =? 10)%N eqn:Hc.
  - rewrite removelast_cons, last_cons by done. by rewrite IH.
  - rewrite IH. destruct (split x) as [|l [|l' ls]] eqn:Es; [done| |].
    + cbn [removelast List.last app split]. by rewrite Hc.
    + rewrite (removelast_cons (c :: l)), (removelast_cons l) by done.
      rewrite (last_cons (c :: l)), (last_cons l) by done.
      done.
Qed.

Context (texts_openai texts_gemini : jsstring → list jsstring).
Context (gemini : bool).

(** After any number of chunks the buffer holds the unfinished last line
    of all the text received and every complete line has been read. *)
Lemma feed_all chunks :
  foldl (feed texts_openai texts_gemini gemini) ([], []) chunks
  = (List.last (split (mjoin chunks)) [],
     flat_map (line_texts texts_openai texts_gemini gemini)
              (removelast (split (mjoin chunks)))).
Proof.
  induction chunks as [|chunk chunks IH] using rev_ind; [done|].
  rewrite foldl_app, IH. cbn [foldl]. unfold feed. cbn [fst snd].
  assert (mjoin (chunks ++ [chunk]) = mjoin chunks ++ chunk) as ->.
  { clear IH. induction chunks as [|c cs IHc]; simpl.
    - by rewrite app_nil_r.
    - by rewrite IHc, app_assoc. }
  rewrite (split_app (mjoin chunks) chunk).
  set (b := List.last (split (mjoin chunks)) []).
  pose proof (split_nonempty (b ++ chunk)) as Hne.
  f_equal.
  - by rewrite last_app_nonempty.
  - rewrite removelast_app by done. by rewrite flat_map_app.
Qed.
End Lines.

Section LinesMore.
Import AIConfigManager AIService.

Lemma split_no_lf s : Forall (λ l, 10%N ∉ l) (split s).
Proof.
  induction s as [|c s IH]; simpl.
  - constructor; [apply not_elem_of_nil|constructor].
  - destruct (c =? 10)%N eqn:Hc.
    + constructor; [apply not_elem_of_nil|done].
    + destruct (split s) as [|l ls]; [repeat constructor|].
      * intros H. apply list_elem_of_singleton in H. subst.
        by rewrite N.eqb_refl in Hc.
      * apply Forall_cons in IH as [Hl Hls]. constructor; [|done].
        intros H. apply elem_of_cons in H as [<-|H]; [|done].
        by rewrite N.eqb_refl in Hc.
Qed.

Lemma split_one_line s : 10%N ∉ s → split s = [s].
Proof.
  induction s as [|c s IH]; [done|]. intros H.
  apply not_elem_of_cons in H as [Hc Hs]. simpl.
  destruct (c =? 10)%N eqn:E; [by apply N.eqb_eq in E|].
  by rewrite IH.
Qed.

Lemma last_split_no_lf s : 10%N ∉ List.last (split s) [].
Proof.
  pose proof (split_no_lf s) as H. pose proof (split_nonempty s) as Hne.
  destruct (exists_last Hne) as (ls & l & E). rewrite E in *.
  rewrite last_last. apply Forall_app in H as [_ H].
  by apply Forall_cons in H as [H _].
Qed.

(** Text without a line feed adds no complete line. *)
Lemma split_app_no_lf s tail :
  10%N ∉ tail →
  removelast (split (s ++ tail)) = removelast (split s).
Proof.
  intros Ht.
  rewrite split_app, (split_one_line (List.last (split s) [] ++ tail)).
  - by rewrite removelast_last.
  - intros H. apply elem_of_app in H as [H|H]; [|done].
    by apply (last_split_no_lf s).
Qed.

Lemma join_snoc (chunks : list jsstring) chunk :
  mjoin (chunks ++ [chunk]) = mjoin chunks ++ chunk.
Proof.
  induction chunks as [|c cs IH]; simpl.
  - by rewrite app_nil_r.
  - by rewrite IH, app_assoc.
Qed.
End LinesMore.

(** X5. What [streamBrief] yields depends only on the concatenation of
    the chunks as they were decoded, each by its own [toString()]: two
    sequences of chunks whose decoded chunks put together give the same
    text yield the same.  So two ways of cutting the same bytes yield the
    same when neither cuts inside a character, that is, when decoding
    chunk by chunk gives the decoding of the whole.  (A cut inside a
    multi-byte character is decoded differently and is not covered.) *)
Theorem streamBrief_chunking
    (texts_openai texts_gemini :
       AIConfigManager.jsstring → list AIConfigManager.jsstring)
    (toString : list N → AIConfigManager.jsstring)
    (endpoint : AIConfigManager.jsstring)
    (chunks chunks' : list (list N)) :
  (mjoin (toString <$> chunks) = mjoin (toString <$> chunks') →
   AIService.streamBrief texts_openai texts_gemini endpoint
     (toString <$> chunks)
   = AIService.streamBrief texts_openai texts_gemini endpoint
       (toString <$> chunks'))
  ∧ (mjoin chunks = mjoin chunks' →
     mjoin (toString <$> chunks) = toString (mjoin chunks) →
     mjoin (toString <$> chunks') = toString (mjoin chunks') →
     AIService.streamBrief texts_openai texts_gemini endpoint
       (toString <$> chunks)
     = AIService.streamBrief texts_openai texts_gemini endpoint
         (toString <$> chunks')).
Proof.
  assert (mjoin (toString <$> chunks) = mjoin (toString <$> chunks') →
          AIService.streamBrief texts_openai texts_gemini endpoint
            (toString <$> chunks)
          = AIService.streamBrief texts_openai texts_gemini endpoint
              (toString <$> chunks')) as Hsame.
  { intros H. unfold AIService.streamBrief. by rewrite !feed_all, H. }
  split; [exact Hsame|].
  intros Hbytes Hcut Hcut'. apply Hsame. by rewrite Hcut, Hcut', Hbytes.
Qed.

Lemma streamBrief_chunking_witness :
  AIService.streamBrief (λ d, [d]) (λ d, [d]) []
    [[100; 97; 116]; [97; 58; 32; 72; 105; 10]]%N
  = AIService.streamBrief (λ d, [d]) (λ d, [d]) []
      [[100; 97; 116; 97; 58; 32; 72; 105; 10]]%N.
Proof.
  apply (proj1 (streamBrief_chunking (λ d, [d]) (λ d, [d]) (λ b, b) []
                  [[100; 97; 116]; [97; 58; 32; 72; 105; 10]]%N
                  [[100; 97; 116; 97; 58; 32; 72; 105; 10]]%N)).
  reflexivity.
Defined.

(** X6. For an endpoint that is not Gemini's, [streamBrief] reads the
    lines that a line feed ends and nothing else: text that arrives after
    the last line feed is never read, so a response without a line feed
    yields nothing. *)
Theorem streamBrief_unfinished_line
    (texts_openai texts_gemini :
       AIConfigManager.jsstring → list AIConfigManager.jsstring)
    (endpoint : AIConfigManager.jsstring)
    (chunks : list AIConfigManager.jsstring)
    (tail : AIConfigManager.jsstring) :
  AIService.isGemini endpoint = false →
  10%N ∉ tail →
  AIService.streamBrief texts_openai texts_gemini endpoint chunks
  = flat_map (AIService.line_texts texts_openai texts_gemini false)
             (removelast (AIService.split (mjoin chunks)))
  ∧ AIService.streamBrief texts_openai texts_gemini endpoint
      (chunks ++ [tail])
    = AIService.streamBrief texts_openai texts_gemini endpoint chunks
  ∧ AIService.streamBrief texts_openai texts_gemini endpoint [tail] = [].
Proof.
  intros Hg Ht.
  assert (∀ cs,
    AIService.streamBrief texts_openai texts_gemini endpoint cs
    = flat_map (AIService.line_texts texts_openai texts_gemini false)
               (removelast (AIService.split (mjoin cs)))) as Hall.
  { intros cs. unfold AIService.streamBrief. rewrite feed_all, Hg.
    unfold AIService.finish. cbn [fst snd].
    by destruct (AIConfigManager.is_empty _). }
  split; [apply Hall|]. split.
  - by rewrite !Hall, join_snoc, split_app_no_lf.
  - rewrite Hall. simpl. rewrite app_nil_r.
    by rewrite split_one_line.
Qed.

Lemma streamBrief_unfinished_line_witness :
  AIService.streamBrief (λ d, [d]) (λ d, [d]) []
    [[100; 97; 116; 97; 58; 32; 72; 105]]%N
  = [].
Proof.
  apply (streamBrief_unfinished_line (λ d, [d]) (λ d, [d]) [] []).
  - reflexivity.
  - intros H. repeat (apply elem_of_cons in H as [H|H]; [discriminate H|]).
    by apply elem_of_nil in H.
Defined.

(** ** The AI brief panel *)

Section ValidThenComplete.
Import AIConfigManager.

(** Once [validateConfig] has accepted, the reads that follow it find
    the key, the endpoint and the model. *)
Lemma valid_then_complete st :
  AIConfig.valid (AIConfig.validateConfig st).1 = true →
  let cfg := (AIConfig.validateConfig st).2 in
  let cfg' := AIConfig.set_keys (getApiKey (AIConfig.keys cfg)).2 cfg in
  AIConfig.missing (getApiKey (AIConfig.keys cfg)).1 = false
  ∧ AIConfig.missing (AIConfig.getEndpoint cfg') = false
  ∧ AIConfig.missing (AIConfig.getModel cfg') = false.
Proof.
  rewrite validateConfig_unfold.
  destruct (negb (AIConfig.enabled st)); [done|].
  destruct (negb (present (AIConfig.endpoint st))) eqn:He; [done|].
  cbn zeta.
  destruct (negb (present (secret (AIConfig.keys st))
                  || present (settings_key (AIConfig.keys st)))) eqn:Hk;
    [done|].
  destruct (negb (present (AIConfig.model st))) eqn:Hm; [done|].
  intros _. cbn [snd AIConfig.set_keys AIConfig.keys].
  apply negb_false_iff in He, Hk, Hm.
  split; [|split].
  - rewrite missing_getApiKey.
    pose proof (getApiKey_result_present (AIConfig.keys st)) as Hres.
    pose proof (missing_getApiKey (AIConfig.keys st)) as Hmiss.
    rewrite Hk in Hmiss.
    destruct (getApiKey (AIConfig.keys st)) as [[k|] ks];
      cbn [fst snd] in *; [|done].
    destruct Hres as [Hp ->]. by rewrite Hp.
  - rewrite missing_getEndpoint. unfold AIConfig.set_keys.
    cbn [AIConfig.endpoint]. by rewrite He.
  - rewrite missing_getModel. unfold AIConfig.set_keys.
    cbn [AIConfig.model]. by rewrite Hm.
Qed.

Lemma getApiKey_again st :
  getApiKey (getApiKey st).2 = ((getApiKey st).1, (getApiKey st).2).
Proof.
  destruct (getApiKey_cases st)
    as [[Hs ->]|[(k & Hs & Hk & Hp & ->)|(Hs & Hk & ->)]]; simpl.
  - by apply getApiKey_present.
  - by apply getApiKey_present.
  - by apply getApiKey_nothing.
Qed.

(** They find what the configuration held when [validateConfig] was
    called. *)
Lemma valid_then_reads st :
  AIConfig.valid (AIConfig.validateConfig st).1 = true →
  let cfg := (AIConfig.validateConfig st).2 in
  let cfg' := AIConfig.set_keys (getApiKey (AIConfig.keys cfg)).2 cfg in
  (getApiKey (AIConfig.keys cfg)).1 = (getApiKey (AIConfig.keys st)).1
  ∧ AIConfig.getEndpoint cfg' = AIConfig.getEndpoint st
  ∧ AIConfig.getModel cfg' = AIConfig.getModel st.
Proof.
  rewrite validateConfig_unfold.
  destruct (negb (AIConfig.enabled st)); [done|].
  destruct (negb (present (AIConfig.endpoint st))); [done|].
  cbn zeta.
  destruct (negb (present (secret (AIConfig.keys st))
                  || present (settings_key (AIConfig.keys st)))); [done|].
  destruct (negb (present (AIConfig.model st))); [done|].
  intros _. cbn [snd AIConfig.set_keys AIConfig.keys].
  split; [by rewrite getApiKey_again|done].
Qed.

(** The message of a rejected configuration is one of the four. *)
Lemma validateConfig_error st :
  AIConfig.valid (AIConfig.validateConfig st).1 = false →
  ∃ e, AIConfig.error (AIConfig.validateConfig st).1 = Some e
       ∧ e ∈ [AIConfig.not_enabled; AIConfig.no_endpoint;
              AIConfig.no_api_key; AIConfig.no_model].
Proof.
  rewrite validateConfig_unfold.
  destruct (negb (AIConfig.enabled st)).
  { intros _. eexists. split; [done|]. set_solver. }
  destruct (negb (present (AIConfig.endpoint st))).
  { intros _. eexists. split; [done|]. set_solver. }
  cbn zeta.
  destruct (negb (present (secret (AIConfig.keys st))
                  || present (settings_key (AIConfig.keys st)))).
  { intros _. eexists. split; [done|]. set_solver. }
  destruct (negb (present (AIConfig.model st))); [|done].
  intros _. eexists. split; [done|]. set_solver.
Qed.
End ValidThenComplete.

Section Brief.
Import AIConfigManager AIBriefPanel.
Context (renderMarkdown : jsstring → bool → jsstring).
Context (text_of : jsstring → jsstring).
Context (texts_openai texts_gemini : jsstring → list jsstring).
Context (respond : Request → Response).

Local Abbreviation yielded := (yielded texts_openai texts_gemini).
Local Abbreviation attempt :=
  (attempt renderMarkdown text_of texts_openai texts_gemini respond).
Local Abbreviation generateBrief :=
  (generateBrief renderMarkdown text_of texts_openai texts_gemini respond).

Lemma posting_nil st : posting [] st = st.
Proof. destruct st. unfold posting. simpl. by rewrite app_nil_r. Qed.

Lemma posting_posting l l' st : posting l' (posting l st) = posting (l ++ l') st.
Proof. unfold posting. simpl. by rewrite app_assoc. Qed.

Lemma postMessage_posting m st : postMessage m st = posting [m] st.
Proof. done. Qed.

Lemma stream_chunks_spec acc texts st :
  stream_chunks renderMarkdown acc texts st
  = (acc ++ mjoin texts, posting (chunk_posts renderMarkdown acc texts) st).
Proof.
  revert acc st. induction texts as [|chunk texts IH]; intros acc st; simpl.
  - by rewrite app_nil_r, posting_nil.
  - rewrite IH, postMessage_posting, posting_posting. by rewrite app_assoc.
Qed.

Lemma chunk_posts_are_chunks acc texts :
  Forall is_chunk (chunk_posts renderMarkdown acc texts).
Proof.
  revert acc. induction texts as [|c texts IH]; intros acc; simpl;
    constructor; [done|apply IH].
Qed.

(** The message after the [k]-th yielded text renders the first [k]
    texts put together. *)
Lemma chunk_posts_lookup acc texts k :
  chunk_posts renderMarkdown acc texts !! k
  = (λ _, BriefChunk (renderMarkdown (acc ++ mjoin (take (S k) texts)) false))
      <$> texts !! k.
Proof.
  revert acc k. induction texts as [|c texts IH]; intros acc k; [done|].
  destruct k as [|k]; simpl.
  - by rewrite app_nil_r.
  - rewrite IH. by rewrite <- app_assoc.
Qed.
End Brief.

Section BriefOutcome.
Import AIConfigManager AIBriefPanel.
Context (renderMarkdown : jsstring → bool → jsstring).
Context (text_of : jsstring → jsstring).
Context (texts_openai texts_gemini : jsstring → list jsstring).
Context (respond : Request → Response).

Local Abbreviation yielded := (yielded texts_openai texts_gemini).
Local Abbreviation attempt :=
  (attempt renderMarkdown text_of texts_openai texts_gemini respond).
Local Abbreviation generateBrief :=
  (generateBrief renderMarkdown text_of texts_openai texts_gemini respond).

(** How the body of the [try] can end: with an error message and the
    cache as it was, or with the brief complete and cached. *)
Lemma attempt_outcome abstract content st :
  let st' := attempt abstract content st in
  generatingArticles st' = generatingArticles st
  ∧ ((∃ l message,
        Forall is_chunk l
        ∧ posts st' = posts st ++ l ++ [BriefError message]
        ∧ briefCache st' = briefCache st
        ∧ message ≠ "AI brief configuration is incomplete.")
     ∨ (∃ r html,
          content = inl html
          ∧ requests st' = requests st ++ [r]
          ∧ failure (respond r) = None
          ∧ r_title r = Abstract.title abstract
          ∧ (length (r_content r) ≤ content_limit)%nat
          ∧ r_content r
            = take content_limit
                (AIService.extractTextFromHTML text_of
                   (take content_limit
                      (AIService.extractTextFromHTML text_of html)))
          ∧ (getApiKey (AIConfig.keys (configManager st))).1
            = Some (r_apiKey r)
          ∧ AIConfig.getEndpoint (configManager st) = Some (r_endpoint r)
          ∧ AIConfig.getModel (configManager st) = Some (r_model r)
          ∧ r_apiKey r ≠ [] ∧ r_endpoint r ≠ [] ∧ r_model r ≠ []
          ∧ posts st'
            = posts st
              ++ chunk_posts renderMarkdown [] (yielded (r_endpoint r) (respond r))
              ++ [BriefComplete
                    (renderMarkdown
                       (mjoin (yielded (r_endpoint r) (respond r))) true)]
          ∧ briefCache st'
            = <[ Abstract.id abstract :=
                   mjoin (yielded (r_endpoint r) (respond r)) ]>
                (briefCache st))).
Proof.
  unfold AIBriefPanel.attempt.
  pose proof (valid_then_complete (configManager st)) as Hcomplete.
  pose proof (valid_then_reads (configManager st)) as Hreads.
  pose proof (validateConfig_error (configManager st)) as Herror.
  destruct (AIConfig.validateConfig (configManager st)) as [v cfg].
  cbn [fst snd] in *.
  destruct (AIConfig.valid v) eqn:Hv; cbn [negb].
  2:{ split; [done|]. left. exists []. eexists.
      split; [constructor|]. split; [done|]. split; [done|].
      destruct (Herror eq_refl) as (e & -> & He).
      repeat (apply elem_of_cons in He as [->|He]; [done|]).
      by apply elem_of_nil in He. }
  destruct (Hcomplete eq_refl) as (Hk & He & Hm).
  destruct (Hreads eq_refl) as (Hrk & Hre & Hrm).
  clear Hcomplete Hreads Herror.
  destruct (getApiKey (AIConfig.keys cfg)) as [apiKey k].
  cbn [fst snd] in *. rewrite Hk, He, Hm. cbn [orb].
  destruct content as [html|message].
  2:{ split; [done|]. left. exists []. eexists.
      split; [constructor|]. repeat split; done. }
  match goal with |- context [respond ?r] => set (req := r) end.
  rewrite stream_chunks_spec. cbn [app].
  destruct (failure (respond req)) as [f|] eqn:Hf.
  - split; [done|]. left. eexists. eexists.
    split; [apply chunk_posts_are_chunks|].
    split; [cbn; by rewrite <- app_assoc|]. split; done.
  - split; [done|]. right. exists req, html.
    split; [done|]. split; [done|]. split; [done|]. split; [done|].
    split; [unfold req; cbn; rewrite length_take; lia|].
    split; [done|].
    rewrite <- Hrk, <- Hre, <- Hrm. unfold req. cbn [r_apiKey r_endpoint
      r_model].
    destruct apiKey as [ak|]; [|done].
    destruct (AIConfig.getEndpoint (AIConfig.set_keys k cfg)) as [ep|];
      [|done].
    destruct (AIConfig.getModel (AIConfig.set_keys k cfg)) as [md|];
      [|done].
    cbn [default]. split; [done|]. split; [done|]. split; [done|].
    split; [by destruct ak|]. split; [by destruct ep|].
    split; [by destruct md|].
    split; [cbn; by rewrite <- app_assoc|done].
Qed.

Lemma enter_admissible id st :
  admissible id st →
  enter renderMarkdown id st
  = (true, set_generatingArticles ({[ id ]} ∪ generatingArticles st) st).
Proof.
  intros [Hc Hg]. unfold enter. unfold jsstring in *.
  destruct Hc as [Hc|Hc]; rewrite Hc; by rewrite decide_False.
Qed.

Lemma release_admitted id st st' :
  id ∉ generatingArticles st →
  generatingArticles st' = {[ id ]} ∪ generatingArticles st →
  generatingArticles (release id st') = generatingArticles st.
Proof.
  intros Hid Hg. unfold release. simpl. rewrite Hg.
  apply set_eq. intros x.
  rewrite elem_of_difference, elem_of_union, elem_of_singleton.
  split; [by intros [[->|?] ?]|].
  intros Hx. split; [by right|]. by intros ->.
Qed.
End BriefOutcome.

Section BriefTheorems.
Import AIConfigManager AIBriefPanel.
Context (renderMarkdown : jsstring → bool → jsstring).
Context (text_of : jsstring → jsstring).
Context (texts_openai texts_gemini : jsstring → list jsstring).

Lemma generateBrief_admitted respond abstract content st :
  admissible (Abstract.id abstract) st →
  AIBriefPanel.generateBrief renderMarkdown text_of texts_openai texts_gemini
    respond abstract content st
  = release (Abstract.id abstract)
      (AIBriefPanel.attempt renderMarkdown text_of texts_openai texts_gemini
         respond abstract content
         (set_generatingArticles
            ({[ Abstract.id abstract ]} ∪ generatingArticles st) st)).
Proof.
  intros H. unfold AIBriefPanel.generateBrief.
  by rewrite (enter_admissible _ _ _ H).
Qed.

Lemma generateBrief_cached respond abstract content st md :
  briefCache st !! Abstract.id abstract = Some md →
  md ≠ [] →
  AIBriefPanel.generateBrief renderMarkdown text_of texts_openai texts_gemini
    respond abstract content st
  = postMessage (BriefCached (renderMarkdown md true)) st.
Proof.
  intros Hc Hmd. unfold AIBriefPanel.generateBrief, enter.
  unfold jsstring in *. rewrite Hc. by destruct md.
Qed.

Lemma generateBrief_running respond abstract content st :
  Abstract.id abstract ∈ generatingArticles st →
  briefCache st !! Abstract.id abstract = None
  ∨ briefCache st !! Abstract.id abstract = Some [] →
  AIBriefPanel.generateBrief renderMarkdown text_of texts_openai texts_gemini
    respond abstract content st
  = st.
Proof.
  intros Hg Hc. unfold AIBriefPanel.generateBrief, enter.
  unfold jsstring in *.
  destruct Hc as [Hc|Hc]; rewrite Hc; by rewrite decide_True.
Qed.

(** Whether a generation can start is decided by the cache and by the
    set of running generations. *)
Lemma admissible_cases id st :
  admissible id st
  ∨ (∃ md, briefCache st !! id = Some md ∧ md ≠ [])
  ∨ (id ∈ generatingArticles st
     ∧ (briefCache st !! id = None ∨ briefCache st !! id = Some [])).
Proof.
  destruct (briefCache st !! id) as [[|c md]|] eqn:Hc.
  - destruct (decide (id ∈ generatingArticles st)) as [Hg|Hg].
    + right. right. split; [done|by right].
    + left. split; [by right|done].
  - right. left. by exists (c :: md).
  - destruct (decide (id ∈ generatingArticles st)) as [Hg|Hg].
    + right. right. split; [done|by left].
    + left. split; [by left|done].
Qed.
End BriefTheorems.

(** What [generateBrief] leaves alone. *)
Lemma generateBrief_keeps
    (renderMarkdown : AIConfigManager.jsstring → bool
                      → AIConfigManager.jsstring)
    (text_of : AIConfigManager.jsstring → AIConfigManager.jsstring)
    (texts_openai texts_gemini :
       AIConfigManager.jsstring → list AIConfigManager.jsstring)
    (respond : AIBriefPanel.Request → AIBriefPanel.Response)
    (abstract : Abstract.t) (content : AIConfigManager.jsstring + string)
    (st : AIBriefPanel.t) :
  let st' := AIBriefPanel.generateBrief renderMarkdown text_of texts_openai
               texts_gemini respond abstract content st in
  AIBriefPanel.generatingArticles st' = AIBriefPanel.generatingArticles st
  ∧ ∀ other, other ≠ Abstract.id abstract →
      AIBriefPanel.briefCache st' !! other = AIBriefPanel.briefCache st !! other.
Proof.
  intros st'. unfold st'.
  destruct (admissible_cases (Abstract.id abstract) st)
    as [Ha|[(md & Hc & Hmd)|[Hg Hc]]].
  - rewrite (generateBrief_admitted _ _ _ _ _ _ _ _ Ha).
    destruct Ha as [_ Hg].
    match goal with |- context [AIBriefPanel.attempt ?a ?b ?c ?d ?e ?f ?g ?s] =>
      destruct (attempt_outcome a b c d e f g s) as [Hgen Hout] end.
    split.
    + by apply release_admitted.
    + intros other Hother. cbn [AIBriefPanel.release
        AIBriefPanel.set_generatingArticles AIBriefPanel.briefCache].
      destruct Hout as [(l & m & _ & _ & -> & _)
                       |(r & h & _ & _ & _ & _ & _ & _ & _ & _ & _ & _ & _
                         & _ & _ & ->)]; [done|].
      by rewrite lookup_insert_ne.
  - by rewrite (generateBrief_cached _ _ _ _ _ _ _ _ _ Hc Hmd).
  - by rewrite (generateBrief_running _ _ _ _ _ _ _ _ Hg Hc).
Qed.

(** X7. [generateBrief] always gives back what it took: when it is done
    the set of running generations is what it was before, on every path
    through the [try], and no cached brief of another article has
    changed. *)
Theorem generateBrief_releases
    (renderMarkdown : AIConfigManager.jsstring → bool
                      → AIConfigManager.jsstring)
    (text_of : AIConfigManager.jsstring → AIConfigManager.jsstring)
    (texts_openai texts_gemini :
       AIConfigManager.jsstring → list AIConfigManager.jsstring)
    (respond : AIBriefPanel.Request → AIBriefPanel.Response)
    (abstract : Abstract.t) (content : AIConfigManager.jsstring + string)
    (st : AIBriefPanel.t) :
  let st' := AIBriefPanel.generateBrief renderMarkdown text_of texts_openai
               texts_gemini respond abstract content st in
  AIBriefPanel.generatingArticles st' = AIBriefPanel.generatingArticles st
  ∧ ∀ other, other ≠ Abstract.id abstract →
      AIBriefPanel.briefCache st' !! other = AIBriefPanel.briefCache st !! other.
Proof. apply generateBrief_keeps. Qed.

(** X8. While a generation for an article is running, a second request
    for the same article is dropped without a word: nothing is posted,
    the service is not asked, the configuration is not read. *)
Theorem generateBrief_duplicate
    (renderMarkdown : AIConfigManager.jsstring → bool
                      → AIConfigManager.jsstring)
    (text_of : AIConfigManager.jsstring → AIConfigManager.jsstring)
    (texts_openai texts_gemini :
       AIConfigManager.jsstring → list AIConfigManager.jsstring)
    (respond : AIBriefPanel.Request → AIBriefPanel.Response)
    (abstract : Abstract.t) (content : AIConfigManager.jsstring + string)
    (st : AIBriefPanel.t) :
  admissible (Abstract.id abstract) st →
  let running := (AIBriefPanel.enter renderMarkdown (Abstract.id abstract) st).2 in
  (AIBriefPanel.enter renderMarkdown (Abstract.id abstract) st).1 = true
  ∧ Abstract.id abstract ∈ AIBriefPanel.generatingArticles running
  ∧ AIBriefPanel.generateBrief renderMarkdown text_of texts_openai
      texts_gemini respond abstract content running
    = running.
Proof.
  intros Ha running. unfold running.
  rewrite (enter_admissible _ _ _ Ha). cbn [fst snd].
  split; [done|].
  assert (Abstract.id abstract
          ∈ AIBriefPanel.generatingArticles
              (AIBriefPanel.set_generatingArticles
                 ({[ Abstract.id abstract ]}
                  ∪ AIBriefPanel.generatingArticles st) st)) as Hin.
  { simpl. apply elem_of_union. left. by apply elem_of_singleton. }
  split; [done|].
  apply generateBrief_running; [done|]. by destruct Ha.
Qed.

Lemma generateBrief_duplicate_witness :
  let running := (AIBriefPanel.enter Sample2.plain "A" Sample2.panel).2 in
  Sample2.generate Sample2.hi Sample.A (inl [72; 105]%N) running = running.
Proof.
  apply (generateBrief_duplicate Sample2.plain Sample2.as_is Sample2.payload
           Sample2.payload (λ _, Sample2.hi) Sample.A (inl [72; 105]%N)
           Sample2.panel).
  split; [by left|apply not_elem_of_empty].
Defined.

(** X9. A generation that starts ends in one of two ways.  Either the
    last message is an error, and the cache is as it was; or the service
    was asked once, the last message is the complete brief, and the brief
    in the cache is the yielded texts put together.  The one request
    carries the key, the endpoint and the model that the configuration
    held, none of them empty, the title of the article, and as its text
    the first 10000 code units of the text extracted from the content,
    extracted and cut once more for the prompt.  Before the last message
    come only chunk messages, one per yielded text.  The error is never
    the one for an incomplete configuration. *)
Theorem generateBrief_outcome
    (renderMarkdown : AIConfigManager.jsstring → bool
                      → AIConfigManager.jsstring)
    (text_of : AIConfigManager.jsstring → AIConfigManager.jsstring)
    (texts_openai texts_gemini :
       AIConfigManager.jsstring → list AIConfigManager.jsstring)
    (respond : AIBriefPanel.Request → AIBriefPanel.Response)
    (abstract : Abstract.t) (content : AIConfigManager.jsstring + string)
    (st : AIBriefPanel.t) :
  admissible (Abstract.id abstract) st →
  let st' := AIBriefPanel.generateBrief renderMarkdown text_of texts_openai
               texts_gemini respond abstract content st in
  (∃ l message,
     Forall is_chunk l
     ∧ AIBriefPanel.posts st'
       = AIBriefPanel.posts st ++ l ++ [AIBriefPanel.BriefError message]
     ∧ AIBriefPanel.briefCache st' = AIBriefPanel.briefCache st
     ∧ message ≠ "AI brief configuration is incomplete.")
  ∨ (∃ r html,
       let texts :=
         AIBriefPanel.yielded texts_openai texts_gemini
           (AIBriefPanel.r_endpoint r) (respond r) in
       content = inl html
       ∧ AIBriefPanel.requests st' = AIBriefPanel.requests st ++ [r]
       ∧ AIBriefPanel.failure (respond r) = None
       ∧ AIBriefPanel.r_title r = Abstract.title abstract
       ∧ (length (AIBriefPanel.r_content r) ≤ AIBriefPanel.content_limit)%nat
       ∧ AIBriefPanel.r_content r
         = take AIBriefPanel.content_limit
             (AIService.extractTextFromHTML text_of
                (take AIBriefPanel.content_limit
                   (AIService.extractTextFromHTML text_of html)))
       ∧ (AIConfigManager.getApiKey
            (AIConfig.keys (AIBriefPanel.configManager st))).1
         = Some (AIBriefPanel.r_apiKey r)
       ∧ AIConfig.getEndpoint (AIBriefPanel.configManager st)
         = Some (AIBriefPanel.r_endpoint r)
       ∧ AIConfig.getModel (AIBriefPanel.configManager st)
         = Some (AIBriefPanel.r_model r)
       ∧ AIBriefPanel.r_apiKey r ≠ []
       ∧ AIBriefPanel.r_endpoint r ≠ []
       ∧ AIBriefPanel.r_model r ≠ []
       ∧ AIBriefPanel.posts st'
         = AIBriefPanel.posts st
           ++ chunk_posts renderMarkdown [] texts
           ++ [AIBriefPanel.BriefComplete (renderMarkdown (mjoin texts) true)]
       ∧ length (chunk_posts renderMarkdown [] texts) = length texts
       ∧ (∀ k, (k < length texts)%nat →
            chunk_posts renderMarkdown [] texts !! k
            = Some (AIBriefPanel.BriefChunk
                      (renderMarkdown (mjoin (take (S k) texts)) false)))
       ∧ AIBriefPanel.briefCache st'
         = <[ Abstract.id abstract := mjoin texts ]>
             (AIBriefPanel.briefCache st)).
Proof.
  intros Ha st'. unfold st'.
  rewrite (generateBrief_admitted _ _ _ _ _ _ _ _ Ha).
  match goal with |- context [AIBriefPanel.attempt ?a ?b ?c ?d ?e ?f ?g ?s] =>
    destruct (attempt_outcome a b c d e f g s) as [_ Hout] end.
  destruct Hout as [(l & m & Hl & Hp & Hc & Hm)
                   |(r & h & Hcontent & Hr & Hf & Ht & Hlen & Htext & Hkey
                     & Hep & Hmd & Hk0 & He0 & Hm0 & Hp & Hc)].
  - left. exists l, m. repeat split; done.
  - right. exists r, h. cbn zeta.
    split; [done|]. split; [done|]. split; [done|]. split; [done|].
    split; [exact Hlen|]. split; [exact Htext|].
    split; [exact Hkey|]. split; [exact Hep|]. split; [exact Hmd|].
    split; [exact Hk0|]. split; [exact He0|]. split; [exact Hm0|].
    split; [done|].
    split.
    { clear. generalize (@nil N).
      induction (AIBriefPanel.yielded _ _ _ _) as [|c t IH]; intros acc;
        simpl; [done|]. by rewrite IH. }
    split; [|done].
    intros k Hk. rewrite chunk_posts_lookup.
    apply lookup_lt_is_Some in Hk as [x ->]. done.
Qed.

Lemma generateBrief_outcome_witness :
  let st' := Sample2.generate Sample2.hi Sample.A (inl [72; 105]%N)
               Sample2.panel in
  AIBriefPanel.posts st'
  = [AIBriefPanel.BriefChunk [72; 105]%N; AIBriefPanel.BriefComplete [72; 105]%N]
  ∧ AIBriefPanel.briefCache st' !! "A" = Some [72; 105]%N.
Proof.
  destruct (generateBrief_outcome Sample2.plain Sample2.as_is Sample2.payload
              Sample2.payload (λ _, Sample2.hi) Sample.A (inl [72; 105]%N)
              Sample2.panel) as [(l & m & _ & Hp & _)|_].
  - split; [by left|apply not_elem_of_empty].
  - exfalso. revert Hp. vm_compute. intros Hp.
    destruct l as [|? [|? [|? l]]]; discriminate Hp.
  - split; reflexivity.
Defined.

(** X10. After a generation, a brief that is not empty is served from the
    cache: the next request for the article posts it as cached and does
    nothing else, whatever the network would answer.  An empty brief is
    not: with it, or after an error, the article is open to a new
    generation. *)
Theorem generateBrief_then_cached
    (renderMarkdown : AIConfigManager.jsstring → bool
                      → AIConfigManager.jsstring)
    (text_of : AIConfigManager.jsstring → AIConfigManager.jsstring)
    (texts_openai texts_gemini :
       AIConfigManager.jsstring → list AIConfigManager.jsstring)
    (respond respond' : AIBriefPanel.Request → AIBriefPanel.Response)
    (abstract : Abstract.t)
    (content content' : AIConfigManager.jsstring + string)
    (st : AIBriefPanel.t) :
  admissible (Abstract.id abstract) st →
  let st' := AIBriefPanel.generateBrief renderMarkdown text_of texts_openai
               texts_gemini respond abstract content st in
  match AIBriefPanel.briefCache st' !! Abstract.id abstract with
  | Some (c :: md) =>
      AIBriefPanel.generateBrief renderMarkdown text_of texts_openai
        texts_gemini respond' abstract content' st'
      = AIBriefPanel.postMessage
          (AIBriefPanel.BriefCached (renderMarkdown (c :: md) true)) st'
  | _ => admissible (Abstract.id abstract) st'
  end.
Proof.
  intros Ha st'.
  destruct (generateBrief_keeps renderMarkdown text_of texts_openai
              texts_gemini respond abstract content st) as [Hg _].
  fold st' in Hg.
  destruct (AIBriefPanel.briefCache st' !! Abstract.id abstract)
    as [[|c md]|] eqn:Hc.
  - split; [by right|]. rewrite Hg. by destruct Ha.
  - by apply generateBrief_cached.
  - split; [by left|]. rewrite Hg. by destruct Ha.
Qed.

Lemma generateBrief_then_cached_witness :
  let st' := Sample2.generate Sample2.hi Sample.A (inl [72; 105]%N)
               Sample2.panel in
  Sample2.generate (AIBriefPanel.mkResponse [] (Some (Some 401, "denied")))
    Sample.A (inr "gone") st'
  = AIBriefPanel.postMessage (AIBriefPanel.BriefCached [72; 105]%N) st'.
Proof.
  apply (generateBrief_then_cached Sample2.plain Sample2.as_is Sample2.payload
           Sample2.payload (λ _, Sample2.hi)
           (λ _, AIBriefPanel.mkResponse [] (Some (Some 401, "denied")))
           Sample.A (inl [72; 105]%N) (inr "gone") Sample2.panel).
  split; [by left|apply not_elem_of_empty].
Defined.

(** ** The life of a refresh *)

Global Instance fetchless_preorder : PreOrder fetchless.
Proof.
  split.
  - intros st. repeat split. exists []. by rewrite app_nil_r.
  - intros st1 st2 st3 (Hi & Hu & l & Hl & Hf) (Hi' & Hu' & l' & Hl' & Hf').
    split; [congruence|]. split; [congruence|].
    exists (l ++ l'). split; [by rewrite Hl', Hl, app_assoc|].
    by apply Forall_app.
Qed.

Section Wedged.
Import App.
Context (fetchAll : string → bool → Collection.t → Collection.t).
Context (fetchOne : string → string → bool → Collection.t → Collection.t).

Lemma fetchless_quiet_step f :
  (∀ st, inflight (f st) = inflight st ∧ updating (f st) = updating st
         ∧ log (f st) = log st) →
  maintains fetchless (modify f).
Proof.
  intros Hf. apply maintains_modify. intros st.
  destruct (Hf st) as (Hi & Hu & Hl). repeat split; try done.
  exists []. by rewrite app_nil_r.
Qed.

Lemma fetchless_call c : is_fetch c = false → maintains fetchless (call c).
Proof.
  intros Hc. apply maintains_modify. intros st. repeat split.
  exists [c]. split; [done|]. by constructor.
Qed.

Lemma fetchless_method {A} key c (f : Collection.t → A * Collection.t) :
  is_fetch c = false → maintains fetchless (method key c f).
Proof.
  intros Hc. apply maintains_method; [tc_solve|]. intros st col _.
  repeat split. exists [c]. split; [done|]. by constructor.
Qed.

Ltac fetchless_leaves :=
  try (apply fetchless_call; reflexivity);
  try (apply fetchless_method; reflexivity);
  try (apply fetchless_quiet_step; intros; by repeat split).

Lemma handler_fetchless ev :
  is_refresh_event ev = false →
  maintains fetchless (handler fetchAll fetchOne ev).
Proof.
  destruct ev; try discriminate; intros _; simpl.
  - unfold rss_select. maintains_steps; fetchless_leaves.
  - unfold rss_articles. maintains_steps; fetchless_leaves.
  - unfold rss_read, update_and_commit. maintains_steps; fetchless_leaves.
  - unfold panel_message, rss_read, update_and_commit.
    maintains_steps; fetchless_leaves.
  - unfold rss_mark_read, update_and_commit.
    maintains_steps; fetchless_leaves.
  - unfold rss_mark_unread, update_and_commit.
    maintains_steps; fetchless_leaves.
  - unfold rss_mark_all_read, mark_each, currArticles.
    maintains_steps; fetchless_leaves.
  - unfold rss_mark_account_read, mark_each.
    maintains_steps; fetchless_leaves.
  - unfold rss_remove_feed. maintains_steps; fetchless_leaves.
  - unfold rss_add_to_favorites. maintains_steps; fetchless_leaves.
  - unfold rss_remove_from_favorites. maintains_steps; fetchless_leaves.
  - unfold rss_del_account, removeAccount.
    maintains_steps; fetchless_leaves.
  - unfold rss_clean_old_articles. maintains_steps; fetchless_leaves.
  - unfold rss_clean_all_old_articles. maintains_steps; fetchless_leaves.
Qed.

Lemma settled_idle st :
  inflight st = [] → settled fetchAll fetchOne st = (Returned tt, st).
Proof. intros H. unfold settled, bind, gets. by rewrite H. Qed.

Lemma rejected_idle st : inflight st = [] → rejected st = (Returned tt, st).
Proof. intros H. unfold rejected, bind, gets. by rewrite H. Qed.

Lemma wedged_step st ev :
  wedged st → fetchless st (step fetchAll fetchOne st ev).
Proof.
  intros [Hu Hi]. unfold step.
  destruct (is_refresh_event ev) eqn:Hev;
    [|by apply handler_fetchless].
  destruct ev; try discriminate; simpl; unfold exec.
  - by rewrite rss_refresh_busy.
  - by rewrite rss_refresh_account_busy.
  - by rewrite rss_refresh_one_busy.
  - by rewrite settled_idle.
  - by rewrite rejected_idle.
Qed.

Lemma fetchless_wedged st st' : wedged st → fetchless st st' → wedged st'.
Proof. intros [Hu Hi] (Hi' & Hu' & _). split; congruence. Qed.

Lemma wedged_run evs st :
  wedged st → fetchless st (run fetchAll fetchOne evs st).
Proof.
  revert st. induction evs as [|ev evs IH]; intros st Hst; simpl.
  - reflexivity.
  - pose proof (wedged_step st ev Hst) as Hstep.
    etrans; [exact Hstep|]. apply IH. by eapply fetchless_wedged.
Qed.
End Wedged.

(** X11. Nothing resets [updating] but the end of the callback of a
    refresh.  So when the awaited fetch rejects, or when the callback
    throws because the account or the current account has no registered
    Collection, the guard stays set with nothing in flight; and from such
    a state on, whatever commands follow, it stays so and no [fetchAll]
    or [fetchOne] is ever called again. *)
Theorem refresh_wedged (st : App.t) :
  guarded st →
  (App.inflight st ≠ [] → wedged (App.exec App.rejected st))
  ∧ (App.updating st = false →
     ∀ account,
       App.collection (account_key account st) st = None →
       wedged (App.exec (App.rss_refresh_account account) st))
  ∧ (App.updating st = false →
     ∀ feed,
       is_Some (match feed with
                | Some f => Some f
                | None => App.current_feed st
                end) →
       App.collection (App.curr_key st) st = None →
       wedged (App.exec (App.rss_refresh_one feed) st))
  ∧ (wedged st →
     ∀ fetchAll fetchOne evs,
       wedged (App.run fetchAll fetchOne evs st)
       ∧ Forall (λ c, is_fetch c = false)
           (new_calls st (App.run fetchAll fetchOne evs st))).
Proof.
  intros [Hlen Hupd].
  assert (App.updating st = false → App.inflight st = []) as Hidle.
  { intros Hf. destruct (App.inflight st); [done|].
    rewrite Hupd in Hf; done. }
  split; [|split; [|split]].
  - intros Hin. split.
    + unfold App.exec, App.rejected, App.bind, App.gets.
      destruct (App.inflight st); [done|]. simpl. auto.
    + rewrite rejected_inflight.
      destruct (App.inflight st) as [|? [|]]; simpl in *; [done..|lia].
  - intros Hf account Hc. unfold App.exec.
    rewrite rss_refresh_account_idle by done. cbn zeta.
    fold (account_key account st). rewrite Hc.
    split; [done|]. simpl. auto.
  - intros Hf feed [url Hurl] Hc. unfold App.exec.
    rewrite rss_refresh_one_idle by done. rewrite Hurl. cbn zeta.
    rewrite Hc. split; [done|]. simpl. auto.
  - intros Hw fetchAll fetchOne evs.
    pose proof (wedged_run fetchAll fetchOne evs st Hw) as Hrun.
    split; [by eapply fetchless_wedged|].
    destruct Hrun as (_ & _ & l & Hl & Hfl).
    unfold new_calls. by rewrite Hl, drop_app_length.
Qed.

Lemma refresh_wedged_witness :
  wedged
    (App.exec App.rejected
       (App.exec (App.rss_refresh false) (Sample.app Sample.twoUnread))).
Proof.
  apply (refresh_wedged
           (App.exec (App.rss_refresh false) (Sample.app Sample.twoUnread))).
  - split; [vm_compute; lia|intros _; reflexivity].
  - vm_compute. discriminate.
Defined.

Section Settled.
Import App.
Context (fetchAll : string → bool → Collection.t → Collection.t).
Context (fetchOne : string → string → bool → Collection.t → Collection.t).

Lemma for_each_merge (g : string → Collection.t → Collection.t) keys st :
  for_each keys (λ k, merge k (g k)) st
  = (Returned tt, foldl (λ s k, merge_state k (g k) s) st keys).
Proof.
  revert st. induction keys as [|k keys IH]; intros st; [done|].
  simpl. unfold bind, merge at 1, modify. by rewrite IH.
Qed.

Lemma settled_computes task rest st :
  inflight st = task :: rest →
  settled fetchAll fetchOne st
  = (Returned tt,
     set_updating false
       (logged (refresh_calls ALL_LISTS)
          (merged fetchAll fetchOne task (set_inflight rest st)))).
Proof.
  intros Hin. unfold settled, bind at 1, gets at 1. rewrite Hin.
  unfold bind at 1, modify at 1. unfold bind at 1.
  assert (match task with
          | TaskAll keys => for_each keys (λ k, merge k (fetchAll k true))
          | TaskAccount key => merge key (fetchAll key true)
          | TaskOne key url => merge key (fetchOne key url true)
          end (set_inflight rest st)
          = (Returned tt,
             merged fetchAll fetchOne task (set_inflight rest st))) as ->.
  { destruct task; [apply (for_each_merge (λ k, fetchAll k true))|done..]. }
  unfold bind. by rewrite refreshLists_logged.
Qed.

(** What a merge leaves alone. *)
Lemma merge_state_frame key f st :
  inflight (merge_state key f st) = inflight st
  ∧ updating (merge_state key f st) = updating st
  ∧ log (merge_state key f st) = log st
  ∧ cfg_accounts (merge_state key f st) = cfg_accounts st
  ∧ ∀ other, other ≠ key →
      collection other (merge_state key f st) = collection other st.
Proof.
  unfold merge_state. destruct (collection key st); [|done].
  repeat split. intros other Hne. by apply collection_put_ne.
Qed.

Lemma merged_frame task st :
  inflight (merged fetchAll fetchOne task st) = inflight st
  ∧ updating (merged fetchAll fetchOne task st) = updating st
  ∧ log (merged fetchAll fetchOne task st) = log st
  ∧ cfg_accounts (merged fetchAll fetchOne task st) = cfg_accounts st
  ∧ ∀ other, other ∉ task_keys task →
      collection other (merged fetchAll fetchOne task st)
      = collection other st.
Proof.
  destruct task as [keys|key|key url]; simpl.
  - revert st. induction keys as [|k keys IH]; intros st; [done|].
    simpl. destruct (IH (merge_state k (fetchAll k true) st))
      as (Hi & Hu & Hl & Hc & Ho).
    destruct (merge_state_frame k (fetchAll k true) st)
      as (Hi' & Hu' & Hl' & Hc' & Ho').
    split; [congruence|]. split; [congruence|]. split; [congruence|].
    split; [congruence|].
    intros other Hother. apply not_elem_of_cons in Hother as [Hne Hother].
    rewrite Ho by done. by apply Ho'.
  - destruct (merge_state_frame key (fetchAll key true) st)
      as (Hi & Hu & Hl & Hc & Ho).
    repeat split; try done. intros other Hother. apply Ho.
    intros ->. apply Hother. apply list_elem_of_here.
  - destruct (merge_state_frame key (fetchOne key url true) st)
      as (Hi & Hu & Hl & Hc & Ho).
    repeat split; try done. intros other Hother. apply Ho.
    intros ->. apply Hother. apply list_elem_of_here.
Qed.
End Settled.

(** X12. When the fetch of the refresh in flight settles, the lists are
    refreshed and the guard is cleared with nothing left in flight; the
    accounts setting and the Collections the refresh was not for are as
    before; and the next refresh request is carried out: it sets the
    guard, opens the progress notification first and then calls
    [fetchAll] once on each registered Collection and on nothing else,
    in whatever order. *)
Theorem settled_resets
    (fetchAll : string → bool → Collection.t → Collection.t)
    (fetchOne : string → string → bool → Collection.t → Collection.t)
    (st : App.t) (task : App.Task) :
  App.inflight st = [task] →
  let st' := App.exec (App.settled fetchAll fetchOne) st in
  (App.settled fetchAll fetchOne st).1 = App.Returned tt
  ∧ App.updating st' = false
  ∧ App.inflight st' = []
  ∧ new_calls st st' = refresh_calls App.ALL_LISTS
  ∧ App.cfg_accounts st' = App.cfg_accounts st
  ∧ (∀ other, other ∉ task_keys task →
       App.collection other st' = App.collection other st)
  ∧ (∀ auto,
       let st'' := App.exec (App.rss_refresh auto) st' in
       (App.rss_refresh auto st').1 = App.Returned tt
       ∧ App.updating st'' = true
       ∧ head (new_calls st' st'') = Some App.CallWithProgress
       ∧ NoDup (new_calls st' st'')
       ∧ (∀ call, call ∈ new_calls st' st'' ↔
            call = App.CallWithProgress
            ∨ ∃ k, call = App.CallFetchAll k true
                   ∧ is_Some (App.collections st' !! k))
       ∧ ∃ keys, App.inflight st'' = [App.TaskAll keys]
                 ∧ ∀ k, k ∈ keys ↔ is_Some (App.collections st' !! k)).
Proof.
  intros Hin st'. unfold st', App.exec.
  rewrite (settled_computes _ _ _ _ _ Hin). cbn [fst snd].
  destruct (merged_frame fetchAll fetchOne task (App.set_inflight [] st))
    as (Hi & Hu & Hl & Hc & Ho).
  split; [done|]. split; [done|]. split; [exact Hi|].
  split; [unfold new_calls, logged; simpl; by rewrite Hl, drop_app_length|].
  split; [exact Hc|]. split; [exact Ho|].
  intros auto.
  match goal with |- context [App.rss_refresh auto ?s] => set (s1 := s) end.
  assert (App.updating s1 = false) as Hidle by done.
  assert (App.inflight s1 = []) as Hnone by exact Hi.
  rewrite (rss_refresh_idle auto s1 Hidle). cbn [fst snd].
  set (keys := (map_to_list (App.collections s1)).*1).
  assert (∀ k, k ∈ keys ↔ is_Some (App.collections s1 !! k)) as Hkeys.
  { intros k. unfold keys. rewrite list_elem_of_fmap. split.
    - intros ([k' v] & -> & Hkv). apply elem_of_map_to_list in Hkv.
      by eexists.
    - intros [v Hv]. exists (k, v). split; [done|].
      by apply elem_of_map_to_list. }
  assert (new_calls s1
            (started (App.TaskAll keys)
               ((λ k, App.CallFetchAll k true) <$> keys) s1)
          = App.CallWithProgress :: ((λ k, App.CallFetchAll k true) <$> keys))
    as ->.
  { unfold new_calls, started. simpl. by rewrite drop_app_length. }
  split; [done|]. split; [done|]. split; [done|].
  split.
  { apply NoDup_cons. split.
    - intros (k & [=] & _)%list_elem_of_fmap.
    - apply NoDup_fmap; [by intros ?? [=]|].
      apply NoDup_fst_map_to_list. }
  split.
  { intros call. rewrite elem_of_cons, list_elem_of_fmap.
    split; (intros [->|(k & -> & Hk)]; [by left|right]);
      exists k; (split; [done|]); by apply Hkeys. }
  exists keys. split; [|exact Hkeys].
  change (App.inflight s1 ++ [App.TaskAll keys] = [App.TaskAll keys]).
  by rewrite Hnone.
Qed.

Lemma settled_resets_witness :
  let st := App.exec (App.rss_refresh_account (Some "acc-1"))
              (Sample.app2 Sample.twoUnread Sample.archive) in
  let st' := App.exec (App.settled (λ _ _ c, c) (λ _ _ _ c, c)) st in
  App.updating st = true
  ∧ App.updating st' = false
  ∧ App.collection "acc-2" st' = App.collection "acc-2" st.
Proof.
  destruct (settled_resets (λ _ _ c, c) (λ _ _ _ c, c)
              (App.exec (App.rss_refresh_account (Some "acc-1"))
                 (Sample.app2 Sample.twoUnread Sample.archive))
              (App.TaskAccount "acc-1"))
    as (_ & Hu & _ & _ & _ & Ho & _).
  - reflexivity.
  - split; [reflexivity|]. split; [exact Hu|].
    apply Ho. simpl. intros H. apply list_elem_of_singleton in H.
    discriminate H.
Defined.

(** ** The retention prompt *)

Section Expire.
Import App.

Lemma selectExpire_Some time d :
  selectExpire time = Some d →
  ∃ name, time = Some name ∧ name ∈ expire_names ∧ d ∈ expire_values.
Proof.
  unfold selectExpire. destruct time as [name|]; [|done].
  case_decide; [done|].
  unfold expire_names, indexOf.
  repeat case_decide; subst; simpl; intros [= <-];
    eexists; (split; [done|]); (split; [|vm_compute]); set_solver.
Qed.

Lemma selectExpire_None time :
  selectExpire time = None ↔ ∀ name, name ∈ expire_names → time ≠ Some name.
Proof.
  split.
  - intros Hnone name Hname ->.
    unfold expire_names in Hname. revert Hnone.
    repeat (apply elem_of_cons in Hname as [->|Hname]; [by vm_compute|]).
    by apply elem_of_nil in Hname.
  - intros Hno. unfold selectExpire. destruct time as [name|]; [|done].
    case_decide; [done|].
    unfold expire_names, indexOf.
    repeat case_decide; subst; try done;
      exfalso; (eapply Hno; [|done]); unfold expire_names; set_solver.
Qed.

Lemma expire_values_month d : d ∈ expire_values → 2592000000 ≤ d.
Proof.
  unfold expire_values. intros H.
  repeat (apply elem_of_cons in H as [->|H]; [lia|]).
  by apply elem_of_nil in H.
Qed.

Lemma clean_dismissed now time st :
  selectExpire time = None →
  (∀ feed, rss_clean_old_articles now feed time st = (Returned tt, st))
  ∧ (∀ account,
       rss_clean_all_old_articles now account time st = (Returned tt, st)).
Proof.
  intros H. unfold rss_clean_old_articles, rss_clean_all_old_articles.
  by rewrite H.
Qed.
End Expire.

(** X13. The retention prompt gives a period only for one of its four
    entries, and the period is then 30, 60, 90 or 180 days in
    milliseconds.  On any other answer the two cleaning commands return
    without a call and without a change.  So whatever is answered, an
    article dated within the last 30 days stays in every live Collection:
    its Abstract, the persisted copy and the content are unchanged, and
    every feed that listed it still lists it. *)
Theorem clean_commands_period (now : Z) (time : option string) (st : App.t) :
  (App.selectExpire time = None
   ↔ ∀ name, name ∈ App.expire_names → time ≠ Some name)
  ∧ (∀ d, App.selectExpire time = Some d → d ∈ expire_values)
  ∧ (App.selectExpire time = None →
     (∀ feed,
        App.rss_clean_old_articles now feed time st = (App.Returned tt, st))
     ∧ (∀ account,
          App.rss_clean_all_old_articles now account time st
          = (App.Returned tt, st)))
  ∧ (∀ st' key c id a,
       (∃ feed, st' = App.exec (App.rss_clean_old_articles now feed time) st)
       ∨ (∃ account,
            st' = App.exec (App.rss_clean_all_old_articles now account time)
                    st) →
       App.collection key st = Some c →
       Collection.abstracts c !! id = Some a →
       now - Abstract.date a ≤ 2592000000 →
       ∃ c', App.collection key st' = Some c'
             ∧ Collection.abstracts c' !! id = Some a
             ∧ Collection.contents c' !! id = Collection.contents c !! id
             ∧ Collection.st_abstracts (Collection.store c') !! id
               = Collection.st_abstracts (Collection.store c) !! id
             ∧ still_listed c c' id a).
Proof.
  split; [apply selectExpire_None|].
  split; [intros d Hd; by destruct (selectExpire_Some _ _ Hd) as (? & _ & _ & ?)|].
  split; [apply clean_dismissed|].
  intros st' key c id a Hst' Hc Ha Hyoung.
  destruct (App.selectExpire time) as [d|] eqn:Hd.
  - assert (swept now d st st') as Hsw.
    { replace d with (default 0 (App.selectExpire time)) by by rewrite Hd.
      destruct Hst' as [[feed ->]|[account ->]];
        [apply rss_clean_old_articles_swept
        |apply rss_clean_all_old_articles_swept]. }
    destruct (Hsw key c Hc) as (c' & Hc' & Hs).
    exists c'. split; [done|].
    apply (sweep_safe now d); [done|done|].
    right; right.
    destruct (selectExpire_Some _ _ Hd) as (? & _ & _ & Hin).
    apply expire_values_month in Hin. lia.
  - destruct (clean_dismissed now time st Hd) as [Hone Hall].
    unfold App.exec in Hst'.
    assert (st' = st) as ->.
    { destruct Hst' as [[feed ->]|[account ->]];
        [by rewrite Hone|by rewrite Hall]. }
    exists c. split; [done|]. split; [done|]. split; [done|]. split; [done|].
    apply (kept_listed now 0); [apply (sweep_refl now 0)|done].
Qed.

Lemma clean_commands_period_witness :
  ∃ c', App.collection "acc-1"
          (App.exec (App.rss_clean_all_old_articles Sample.today "acc-1"
                       (Some "1 month")) (Sample.app Sample.archive))
        = Some c'
        ∧ Collection.abstracts c' !! "new-read"
          = Collection.abstracts Sample.archive !! "new-read"
        ∧ Collection.contents c' !! "new-read"
          = Collection.contents Sample.archive !! "new-read"
        ∧ Sample.article "new-read" (Sample.today - 1000) true false
          ∈ Collection.getArticles Sample.F c'.
Proof.
  destruct (clean_commands_period Sample.today (Some "1 month")
              (Sample.app Sample.archive)) as (_ & _ & _ & H).
  destruct (H (App.exec (App.rss_clean_all_old_articles Sample.today "acc-1"
                           (Some "1 month")) (Sample.app Sample.archive))
              "acc-1" Sample.archive "new-read"
              (Sample.article "new-read" (Sample.today - 1000) true false))
    as (c' & Hc' & Ha & Hb & _ & Hl).
  - right. by exists "acc-1".
  - reflexivity.
  - reflexivity.
  - vm_compute. discriminate.
  - exists c'. split; [exact Hc'|]. split; [exact Ha|]. split; [exact Hb|].
    destruct (Hl Sample.F (Sample.summaryF
                             ["old-unread"; "old-starred"; "old-read";
                              "new-read"])) as (_ & Hin & _).
    + reflexivity.
    + set_solver.
    + apply Hin. discriminate.
Defined.

(** ** Choosing a feed *)

Section Articles.
Import App.

Lemma rss_articles_computes feed st c :
  collection (curr_key st) st = Some c →
  rss_articles feed st
  = (Returned tt,
     match article_tree_view st with
     | None => logged [CallListRefresh ARTICLE]
                 (set_current_feed (Some feed) st)
     | Some _ =>
         if decide (feed = "<unread>")
         then logged [CallListRefresh ARTICLE]
                (set_article_tree_view (Some (view_title feed c))
                   (set_current_feed (Some feed) st))
         else logged [CallListRefresh ARTICLE]
                (set_article_tree_view (Some (view_title feed c))
                   (after (curr_key st) c
                      [CallGetSummary (curr_key st) feed]
                      (set_current_feed (Some feed) st)))
     end).
Proof.
  intros Hc. unfold rss_articles, bind at 1, modify at 1.
  unfold bind at 1, bind at 1, gets at 1. cbn [article_tree_view
    set_current_feed].
  destruct (article_tree_view st) as [v|] eqn:Hv.
  - unfold view_title. case_decide as Hfeed.
    + unfold modify. by rewrite refreshLists_logged.
    + unfold bind at 1, gets at 1, bind at 1.
      rewrite (method_start _ _ _ (set_current_feed (Some feed) st) c)
        by done.
      unfold query. cbn [fst snd].
      change (curr_key (set_current_feed (Some feed) st)) with (curr_key st).
      destruct (Collection.getSummary feed c) as [s|];
        unfold modify; by rewrite refreshLists_logged.
  - unfold ret. by rewrite refreshLists_logged.
Qed.

Lemma rss_articles_throws feed st v :
  collection (curr_key st) st = None →
  article_tree_view st = Some v →
  feed ≠ "<unread>" →
  rss_articles feed st = (Thrown, set_current_feed (Some feed) st).
Proof.
  intros Hc Hv Hfeed. unfold rss_articles, bind at 1, modify at 1.
  unfold bind at 1, bind at 1, gets at 1. cbn [article_tree_view
    set_current_feed]. rewrite Hv. rewrite decide_False by done.
  unfold bind at 1, gets at 1, bind at 1, method.
  change (collection (curr_key (set_current_feed (Some feed) st))
            (set_current_feed (Some feed) st))
    with (collection (curr_key st) st).
  by rewrite Hc.
Qed.

Lemma rss_articles_plain feed st :
  article_tree_view st = None ∨ feed = "<unread>" →
  rss_articles feed st
  = (Returned tt,
     logged [CallListRefresh ARTICLE]
       (set_article_tree_view
          ((λ _, "Articles (Unread)") <$> article_tree_view st)
          (set_current_feed (Some feed) st))).
Proof.
  intros H. unfold rss_articles, bind at 1, modify at 1.
  unfold bind at 1, bind at 1, gets at 1. cbn [article_tree_view
    set_current_feed].
  destruct (article_tree_view st) as [v|] eqn:Hv.
  - destruct H as [?| ->]; [done|]. rewrite decide_True by done.
    unfold modify. by rewrite refreshLists_logged.
  - unfold ret. rewrite refreshLists_logged. do 2 f_equal.
    destruct st; simpl in *; by subst.
Qed.

Lemma currArticles_computes feed st c :
  current_feed st = Some feed →
  collection (curr_key st) st = Some c →
  currArticles st
  = (Returned (Collection.getArticles feed c),
     after (curr_key st) c [CallGetArticles (curr_key st) feed] st).
Proof.
  intros Hf Hc. unfold currArticles, bind at 1, gets at 1. rewrite Hf.
  unfold bind, gets. by rewrite (method_start _ _ _ _ _ Hc).
Qed.
End Articles.

(** X14. Choosing a feed makes it the current feed.  With a Collection
    for the current account the command returns, the article view, if
    there is one, gets the title of the feed ([Articles (Unread)] for the
    unread feed, [Articles] for a feed without a Summary), the Summary is
    asked for only when there is a view and the feed is a real one, and
    the article list alone is refreshed; the article list then shows the
    articles of that feed, and nothing once an account is selected.
    Without a Collection the command throws for a real feed when the view
    exists: the current feed is changed already, the title and the lists
    are not. *)
Theorem rss_articles_view (st : App.t) (feed : string) :
  let st' := App.exec (App.rss_articles feed) st in
  App.current_feed st' = Some feed
  ∧ (∀ c, App.collection (App.curr_key st) st = Some c →
       (App.rss_articles feed st).1 = App.Returned tt
       ∧ App.article_tree_view st'
         = (λ _, view_title feed c) <$> App.article_tree_view st
       ∧ new_calls st st'
         = (if bool_decide (is_Some (App.article_tree_view st)
                            ∧ feed ≠ "<unread>")
            then [App.CallGetSummary (App.curr_key st) feed] else [])
           ++ [App.CallListRefresh App.ARTICLE]
       ∧ (App.currArticles st').1
         = App.Returned (Collection.getArticles feed c)
       ∧ ∀ account,
           (App.currArticles (App.exec (App.rss_select account) st')).1
           = App.Returned [])
  ∧ (App.collection (App.curr_key st) st = None →
     is_Some (App.article_tree_view st) →
     feed ≠ "<unread>" →
     (App.rss_articles feed st).1 = App.Thrown
     ∧ App.article_tree_view st' = App.article_tree_view st
     ∧ new_calls st st' = []).
Proof.
  intros st'. unfold st', App.exec.
  destruct (App.collection (App.curr_key st) st) as [c|] eqn:Hc.
  - rewrite (rss_articles_computes feed st c Hc).
    assert (∀ account s,
      (App.currArticles (App.exec (App.rss_select account) s)).1
      = App.Returned []) as Hsel.
    { intros account s. unfold App.exec. by rewrite rss_select_computes. }
    destruct (App.article_tree_view st) as [v|] eqn:Hv.
    + case_decide as Hfeed.
      * split; [done|]. split; [|done].
        intros ? [= <-]. split; [done|]. split; [done|].
        split.
        { rewrite bool_decide_false by by intros [_ ?].
          unfold new_calls, logged. simpl. by rewrite drop_app_length. }
        split; [|intros account; apply Hsel].
        rewrite (currArticles_computes feed _ c); [done|done|exact Hc].
      * split; [done|]. split; [|done].
        intros ? [= <-]. split; [done|]. split; [done|].
        split.
        { rewrite bool_decide_true by (split; [by eexists|done]).
          unfold new_calls, logged, after. simpl.
          by rewrite <- app_assoc, drop_app_length. }
        split; [|intros account; apply Hsel].
        rewrite (currArticles_computes feed _ c); [done|done|].
        change (App.collection (App.curr_key st)
                  (after (App.curr_key st) c
                     [App.CallGetSummary (App.curr_key st) feed]
                     (App.set_current_feed (Some feed) st)) = Some c).
        apply collection_after.
    + split; [done|]. split; [|done].
      intros ? [= <-]. split; [done|]. split; [done|].
      split.
      { rewrite bool_decide_false by by intros [[? [=]] _].
        unfold new_calls, logged. simpl. by rewrite drop_app_length. }
      split; [|intros account; apply Hsel].
      rewrite (currArticles_computes feed _ c); [done|done|exact Hc].
  - split; [|split; [done|]].
    + destruct (App.article_tree_view st) as [v|] eqn:Hv.
      * destruct (decide (feed = "<unread>")) as [Hfeed|Hfeed].
        -- by rewrite rss_articles_plain by by right.
        -- by erewrite rss_articles_throws.
      * by rewrite rss_articles_plain by by left.
    + intros _ [v Hv] Hfeed. erewrite rss_articles_throws by done.
      split; [done|]. split; [done|].
      unfold new_calls. simpl. apply drop_all.
Qed.

Lemma rss_articles_view_witness :
  (App.currArticles
     (App.exec (App.rss_articles Sample.F) (Sample.app Sample.twoUnread))).1
  = App.Returned (Collection.getArticles Sample.F Sample.twoUnread).
Proof.
  destruct (rss_articles_view (Sample.app Sample.twoUnread) Sample.F)
    as (_ & H & _).
  destruct (H Sample.twoUnread) as (_ & _ & _ & Hcur & _);
    [reflexivity|exact Hcur].
Defined.

(** ** Marking an account read *)

Section MarkAccount.
Import Collection.

Lemma set_read_apply_state a x :
  Abstract.favorite x = Abstract.favorite a →
  apply_state (Abstract.set_read true a) x = Abstract.set_read true x.
Proof. destruct a, x. simpl. by intros ->. Qed.

Lemma mark_all_summaries l c : summaries (mark_all l c) = summaries c.
Proof.
  unfold mark_all. revert c. induction l as [|a l IH]; intros c; [done|].
  simpl. by rewrite IH.
Qed.

Lemma mark_all_favorites l c : favorites (mark_all l c) = favorites c.
Proof.
  unfold mark_all. revert c. induction l as [|a l IH]; intros c; [done|].
  simpl. by rewrite IH.
Qed.

(** [mark_all] on Abstracts that are filed, up to the read flag, under
    their ids: those ids get the read flag, nothing else changes. *)
Lemma mark_all_lookup l c i :
  (∀ a, a ∈ l → ∃ x, abstracts c !! Abstract.id a = Some x
                     ∧ Abstract.favorite x = Abstract.favorite a) →
  abstracts (mark_all l c) !! i
  = (if decide (i ∈ Abstract.id <$> l) then Abstract.set_read true else id)
      <$> abstracts c !! i.
Proof.
  unfold mark_all. revert c.
  induction l as [|a l IH]; intros c Hl.
  - cbn [foldl]. rewrite decide_False by apply not_elem_of_nil.
    by destruct (abstracts c !! i).
  - cbn [foldl].
    destruct (Hl a) as (x & Hx & Hfav); [apply list_elem_of_here|].
    rewrite IH.
    + destruct (decide (Abstract.id a = i)) as [<-|Hne].
      * rewrite updateAbstract_lookup, Hx. simpl.
        rewrite set_read_apply_state by done.
        rewrite (decide_True (P := _ ∈ _ :: _)) by apply list_elem_of_here.
        case_decide; [|done]. by destruct x.
      * rewrite updateAbstract_lookup_ne by done.
        destruct (abstracts c !! i) as [y|]; [|done]. simpl. f_equal.
        repeat case_decide; try done.
        -- exfalso. match goal with H : ¬ _ |- _ => apply H end.
           by apply list_elem_of_further.
        -- exfalso.
           match goal with H : i ∈ _ :: _ |- _ =>
             apply elem_of_cons in H as [?|?] end; [congruence|done].
    + intros b Hb.
      destruct (Hl b) as (y & Hy & Hfy); [by apply list_elem_of_further|].
      destruct (decide (Abstract.id a = Abstract.id b)) as [Heq|Hne].
      * rewrite <- Heq, updateAbstract_lookup, Hx. simpl.
        rewrite set_read_apply_state by done.
        eexists. split; [done|].
        rewrite <- Heq, Hx in Hy. injection Hy as <-. by destruct x.
      * rewrite updateAbstract_lookup_ne by done. eauto.
Qed.

Context (c : t) (Hkeyed : keyed c).

Lemma mark_unread_filed a :
  a ∈ getArticles "<unread>" c →
  ∃ x, abstracts c !! Abstract.id a = Some x
       ∧ Abstract.favorite x = Abstract.favorite a.
Proof.
  intros (i & Hi)%getArticles_filed.
  rewrite (Hkeyed i a Hi). eauto.
Qed.

Lemma mark_unread_lookup i :
  abstracts (marked_read c) !! i
  = (if decide (i ∈ Abstract.id <$> getArticles "<unread>" c)
     then Abstract.set_read true else id) <$> abstracts c !! i.
Proof.
  unfold marked_read. rewrite commit_abstracts.
  apply mark_all_lookup. apply mark_unread_filed.
Qed.

(** An id of a catalog holds a read Abstract afterwards. *)
Lemma mark_unread_catalog url s i :
  summaries c !! url = Some s →
  i ∈ Summary.catalog s →
  abstracts (marked_read c) !! i = Abstract.set_read true <$> abstracts c !! i.
Proof.
  intros Hs Hi. rewrite mark_unread_lookup.
  destruct (abstracts c !! i) as [x|] eqn:Hx; [|done]. simpl. f_equal.
  case_decide as Hin; [done|].
  destruct (Abstract.read x) eqn:Hread; [by destruct x; simpl in *; subst|].
  exfalso. apply Hin. apply list_elem_of_fmap. exists x.
  split; [symmetry; apply (Hkeyed i x Hx)|].
  apply getArticles_unread_elem. split; [done|]. eauto 10.
Qed.

Lemma mark_unread_none : getArticles "<unread>" (marked_read c) = [].
Proof.
  destruct (getArticles "<unread>" (marked_read c)) as [|a l] eqn:Hl; [done|].
  assert (a ∈ getArticles "<unread>" (marked_read c)) as Ha
    by (rewrite Hl; apply list_elem_of_here).
  apply getArticles_unread_elem in Ha as (Hread & url & s & i & Hs & Hi & Ha).
  unfold marked_read in Hs. unfold summaries in Hs. simpl in Hs.
  fold (summaries (mark_all (getArticles "<unread>" c) c)) in Hs.
  rewrite mark_all_summaries in Hs.
  rewrite (mark_unread_catalog url s i Hs Hi) in Ha.
  destruct (abstracts c !! i) as [x|]; [|done].
  injection Ha as <-. done.
Qed.

Lemma mark_unread_feed feed :
  feed ≠ "<unread>" →
  getArticles feed (marked_read c) = Abstract.set_read true <$> getArticles feed c.
Proof.
  intros Hfeed. unfold getArticles. rewrite !decide_False by done.
  assert (summaries (marked_read c) = summaries c) as ->.
  { unfold marked_read, summaries. simpl. apply mark_all_summaries. }
  destruct (summaries c !! feed) as [s|] eqn:Hs; [|done].
  unfold catalog_abstracts.
  assert (∀ i, i ∈ Summary.catalog s →
            abstracts (marked_read c) !! i = Abstract.set_read true <$> abstracts c !! i)
    as Hcat by (intros i; by apply (mark_unread_catalog feed s)).
  induction (Summary.catalog s) as [|i l IH]; [done|].
  csimpl. rewrite Hcat by apply list_elem_of_here.
  rewrite IH by (intros j Hj; apply Hcat; by apply list_elem_of_further).
  by destruct (abstracts c !! i).
Qed.

Lemma mark_unread_stored a :
  a ∈ getArticles "<unread>" c →
  st_abstracts (store (marked_read c)) !! Abstract.id a = Some (Abstract.set_read true a).
Proof.
  intros Ha. unfold marked_read at 1. rewrite commit_store, decide_True.
  - rewrite <- commit_abstracts. fold (marked_read c).
    rewrite mark_unread_lookup, decide_True
      by (apply list_elem_of_fmap; eauto).
    destruct (getArticles_filed _ _ _ Ha) as (i & Hi).
    by rewrite (Hkeyed i a Hi), Hi.
  - apply mark_all_dirty. left. apply list_elem_of_fmap. eauto.
Qed.
End MarkAccount.

Section MarkAccountHandler.
Import App.

Lemma mark_each_ret_after arts key c l st :
  mark_each (ret key) arts (after key c l st)
  = (Returned tt,
     after key (mark_all arts c)
       (l ++ ((λ a, CallUpdateAbstract key (Abstract.id a)) <$> arts)) st).
Proof.
  revert c l. unfold mark_each.
  induction arts as [|a arts IH]; intros c l; simpl.
  - unfold ret. by rewrite app_nil_r.
  - unfold bind at 1. unfold bind at 1, ret at 1.
    rewrite method_after. simpl. rewrite IH. by rewrite <- app_assoc.
Qed.

Lemma rss_mark_account_read_computes account st c :
  let key := account_key account st in
  collection key st = Some c →
  rss_mark_account_read account st
  = (Returned tt,
     after key (marked_read c)
       (CallGetArticles key "<unread>"
        :: ((λ a, CallUpdateAbstract key (Abstract.id a))
              <$> Collection.getArticles "<unread>" c)
        ++ refresh_calls ALL_LISTS ++ [CallCommit key])
       st).
Proof.
  intros key Hc. unfold rss_mark_account_read, bind at 1.
  assert (match account with
          | Some k => ret k
          | None => gets curr_key
          end st = (Returned key, st)) as -> by by destruct account.
  unfold bind at 1. rewrite (method_start _ _ _ _ _ Hc).
  unfold query. cbn [fst snd].
  unfold bind at 1. rewrite mark_each_ret_after.
  unfold bind. rewrite refreshLists_after, method_after. simpl.
  by rewrite <- !app_assoc.
Qed.

Lemma rss_mark_account_read_throws account st :
  collection (account_key account st) st = None →
  rss_mark_account_read account st = (Thrown, st).
Proof.
  intros Hc. unfold rss_mark_account_read, bind at 1.
  assert (match account with
          | Some k => ret k
          | None => gets curr_key
          end st = (Returned (account_key account st), st)) as ->
    by by destruct account.
  unfold bind, method. by rewrite Hc.
Qed.
End MarkAccountHandler.

(** X15. Marking an account read, for the given account or else the
    current one: with a Collection whose Abstracts are filed under their
    ids, every unread article is registered through [updateAbstract] and
    [commit] is called once, after the list refresh; afterwards the unread
    feed of the account is empty, every feed lists the articles it listed,
    each with the read flag, the marked articles are persisted as read,
    nothing is pending, and the favorites and the other accounts are as
    they were.  Without a Collection for the account the command throws
    and changes nothing. *)
Theorem rss_mark_account_read_clears (st : App.t) (account : option string) :
  let key := account_key account st in
  (App.collection key st = None →
   App.rss_mark_account_read account st = (App.Thrown, st))
  ∧ (∀ c, App.collection key st = Some c → keyed c →
       ∃ c',
         App.rss_mark_account_read account st
         = (App.Returned tt,
            after key c'
              (App.CallGetArticles key "<unread>"
               :: ((λ a, App.CallUpdateAbstract key (Abstract.id a))
                     <$> Collection.getArticles "<unread>" c)
               ++ refresh_calls App.ALL_LISTS ++ [App.CallCommit key]) st)
         ∧ Collection.getArticles "<unread>" c' = []
         ∧ (∀ feed, feed ≠ "<unread>" →
              Collection.getArticles feed c'
              = Abstract.set_read true <$> Collection.getArticles feed c)
         ∧ (∀ a, a ∈ Collection.getArticles "<unread>" c →
              Collection.st_abstracts (Collection.store c') !! Abstract.id a
              = Some (Abstract.set_read true a))
         ∧ Collection.dirty c' = ∅
         ∧ Collection.favorites c' = Collection.favorites c
         ∧ ∀ other, other ≠ key →
             App.collection other
               (App.exec (App.rss_mark_account_read account) st)
             = App.collection other st).
Proof.
  intros key. split; [apply rss_mark_account_read_throws|].
  intros c Hc Hkeyed. exists (marked_read c).
  pose proof (rss_mark_account_read_computes account st c Hc) as Hrun.
  split; [exact Hrun|].
  split; [by apply mark_unread_none|].
  split; [intros feed; by apply mark_unread_feed|].
  split; [intros a; by apply mark_unread_stored|].
  split; [done|].
  split; [apply mark_all_favorites|].
  intros other Hother. unfold App.exec. rewrite Hrun. cbn [snd].
  unfold after. rewrite collection_put_ne by done.
  apply collection_set_log.
Qed.

Lemma rss_mark_account_read_clears_witness :
  ∃ c',
    App.collection "acc-1"
      (App.exec (App.rss_mark_account_read None)
         (Sample.app Sample.twoUnread)) = Some c'
    ∧ Collection.getArticles "<unread>" c' = [].
Proof.
  destruct (rss_mark_account_read_clears (Sample.app Sample.twoUnread) None)
    as [_ H].
  destruct (H Sample.twoUnread) as (c' & Hrun & Hnone & _).
  - reflexivity.
  - unfold keyed. apply (bool_decide_unpack _). by vm_compute.
  - exists c'. split; [|exact Hnone].
    unfold App.exec. rewrite Hrun. apply collection_put.
Defined.

(** ** Marking read and unread *)

Section ReadUnread.
Import App.

Lemma rss_mark_unread_after a l st c :
  rss_mark_unread a (after (curr_key st) c l st)
  = (Returned tt,
     after (curr_key st)
       (Collection.commit
          (Collection.updateAbstract (Abstract.id a)
             (Abstract.set_read false a) c))
       (l ++ refresh_calls ALL_LISTS
        ++ [CallUpdateAbstract (curr_key st) (Abstract.id a);
            CallCommit (curr_key st)])
       st).
Proof.
  unfold rss_mark_unread, bind. rewrite refreshLists_after.
  rewrite update_and_commit_after. by rewrite <- app_assoc.
Qed.

End ReadUnread.

(** X16. Marking an article of the current account read and then unread
    brings it back: the Abstract in memory and the persisted copy are the
    article again, unread, nothing is pending, every other Abstract is as
    it was, and each command refreshed all the lists before it registered
    and committed its change. *)
Theorem mark_read_then_unread (st : App.t) (c : Collection.t)
    (a : Abstract.t) :
  App.collection (App.curr_key st) st = Some c →
  Collection.abstracts c !! Abstract.id a = Some a →
  let key := App.curr_key st in
  let st' := App.exec (App.rss_mark_unread a)
               (App.exec (App.rss_mark_read a) st) in
  ∃ c', App.collection key st' = Some c'
        ∧ Collection.abstracts c'
          = <[ Abstract.id a := Abstract.set_read false a ]>
              (Collection.abstracts c)
        ∧ Collection.st_abstracts (Collection.store c') !! Abstract.id a
          = Some (Abstract.set_read false a)
        ∧ Collection.dirty c' = ∅
        ∧ (Abstract.read a = false →
           Collection.abstracts c' = Collection.abstracts c)
        ∧ new_calls st st'
          = (refresh_calls App.ALL_LISTS
             ++ [App.CallUpdateAbstract key (Abstract.id a);
                 App.CallCommit key])
            ++ refresh_calls App.ALL_LISTS
            ++ [App.CallUpdateAbstract key (Abstract.id a);
                App.CallCommit key].
Proof.
  intros Hc Ha key st'. unfold st', App.exec.
  rewrite (rss_mark_read_computes a st c Hc). cbn [snd].
  rewrite rss_mark_unread_after. cbn [snd].
  eexists. split; [apply collection_after|].
  assert (Collection.abstracts
            (Collection.commit
               (Collection.updateAbstract (Abstract.id a)
                  (Abstract.set_read false a)
                  (Collection.commit
                     (Collection.updateAbstract (Abstract.id a)
                        (Abstract.set_read true a) c))))
          = <[ Abstract.id a := Abstract.set_read false a ]>
              (Collection.abstracts c)) as Habs.
  { rewrite commit_abstracts. apply map_eq. intros i.
    destruct (decide (Abstract.id a = i)) as [<-|Hne].
    - rewrite updateAbstract_lookup, commit_abstracts,
        updateAbstract_lookup, Ha, lookup_insert_eq.
      simpl. by destruct a.
    - rewrite updateAbstract_lookup_ne, commit_abstracts,
        updateAbstract_lookup_ne, lookup_insert_ne by done. done. }
  split; [exact Habs|].
  split.
  { rewrite commit_store, decide_True by (apply updateAbstract_dirty; by left).
    rewrite <- commit_abstracts, Habs. apply lookup_insert_eq. }
  split; [done|].
  split.
  { intros Hread. rewrite Habs. apply insert_id.
    rewrite Ha. f_equal. destruct a. simpl in *. by subst. }
  apply new_calls_after.
Qed.

Lemma mark_read_then_unread_witness :
  ∃ c', App.collection "acc-1"
          (App.exec (App.rss_mark_unread Sample.A)
             (App.exec (App.rss_mark_read Sample.A)
                (Sample.app Sample.twoUnread))) = Some c'
        ∧ Collection.abstracts c' = Collection.abstracts Sample.twoUnread.
Proof.
  destruct (mark_read_then_unread (Sample.app Sample.twoUnread)
              Sample.twoUnread Sample.A)
    as (c' & Hc' & _ & _ & _ & Hsame & _).
  - reflexivity.
  - reflexivity.
  - exists c'. split; [exact Hc'|]. apply Hsame. reflexivity.
Defined.

(** ** Opening the accounts *)

Section InitAccountsFacts.
Import App Accounts.
Context (keys_of : ∀ V, gmap string V → list string).
Context (init : string → AccountCfg → Collection.Store
                → option Collection.Mem).
Context (Hkeys : lists_keys keys_of).
Context (Hinit : ∀ key a dir, is_Some (init key a dir)).

Lemma set_collections_same st : set_collections (collections st) st = st.
Proof. by destruct st. Qed.

Lemma for_each_open keys st m :
  (∀ k, k ∈ keys → is_Some (cfg_accounts st !! k) ∧ inherited k = false) →
  for_each keys (open_account init) (set_collections m st)
  = (Returned tt, set_collections (foldl (opened init st) m keys) st).
Proof.
  revert m. induction keys as [|k keys IH]; intros m Hcfg; [done|].
  cbn [for_each foldl]. unfold bind at 1.
  assert (open_account init k (set_collections m st)
          = (Returned tt, set_collections (opened init st m k) st)) as ->.
  { unfold open_account, opened, bind at 1, gets at 1. cbn [collections
      set_collections].
    destruct (m !! k) as [c|]; [done|].
    destruct (Hcfg k) as [Hcfgk ->]; [apply list_elem_of_here|].
    pose proof (λ k' (Hk' : k' ∈ k :: keys), proj1 (Hcfg k' Hk')) as Hcfg'.
    clear Hcfg. rename Hcfg' into Hcfg.
    unfold bind at 1, gets at 1. cbn [cfg_accounts set_collections].
    destruct (Hcfg k) as [a Ha]; [apply list_elem_of_here|].
    rewrite Ha. unfold bind at 1, gets at 1.
    change (persisted k (set_collections m st)) with (persisted k st).
    cbn [mbind option_bind].
    destruct (Hinit k a (persisted k st)) as [c Hc]. by rewrite Hc. }
  apply IH. intros k' Hk'. apply Hcfg. by apply list_elem_of_further.
Qed.

Lemma for_each_close keys st m :
  (∀ k, k ∈ keys → inherited k = false) →
  for_each keys close_orphan (set_collections m st)
  = (Returned tt,
     set_collections (foldl (pruned (cfg_accounts st)) m keys) st).
Proof.
  revert m. induction keys as [|k keys IH]; intros m Hord; [done|].
  cbn [for_each foldl]. unfold bind at 1.
  assert (close_orphan k (set_collections m st)
          = (Returned tt,
             set_collections (pruned (cfg_accounts st) m k) st)) as ->.
  { unfold close_orphan, pruned, bind, gets. cbn [cfg_accounts
      set_collections].
    rewrite (Hord k) by apply list_elem_of_here. rewrite orb_false_r.
    by destruct (bool_decide (is_Some (cfg_accounts st !! k))). }
  apply IH. intros k' Hk'. apply Hord. by apply list_elem_of_further.
Qed.

(** What the first loop leaves: the live collections, and one more for
    each key of the list. *)
Lemma opened_lookup keys st m k :
  (∀ k, k ∈ keys → is_Some (cfg_accounts st !! k)) →
  (is_Some (m !! k) → foldl (opened init st) m keys !! k = m !! k)
  ∧ (is_Some (foldl (opened init st) m keys !! k)
     ↔ is_Some (m !! k) ∨ k ∈ keys).
Proof.
  revert m. induction keys as [|j keys IH]; intros m Hcfg.
  - cbn [foldl]. split; [done|]. rewrite elem_of_nil. tauto.
  - cbn [foldl].
    destruct (IH (opened init st m j)) as [IH1 IH2].
    { intros k' Hk'. apply Hcfg. by apply list_elem_of_further. }
    assert (is_Some (m !! k) → opened init st m j !! k = m !! k) as Hkeep.
    { intros Hm. unfold opened. destruct (m !! j) eqn:Hj; [done|].
      destruct (_ ≫= _); [|done].
      rewrite lookup_insert_ne; [done|]. intros ->.
      rewrite Hj in Hm. by destruct Hm. }
    assert (is_Some (opened init st m j !! k) ↔ is_Some (m !! k) ∨ k = j)
      as Hstep.
    { unfold opened. destruct (m !! j) as [c|] eqn:Hj.
      - split; [by left|]. intros [?| ->]; [done|]. by rewrite Hj.
      - destruct (Hcfg j) as [a Ha]; [apply list_elem_of_here|].
        rewrite Ha. cbn [mbind option_bind].
        destruct (Hinit j a (persisted j st)) as [c Hc]. rewrite Hc.
        destruct (decide (k = j)) as [->|Hne].
        + rewrite lookup_insert_eq. split; [by right|by eexists].
        + rewrite lookup_insert_ne by done. intuition congruence. }
    split.
    + intros Hm. rewrite IH1; [by apply Hkeep|]. rewrite Hkeep; done.
    + rewrite IH2, Hstep, elem_of_cons. tauto.
Qed.

(** What the second loop leaves, when it goes through every live
    key. *)
Lemma pruned_lookup cfg keys m k :
  foldl (pruned cfg) m keys !! k
  = if decide (k ∈ keys ∧ cfg !! k = None) then None else m !! k.
Proof.
  revert m. induction keys as [|j keys IH]; intros m.
  - cbn [foldl]. rewrite decide_False; [done|].
    intros [?%elem_of_nil _]. done.
  - cbn [foldl]. rewrite IH. unfold pruned.
    destruct (cfg !! j) as [a|] eqn:Hj.
    + rewrite bool_decide_true by by eexists.
      repeat case_decide; try done.
      * exfalso. match goal with H : ¬ _ |- _ => apply H end.
        split; [apply list_elem_of_further|]; tauto.
      * exfalso.
        match goal with H : _ ∈ _ :: _ ∧ _ |- _ => destruct H as [H1 H2] end.
        apply elem_of_cons in H1 as [->|H1]; [congruence|tauto].
    + rewrite bool_decide_false by (intros [? [=]]).
      destruct (decide (k = j)) as [->|Hne].
      * rewrite lookup_delete_eq.
        rewrite (decide_True (P := j ∈ j :: keys ∧ _))
          by (split; [apply list_elem_of_here|done]).
        by case_decide.
      * rewrite lookup_delete_ne by done.
        repeat case_decide; try done.
        -- exfalso. match goal with H : ¬ _ |- _ => apply H end.
           split; [apply list_elem_of_further|]; tauto.
        -- exfalso.
           match goal with H : _ ∈ _ :: _ ∧ _ |- _ => destruct H as [H1 H2]
           end.
           apply elem_of_cons in H1 as [->|H1]; [done|tauto].
Qed.
Lemma initAccounts_tail st :
  ordinary st →
  (for_each (keys_of _ (cfg_accounts st)) (open_account init) ;;
   (let* live := gets (λ st, keys_of _ (collections st)) in
    for_each live close_orphan) ;;
   let* current := gets current_account in
   let* registered :=
     gets (λ st, match current with
                 | Some k => bool_decide (is_Some (collections st !! k))
                             || inherited k
                 | None => false
                 end) in
   if registered then ret tt
   else
     modify (λ st,
       set_current_account (head (keys_of _ (collections st))) st)) st
  = (Returned tt, synced keys_of init st).
Proof.
  intros (Hocfg & Holive & Hocur).
  assert (∀ k, k ∈ keys_of _ (cfg_accounts st)
               → is_Some (cfg_accounts st !! k) ∧ inherited k = false)
    as Hcfg.
  { intros k Hk. apply Hkeys in Hk. split; [done|by apply Hocfg]. }
  unfold bind at 1.
  pose proof (for_each_open (keys_of _ (cfg_accounts st)) st (collections st)
                Hcfg) as Hopen.
  rewrite set_collections_same in Hopen. rewrite Hopen.
  unfold bind at 1, bind at 1, gets at 1. cbn [collections set_collections].
  rewrite for_each_close.
  2:{ intros k Hk. apply Hkeys in Hk.
      apply (opened_lookup (keys_of _ (cfg_accounts st)) st (collections st)
               k) in Hk as [Hk|Hk];
        [by apply Holive|by apply Hcfg|intros k' Hk'; by apply Hcfg]. }
  unfold bind, gets, synced. cbn [collections set_collections
    current_account].
  destruct (current_account st) as [k|] eqn:Hcur; [|done].
  rewrite (Hocur k) by done. rewrite orb_false_r.
  by destruct (bool_decide _).
Qed.

Lemma initAccounts_computes uuid st :
  ordinary st →
  inherited uuid = false →
  initAccounts keys_of init uuid st
  = (Returned tt,
     synced keys_of init
       (if decide (cfg_accounts st = ∅)
        then exec (createLocalAccount uuid "Default") st
        else st)).
Proof.
  intros Hord Huuid.
  unfold initAccounts, bind at 1, gets at 1.
  destruct (keys_of _ (cfg_accounts st)) as [|k0 keys] eqn:Hk.
  - rewrite decide_True.
    + unfold bind at 1, bind at 1. unfold createLocalAccount at 1, create,
        bind at 1, modify at 1, call at 1, modify at 1, gets at 1.
      cbn [fst snd]. apply initAccounts_tail.
      destruct Hord as (Hocfg & Holive & Hocur).
      split; [|split; [exact Holive|exact Hocur]].
      intros k [a Ha].
      destruct (decide (uuid = k)) as [<-|Hne]; [done|].
      apply Hocfg. exists a. simpl in Ha.
      by rewrite lookup_insert_ne in Ha.
    + apply map_empty. intros k.
      destruct (cfg_accounts st !! k) eqn:Hl; [|done].
      assert (k ∈ keys_of _ (cfg_accounts st)) as Hel
        by (apply Hkeys; by eexists).
      rewrite Hk in Hel. by apply elem_of_nil in Hel.
  - rewrite decide_False.
    + unfold bind at 1, ret at 1. rewrite <- Hk. by apply initAccounts_tail.
    + intros Hempty.
      assert (is_Some (cfg_accounts st !! k0)) as [a Ha]
        by (apply Hkeys; rewrite Hk; apply list_elem_of_here).
      by rewrite Hempty in Ha.
Qed.

Lemma opened_all_live keys st m :
  (∀ k, k ∈ keys → is_Some (m !! k)) → foldl (opened init st) m keys = m.
Proof.
  induction keys as [|k keys IH]; intros Hl; [done|].
  cbn [foldl]. unfold opened at 2.
  destruct (Hl k) as [c ->]; [apply list_elem_of_here|].
  apply IH. intros k' Hk'. apply Hl. by apply list_elem_of_further.
Qed.

Lemma pruned_all_configured cfg keys m :
  (∀ k, k ∈ keys → is_Some (cfg !! k)) → foldl (pruned cfg) m keys = m.
Proof.
  induction keys as [|k keys IH]; intros Hl; [done|].
  cbn [foldl]. unfold pruned at 2.
  rewrite bool_decide_true by (apply Hl, list_elem_of_here).
  apply IH. intros k' Hk'. apply Hl. by apply list_elem_of_further.
Qed.

(** A configured account that was not live is opened with what [init]
    loads from its directory. *)
Lemma opened_new keys st m k a :
  (∀ k, k ∈ keys → is_Some (cfg_accounts st !! k)) →
  m !! k = None → k ∈ keys → cfg_accounts st !! k = Some a →
  foldl (opened init st) m keys !! k = init k a (persisted k st).
Proof.
  revert m. induction keys as [|j keys IH]; intros m Hcfg Hm Hk Ha.
  - by apply elem_of_nil in Hk.
  - cbn [foldl].
    assert (∀ k', k' ∈ keys → is_Some (cfg_accounts st !! k')) as Hcfg'
      by (intros k' Hk'; apply Hcfg; by apply list_elem_of_further).
    destruct (decide (j = k)) as [->|Hne].
    + destruct (Hinit k a (persisted k st)) as [c Hc].
      assert (opened init st m k = <[ k := c ]> m) as ->.
      { unfold opened. rewrite Hm, Ha. cbn [mbind option_bind].
        by rewrite Hc. }
      destruct (opened_lookup keys st (<[ k := c ]> m) k Hcfg') as [-> _].
      * by rewrite lookup_insert_eq, Hc.
      * rewrite lookup_insert_eq. by eexists.
    + apply IH; try done.
      * unfold opened. destruct (m !! j); [done|].
        destruct (_ ≫= _); [|done]. by rewrite lookup_insert_ne.
      * apply elem_of_cons in Hk as [->|Hk]; done.
Qed.

(** The live collections that [synced] leaves. *)
Lemma synced_lookup st k :
  collections (synced keys_of init st) !! k
  = match cfg_accounts st !! k with
    | Some a =>
        match collections st !! k with
        | Some c => Some c
        | None => init k a (persisted k st)
        end
    | None => None
    end.
Proof.
  assert (∀ k, k ∈ keys_of _ (cfg_accounts st)
               → is_Some (cfg_accounts st !! k)) as Hcfg
    by (intros k'; apply Hkeys).
  assert (collections (synced keys_of init st)
          = foldl (pruned (cfg_accounts st))
              (foldl (opened init st) (collections st)
                 (keys_of _ (cfg_accounts st)))
              (keys_of _ (foldl (opened init st) (collections st)
                            (keys_of _ (cfg_accounts st))))) as ->.
  { unfold synced. cbv zeta.
    by destruct (match current_account st with
                 | Some k => _
                 | None => false
                 end). }
  rewrite pruned_lookup.
  destruct (opened_lookup (keys_of _ (cfg_accounts st)) st (collections st) k
              Hcfg) as [Hkeep Hsome].
  destruct (cfg_accounts st !! k) as [a|] eqn:Ha.
  - rewrite decide_False by (by intros [_ ?]).
    destruct (collections st !! k) as [c|] eqn:Hc.
    + apply Hkeep. by eexists.
    + apply opened_new; try done. apply Hkeys. by eexists.
  - case_decide as Hd; [done|].
    destruct (foldl _ _ _ !! k) eqn:Hl; [|done].
    exfalso. apply Hd. split; [|done]. apply Hkeys. by eexists.
Qed.

Lemma synced_frame st :
  cfg_accounts (synced keys_of init st) = cfg_accounts st
  ∧ storage (synced keys_of init st) = storage st
  ∧ log (synced keys_of init st) = log st
  ∧ inflight (synced keys_of init st) = inflight st
  ∧ updating (synced keys_of init st) = updating st.
Proof.
  unfold synced. cbv zeta.
  by destruct (match current_account st with
               | Some k => _
               | None => false
               end).
Qed.

Lemma synced_live st k :
  is_Some (collections (synced keys_of init st) !! k)
  ↔ is_Some (cfg_accounts st !! k).
Proof.
  rewrite synced_lookup. destruct (cfg_accounts st !! k) as [a|].
  - split; [by eexists|intros _].
    destruct (collections st !! k); [by eexists|apply Hinit].
  - done.
Qed.

Lemma synced_current st :
  cfg_accounts st ≠ ∅ →
  (∃ k, current_account (synced keys_of init st) = Some k
        ∧ is_Some (collections (synced keys_of init st) !! k))
  ∧ (∀ k, current_account st = Some k →
          is_Some (cfg_accounts st !! k) →
          current_account (synced keys_of init st) = Some k).
Proof.
  intros Hne. pose proof (synced_live st) as Hlive.
  unfold synced in *. cbv zeta in *.
  set (m2 := foldl (pruned _) _ _) in *.
  assert (∀ j, is_Some (m2 !! j) ↔ is_Some (cfg_accounts st !! j)) as Hm2.
  { intros j. rewrite <- Hlive.
    by destruct (match current_account st with
                 | Some k => _
                 | None => false
                 end). }
  clear Hlive.
  assert (∃ k', head (keys_of _ m2) = Some k' ∧ is_Some (m2 !! k'))
    as (k' & Hhead & Hk').
  { destruct (keys_of _ m2) as [|k' l] eqn:Hl.
    - exfalso. apply Hne. apply map_empty. intros j.
      destruct (cfg_accounts st !! j) as [a|] eqn:Ha; [|done].
      assert (is_Some (m2 !! j)) as Hj by (apply Hm2; by eexists).
      apply Hkeys in Hj. rewrite Hl in Hj. by apply elem_of_nil in Hj.
    - exists k'. split; [done|]. apply Hkeys. rewrite Hl.
      apply list_elem_of_here. }
  destruct (current_account st) as [k|] eqn:Hcur.
  - destruct (bool_decide (is_Some (m2 !! k))) eqn:Hreg.
    + apply bool_decide_eq_true in Hreg. split; [by exists k|].
      by intros ? [= <-] _.
    + apply bool_decide_eq_false in Hreg. split.
      * exists k'. simpl. by rewrite Hhead.
      * intros ? [= <-] Hcfg. exfalso. apply Hreg. by apply Hm2.
  - split; [|done]. exists k'. simpl. by rewrite Hhead.
Qed.

Lemma synced_in_sync st : in_sync st → synced keys_of init st = st.
Proof.
  intros [Hdom (k & Hcur & Hk)]. unfold synced. cbv zeta.
  assert (∀ j, is_Some (collections st !! j) ↔ is_Some (cfg_accounts st !! j))
    as Hsame.
  { intros j. rewrite <- !elem_of_dom. by rewrite Hdom. }
  rewrite opened_all_live by (intros j Hj; apply Hsame; by apply Hkeys).
  rewrite pruned_all_configured
    by (intros j Hj; apply Hsame; by apply Hkeys).
  rewrite Hcur, bool_decide_true by done.
  apply set_collections_same.
Qed.
End InitAccountsFacts.

(** What [initAccounts] leaves, for the theorems below. *)
Lemma initAccounts_all
    (keys_of : ∀ V, gmap string V → list string)
    (init : string → App.AccountCfg → Collection.Store
            → option Collection.Mem)
    (uuid : string) (st : App.t) :
  lists_keys keys_of →
  (∀ key a dir, is_Some (init key a dir)) →
  ordinary st →
  App.inherited uuid = false →
  let st' := App.exec (Accounts.initAccounts keys_of init uuid) st in
  (Accounts.initAccounts keys_of init uuid st).1 = App.Returned tt
  ∧ in_sync st'
  ∧ App.cfg_accounts st'
    = (if decide (App.cfg_accounts st = ∅)
       then {[ uuid := App.LocalAccount "Default" ]}
       else App.cfg_accounts st)
  ∧ new_calls st st'
    = (if decide (App.cfg_accounts st = ∅)
       then [App.CallCfgUpdateAccounts] else [])
  ∧ (∀ k a, App.cfg_accounts st' !! k = Some a →
       App.collections st' !! k
       = match App.collections st !! k with
         | Some c => Some c
         | None => init k a (App.persisted k st)
         end)
  ∧ (∀ k, App.current_account st = Some k →
          is_Some (App.cfg_accounts st' !! k) →
          App.current_account st' = Some k)
  ∧ (in_sync st → st' = st).
Proof.
  intros Hkeys Hinit Hord Huuid st'. unfold st', App.exec.
  rewrite (initAccounts_computes keys_of init Hkeys Hinit) by done.
  cbn [fst snd].
  set (st0 := if decide (App.cfg_accounts st = ∅)
              then App.exec (Accounts.createLocalAccount uuid "Default") st
              else st).
  destruct (synced_frame keys_of init st0) as (Hcfg & Hsto & Hlog & _).
  assert (App.cfg_accounts st0
          = (if decide (App.cfg_accounts st = ∅)
             then {[ uuid := App.LocalAccount "Default" ]}
             else App.cfg_accounts st)) as Hcfg0.
  { unfold st0. case_decide as He; [|done].
    unfold App.exec, Accounts.createLocalAccount, Accounts.create,
      App.bind, App.modify, App.call. simpl. rewrite He.
    apply insert_empty. }
  assert (App.cfg_accounts st0 ≠ ∅) as Hne.
  { rewrite Hcfg0. case_decide; [|done].
    intros Hx. apply (f_equal (λ m, m !! uuid)) in Hx.
    by rewrite lookup_singleton_eq in Hx. }
  assert (App.collections st0 = App.collections st
          ∧ App.current_account st0 = App.current_account st
          ∧ App.storage st0 = App.storage st) as (Hcol0 & Hcur0 & Hsto0).
  { unfold st0. by case_decide. }
  destruct (synced_current keys_of init Hkeys Hinit st0 Hne)
    as [Hcurrent Hstays].
  split; [done|].
  split.
  { split; [|exact Hcurrent].
    apply set_eq. intros k. rewrite !elem_of_dom, Hcfg.
    apply (synced_live keys_of init Hkeys Hinit). }
  split; [by rewrite Hcfg|].
  split.
  { unfold new_calls. rewrite Hlog. unfold st0. case_decide.
    - unfold App.exec, Accounts.createLocalAccount, Accounts.create,
        App.bind, App.modify, App.call. simpl. by rewrite drop_app_length.
    - apply drop_all. }
  split.
  { intros k a Ha. rewrite Hcfg in Ha.
    rewrite (synced_lookup keys_of init Hkeys Hinit), Ha, Hcol0.
    unfold App.persisted. by rewrite Hsto0. }
  split.
  { intros k Hk Hc. apply Hstays; [by rewrite Hcur0|by rewrite <- Hcfg]. }
  intros Hsync.
  assert (st0 = st) as ->.
  { unfold st0. rewrite decide_False; [done|].
    destruct Hsync as [Hdom (k & _ & [c Hk])]. intros He.
    assert (k ∈ dom (App.collections st)) as Hin
      by (apply elem_of_dom; by eexists).
    rewrite Hdom, He in Hin. by apply elem_of_empty in Hin. }
  by apply synced_in_sync.
Qed.

(** An account configured under an id that names an inherited member is
    never opened: [this.collections[key]] is truthy for it from the
    start.  With no other account, nothing is live afterwards and no
    account is current. *)
Example initAccounts_inherited :
  let st := App.initial ∅ ∅ {[ "constructor" := App.LocalAccount "C" ]} None
  in
  let st' := App.exec (Accounts.initAccounts Sample2.keys_of Sample2.init
                         "id-1") st in
  App.collections st' = ∅
  ∧ App.current_account st' = None
  ∧ App.cfg_accounts st' = App.cfg_accounts st.
Proof. by vm_compute. Qed.

(** X17. Opening the accounts, when the constructor and [init()] of a
    Collection do not throw and no account id in use, nor the new id,
    names a member inherited from [Object.prototype]: an empty accounts
    setting first gets a local account named Default under the new id, a
    setting with accounts is not written; every account of the setting
    then has a live Collection and no other key has one; a Collection
    that was live is kept as it is, one that was not is what [init()]
    loaded from the directory of the account; the current account is one
    of the live ones and stays the same if it was configured; and on a
    controller that is already in this state nothing changes. *)
Theorem initAccounts_sync
    (keys_of : ∀ V, gmap string V → list string)
    (init : string → App.AccountCfg → Collection.Store
            → option Collection.Mem)
    (uuid : string) (st : App.t) :
  lists_keys keys_of →
  (∀ key a dir, is_Some (init key a dir)) →
  ordinary st →
  App.inherited uuid = false →
  let st' := App.exec (Accounts.initAccounts keys_of init uuid) st in
  (Accounts.initAccounts keys_of init uuid st).1 = App.Returned tt
  ∧ in_sync st'
  ∧ App.cfg_accounts st'
    = (if decide (App.cfg_accounts st = ∅)
       then {[ uuid := App.LocalAccount "Default" ]}
       else App.cfg_accounts st)
  ∧ new_calls st st'
    = (if decide (App.cfg_accounts st = ∅)
       then [App.CallCfgUpdateAccounts] else [])
  ∧ (∀ k a, App.cfg_accounts st' !! k = Some a →
       App.collections st' !! k
       = match App.collections st !! k with
         | Some c => Some c
         | None => init k a (App.persisted k st)
         end)
  ∧ (∀ k, App.current_account st = Some k →
          is_Some (App.cfg_accounts st' !! k) →
          App.current_account st' = Some k)
  ∧ (in_sync st → st' = st).
Proof. apply initAccounts_all. Qed.

Lemma initAccounts_sync_witness :
  in_sync (App.exec (Accounts.initAccounts Sample2.keys_of Sample2.init "id-1")
             (App.initial ∅ ∅ ∅ None)).
Proof.
  apply (initAccounts_sync Sample2.keys_of Sample2.init "id-1"
           (App.initial ∅ ∅ ∅ None)).
  - intros V m k. unfold Sample2.keys_of.
    rewrite list_elem_of_fmap. split.
    + intros ([k' v] & -> & Hin). apply elem_of_map_to_list in Hin.
      by eexists.
    + intros [v Hv]. exists (k, v). split; [done|].
      by apply elem_of_map_to_list.
  - intros key a dir. by eexists.
  - split; [|split]; intros k; [intros [? Hk]|intros [? Hk]|intros Hk];
      simpl in Hk; try rewrite lookup_empty in Hk; discriminate Hk.
  - reflexivity.
Defined.

(** ** The text handed to the AI service *)

Section Normalize.
Import AIConfigManager AIService.
Local Arguments is_white_space : simpl never.

Lemma trimStart_snoc s c :
  trimStart (s ++ [c])
  = match trimStart s with
    | [] => if is_white_space c then [] else [c]
    | l => l ++ [c]
    end.
Proof.
  induction s as [|d s IH]; [done|].
  simpl. by destruct (is_white_space d).
Qed.

Lemma trimEnd_cons c s :
  trimEnd (c :: s)
  = match trimEnd s with
    | [] => if is_white_space c then [] else [c]
    | l => c :: l
    end.
Proof.
  unfold trimEnd. cbn [rev]. rewrite trimStart_snoc.
  destruct (trimStart (rev s)) as [|d l] eqn:Hl.
  - by destruct (is_white_space c).
  - rewrite rev_app_distr. cbn [rev app].
    destruct (rev l ++ [d]) eqn:Hr; [by destruct (rev l)|done].
Qed.

Lemma collapse_run s : collapse true s = collapse false (trimStart s).
Proof.
  induction s as [|c s IH]; [done|].
  simpl. destruct (is_white_space c) eqn:Hc; [done|].
  simpl. by rewrite Hc.
Qed.

Lemma trimStart_collapse s :
  trimStart (collapse false s) = collapse false (trimStart s).
Proof.
  destruct s as [|c s]; [done|].
  simpl. destruct (is_white_space c) eqn:Hc.
  - simpl. rewrite collapse_run.
    destruct (trimStart s) as [|d s'] eqn:Hs; [done|].
    assert (is_white_space d = false) as Hd.
    { clear -Hs. induction s as [|e s IH]; [done|].
      simpl in Hs. destruct (is_white_space e) eqn:He; [auto|].
      by injection Hs as -> ->. }
    simpl. rewrite Hd. simpl. by rewrite Hd.
  - simpl. by rewrite !Hc.
Qed.

Lemma single_spaced_cons c s :
  single_spaced (c :: s)
  = (negb (is_white_space c)
     || ((c =? 32)%N
         && match s with
            | d :: _ => negb (is_white_space d)
            | [] => false
            end))
    && single_spaced s.
Proof. done. Qed.

(** The end of a collapsed text, once trimmed, is single-spaced; after
    a run of white space it starts with another code unit. *)
Lemma trimEnd_collapse_spaced s :
  (∀ b, single_spaced (trimEnd (collapse b s)) = true)
  ∧ match trimEnd (collapse true s) with
    | c :: _ => is_white_space c = false
    | [] => True
    end.
Proof.
  induction s as [|c s [IH1 IH2]]; [split; [by intros []|done]|].
  assert (single_spaced (trimEnd (collapse false (c :: s))) = true
          ∧ (is_white_space c = false →
             match trimEnd (collapse false (c :: s)) with
             | d :: _ => is_white_space d = false
             | [] => True
             end)) as [Hfalse Hhead].
  { simpl. destruct (is_white_space c) eqn:Hc.
    - split; [|done]. rewrite trimEnd_cons.
      pose proof (IH1 true) as Hs.
      destruct (trimEnd (collapse true s)) as [|d l]; [done|].
      rewrite single_spaced_cons, IH2, Hs. done.
    - rewrite trimEnd_cons. pose proof (IH1 false) as Hs.
      destruct (trimEnd (collapse false s)) as [|d l].
      + rewrite Hc. rewrite single_spaced_cons, Hc. done.
      + split; [|done]. rewrite single_spaced_cons, Hc, Hs. done. }
  split.
  - intros [|]; [|exact Hfalse].
    simpl. simpl in Hfalse.
    destruct (is_white_space c) eqn:Hc; [apply IH1|exact Hfalse].
  - simpl. simpl in Hhead.
    destruct (is_white_space c) eqn:Hc; [exact IH2|by apply Hhead].
Qed.

Lemma trimEnd_collapse_head s :
  match s with c :: _ => is_white_space c = false | [] => True end →
  match trimEnd (collapse false s) with
  | c :: _ => is_white_space c = false
  | [] => True
  end.
Proof.
  destruct s as [|c s]; [done|]. intros Hc.
  simpl. rewrite Hc, trimEnd_cons.
  destruct (trimEnd (collapse false s)); by rewrite ?Hc.
Qed.

Lemma trimStart_head s :
  match trimStart s with c :: _ => is_white_space c = false | [] => True end.
Proof.
  induction s as [|c s IH]; [done|].
  simpl. by destruct (is_white_space c) eqn:Hc.
Qed.

Lemma normalize_normalized s : normalized (trim (collapse false s)) = true.
Proof.
  unfold trim, normalized. rewrite trimStart_collapse.
  pose proof (trimEnd_collapse_head (trimStart s) (trimStart_head s)) as Hh.
  destruct (trimEnd_collapse_spaced (trimStart s)) as [Hs _].
  specialize (Hs false).
  destruct (trimEnd (collapse false (trimStart s))); [done|].
  by rewrite Hh, Hs.
Qed.

Lemma single_spaced_collapse s :
  single_spaced s = true →
  collapse false s = s
  ∧ (match s with c :: _ => is_white_space c = false | [] => True end →
     collapse true s = s).
Proof.
  induction s as [|c s IH]; [done|].
  rewrite single_spaced_cons. intros [Hc Hs]%andb_true_iff.
  destruct (IH Hs) as [IHf IHt].
  destruct (is_white_space c) eqn:Hws.
  - simpl in Hc. apply andb_true_iff in Hc as [Hc Hnext].
    apply N.eqb_eq in Hc as ->.
    split; [|done]. simpl. f_equal. apply IHt.
    destruct s; [done|]. by apply negb_true_iff in Hnext.
  - simpl. rewrite Hws. split; [by rewrite IHf|intros _; by rewrite IHf].
Qed.

Lemma single_spaced_trimEnd s : single_spaced s = true → trimEnd s = s.
Proof.
  induction s as [|c s IH]; [done|].
  rewrite single_spaced_cons. intros [Hc Hs]%andb_true_iff.
  rewrite trimEnd_cons, (IH Hs).
  destruct s as [|d s]; [|done].
  destruct (is_white_space c); [|done].
  simpl in Hc. by rewrite andb_false_r in Hc.
Qed.

Lemma normalized_fixed s :
  normalized s = true → trim (collapse false s) = s.
Proof.
  unfold normalized. intros [Hh Hs]%andb_true_iff.
  destruct (single_spaced_collapse s Hs) as [-> _].
  unfold trim.
  assert (trimStart s = s) as ->.
  { destruct s as [|c s]; [done|]. simpl.
    apply negb_true_iff in Hh. by rewrite Hh. }
  by apply single_spaced_trimEnd.
Qed.

Lemma filter_collapse b s :
  List.filter (λ c, negb (is_white_space c)) (collapse b s)
  = List.filter (λ c, negb (is_white_space c)) s.
Proof.
  revert b. induction s as [|c s IH]; intros b; [done|].
  simpl. destruct (is_white_space c) eqn:Hc; simpl.
  - destruct b; simpl; apply IH.
  - rewrite Hc. simpl. by rewrite IH.
Qed.

Lemma filter_trimStart s :
  List.filter (λ c, negb (is_white_space c)) (trimStart s)
  = List.filter (λ c, negb (is_white_space c)) s.
Proof.
  induction s as [|c s IH]; [done|].
  simpl. destruct (is_white_space c) eqn:Hc; simpl; [done|].
  by rewrite Hc.
Qed.

Lemma filter_trimEnd s :
  List.filter (λ c, negb (is_white_space c)) (trimEnd s)
  = List.filter (λ c, negb (is_white_space c)) s.
Proof.
  induction s as [|c s IH]; [done|].
  rewrite trimEnd_cons. simpl.
  destruct (trimEnd s) as [|d l].
  - rewrite <- IH. by destruct (is_white_space c) eqn:Hc; simpl; rewrite ?Hc.
  - simpl. by rewrite <- IH.
Qed.
Lemma blank_collapse b s : blank (collapse b s) ↔ blank s.
Proof.
  unfold blank. revert b. induction s as [|c s IH]; intros b; [done|].
  simpl. destruct (is_white_space c) eqn:Hc.
  - destruct b; rewrite ?Forall_cons, IH; intuition.
  - rewrite !Forall_cons. rewrite IH. done.
Qed.
End Normalize.

(** X18. The text extracted for the AI service is normalized: it neither
    starts nor ends with white space and every white-space code unit in
    it is a single space between two other code units; its other code
    units are those of the text of the document, in the same order; it is
    empty exactly when that text is empty or white space only; and a text
    that is normalized already is returned as it is. *)
Theorem extractTextFromHTML_normalizes
    (text_of : AIConfigManager.jsstring → AIConfigManager.jsstring)
    (html : AIConfigManager.jsstring) :
  let text := AIService.extractTextFromHTML text_of html in
  normalized text = true
  ∧ List.filter (λ c, negb (AIConfigManager.is_white_space c)) text
    = List.filter (λ c, negb (AIConfigManager.is_white_space c))
        (text_of html)
  ∧ (text = [] ↔ AIConfigManager.blank (text_of html))
  ∧ (normalized (text_of html) = true → text = text_of html).
Proof.
  intros text. unfold text, AIService.extractTextFromHTML.
  split; [apply normalize_normalized|].
  split.
  { unfold AIConfigManager.trim.
    by rewrite filter_trimEnd, filter_trimStart, filter_collapse. }
  split; [|apply normalized_fixed].
  rewrite trim_nil. apply blank_collapse.
Qed.

Lemma extractTextFromHTML_normalizes_witness :
  AIService.extractTextFromHTML Sample2.as_is [104; 105; 32; 106]%N
  = [104; 105; 32; 106]%N.
Proof.
  apply (extractTextFromHTML_normalizes Sample2.as_is [104; 105; 32; 106]%N).
  reflexivity.
Defined.

(** ** Adding and renaming accounts *)

Section NewAccountFacts.
Import App Accounts.

Lemma create_computes uuid a st :
  create uuid a st
  = (Returned tt,
     logged [CallCfgUpdateAccounts]
       (set_cfg_accounts (<[ uuid := a ]> (cfg_accounts st)) st)).
Proof. done. Qed.

Lemma answered_spec v :
  answered v = true ↔ ∃ s, v = Some s ∧ s ≠ "".
Proof.
  unfold answered. destruct v as [s|].
  - rewrite negb_true_iff, bool_decide_eq_false.
    split; [by exists s|]. by intros (? & [= <-] & ?).
  - split; [done|]. by intros (? & [=] & _).
Qed.
End NewAccountFacts.

(** X19. Adding an account never throws and never touches a Collection,
    the storage or the current account.  Either nothing at all changes, or
    one entry is written to the accounts setting under the new id, with
    the type that was chosen and the name that was entered, which is not
    empty.  A local account needs only the name; a ttrss account also a
    server, a user name and a password, each non-empty; an inoreader
    account gets the built-in application id and key unless the answer to
    the second choice is yes, and so also when that choice is
    dismissed. *)
Theorem rss_new_account_creates (TTRSSApiURL : string → string)
    (uuid : string)
    (type name url username password custom appid appkey : option string)
    (st : App.t) :
  let run := Accounts.rss_new_account TTRSSApiURL uuid type name url username
               password custom appid appkey st in
  run.1 = App.Returned tt
  ∧ App.collections run.2 = App.collections st
  ∧ App.storage run.2 = App.storage st
  ∧ App.current_account run.2 = App.current_account st
  ∧ (run.2 = st
     ∨ ∃ a, run.2
            = logged [App.CallCfgUpdateAccounts]
                (App.set_cfg_accounts (<[ uuid := a ]> (App.cfg_accounts st))
                   st)
            ∧ type = Some (Accounts.account_type a)
            ∧ name = Some (Accounts.account_name a)
            ∧ Accounts.account_name a ≠ "")
  ∧ (∀ n, name = Some n → n ≠ "" →
       (type = Some "local" →
        App.cfg_accounts run.2 !! uuid = Some (App.LocalAccount n))
       ∧ (type = Some "ttrss" →
          Accounts.answered url && Accounts.answered username
          && Accounts.answered password = true →
          App.cfg_accounts run.2 !! uuid
          = Some (App.TTRSSAccount n (TTRSSApiURL (default "" url))
                    (default "" username) (default "" password)))
       ∧ (type = Some "ttrss" →
          Accounts.answered url && Accounts.answered username
          && Accounts.answered password = false →
          run.2 = st)
       ∧ (type = Some "inoreader" → custom ≠ Some "yes" →
          App.cfg_accounts run.2 !! uuid
          = Some (App.InoreaderAccount n "999999367"
                    "GOgPzs1RnPTok6q8kC8HgmUPji3DjspC"))).
Proof.
  intros run. unfold run, Accounts.rss_new_account.
  destruct type as [type|].
  { destruct (Accounts.answered name) eqn:Hname.
    - apply answered_spec in Hname as (n & -> & Hn).
      cbn [negb default].
      unfold Accounts.createLocalAccount, Accounts.createTTRSSAccount,
        Accounts.createInoreaderAccount.
      repeat case_decide; subst;
        repeat match goal with
               | |- context [Accounts.answered ?v] =>
                   destruct (Accounts.answered v) eqn:?
               end;
        cbn [negb andb]; rewrite ?create_computes; cbn [fst snd];
        (split; [done|]); (split; [done|]); (split; [done|]);
        (split; [done|]);
        (split;
         [first [by left
                |right; eexists; split; [done|]; by repeat split]
         |intros ? [= <-] _;
          repeat split; intros; simplify_eq;
          try done; try apply lookup_insert_eq]).
    - cbn [negb]. repeat split; try done; [by left|..];
        intros; simplify_eq; unfold Accounts.answered in Hname;
        rewrite bool_decide_false in Hname by done; done. }
  repeat split; try done; by left.
Qed.

Lemma sample_app2_ordinary c1 c2 : ordinary (Sample.app2 c1 c2).
Proof.
  split; [|split].
  - intros k [a Ha]. simpl in Ha.
    apply lookup_insert_Some in Ha as [[<- _]|[_ Ha]]; [done|].
    by apply lookup_singleton_Some in Ha as [<- _].
  - intros k [a Ha]. simpl in Ha.
    apply lookup_insert_Some in Ha as [[<- _]|[_ Ha]]; [done|].
    by apply lookup_singleton_Some in Ha as [<- _].
  - by intros k [= <-].
Qed.

(** X20. Deleting the current account leaves the controller pointing at
    it: the current account is still the deleted key, which has no
    Collection any more, so listing the favorites, and listing the
    articles when a feed is selected, throw.  Opening the accounts again,
    with a new id that is not the deleted key, repairs this when no
    account id in use, nor the new id, names a member inherited from
    [Object.prototype]: the current account is then a live one, the
    deleted key has no Collection, and the Collections of the other
    accounts are the ones that were live. *)
Theorem delete_current_account
    (keys_of : ∀ V, gmap string V → list string)
    (init : string → App.AccountCfg → Collection.Store
            → option Collection.Mem)
    (uuid key : string) (st : App.t) :
  lists_keys keys_of →
  (∀ key a dir, is_Some (init key a dir)) →
  ordinary st →
  App.inherited uuid = false →
  App.current_account st = Some key →
  is_Some (App.collections st !! key) →
  uuid ≠ key →
  let st1 := App.exec (App.rss_del_account (Some "yes") key) st in
  let st2 := App.exec (Accounts.initAccounts keys_of init uuid) st1 in
  App.current_account st1 = Some key
  ∧ App.collection (App.curr_key st1) st1 = None
  ∧ App.currFavorites st1 = (App.Thrown, st1)
  ∧ (is_Some (App.current_feed st) →
     App.currArticles st1 = (App.Thrown, st1))
  ∧ in_sync st2
  ∧ App.current_account st2 ≠ Some key
  ∧ App.collections st2 !! key = None
  ∧ (∀ other, other ≠ key →
       is_Some (App.cfg_accounts st !! other) →
       is_Some (App.collections st !! other) →
       App.collections st2 !! other = App.collections st !! other).
Proof.
  intros Hkeys Hinit (Hocfg & Holive & Hocur) Huuid Hcur [m Hm] Hne st1 st2.
  assert (App.collection key st
          = Some (Collection.mk m (App.persisted key st))) as Hc.
  { unfold App.collection. by rewrite Hm. }
  assert (st1
          = logged [App.CallCfgUpdateAccounts]
              (App.set_cfg_accounts (delete key (App.cfg_accounts st))
                 (App.set_collections (delete key (App.collections st))
                    (App.set_storage
                       (<[ key := Collection.empty_store ]> (App.storage st))
                       (logged [App.CallClean key] st))))) as Hst1.
  { unfold st1, App.exec, App.rss_del_account. rewrite decide_True by done.
    by rewrite (removeAccount_computes _ _ _ Hc). }
  assert (App.current_account st1 = Some key) as Hcur1
    by by rewrite Hst1.
  assert (App.collections st1 = delete key (App.collections st)) as Hcols1
    by by rewrite Hst1.
  assert (App.cfg_accounts st1 = delete key (App.cfg_accounts st)) as Hcfg1
    by by rewrite Hst1.
  assert (App.current_feed st1 = App.current_feed st) as Hfeed1
    by by rewrite Hst1.
  assert (App.collection (App.curr_key st1) st1 = None) as Hnone.
  { unfold App.curr_key, App.collection. rewrite Hcur1, Hcols1. simpl.
    by rewrite lookup_delete_eq. }
  assert (ordinary st1) as Hord1.
  { split; [|split].
    - intros k [a Ha]. rewrite Hcfg1 in Ha. apply Hocfg.
      apply lookup_delete_Some in Ha as [_ Ha]. by eexists.
    - intros k [a Ha]. rewrite Hcols1 in Ha. apply Holive.
      apply lookup_delete_Some in Ha as [_ Ha]. by eexists.
    - intros k Hk. rewrite Hcur1 in Hk. by apply Hocur; rewrite Hcur. }
  destruct (initAccounts_all keys_of init uuid st1 Hkeys Hinit Hord1 Huuid)
    as (_ & Hsync & Hcfg2 & _ & Hlook & _).
  fold st2 in Hsync, Hcfg2, Hlook.
  assert (App.cfg_accounts st2 !! key = None) as Hkey2.
  { rewrite Hcfg2.
    destruct (decide (App.cfg_accounts st1 = ∅));
      [by rewrite lookup_singleton_ne|].
    rewrite Hcfg1. apply lookup_delete_eq. }
  assert (App.collections st2 !! key = None) as Hgone.
  { destruct Hsync as [Hdom _].
    apply not_elem_of_dom. rewrite Hdom. by apply not_elem_of_dom. }
  split; [done|]. split; [done|].
  split.
  { unfold App.currFavorites, App.bind, App.gets, App.method.
    by rewrite Hnone. }
  split.
  { intros [feed Hfeed]. unfold App.currArticles, App.bind at 1, App.gets at 1.
    rewrite Hfeed1, Hfeed. unfold App.bind, App.gets, App.method.
    by rewrite Hnone. }
  split; [done|].
  split.
  { destruct Hsync as [_ (k & Hk & [c' Hlive])]. rewrite Hk.
    intros [= ->]. by rewrite Hgone in Hlive. }
  split; [done|].
  intros other Hother [a Ha] [c Hlive].
  assert (App.cfg_accounts st1 !! other = Some a) as Ha1
    by by rewrite Hcfg1, lookup_delete_ne.
  assert (App.cfg_accounts st2 !! other = Some a) as Ha2.
  { rewrite Hcfg2. rewrite decide_False; [done|].
    intros He. by rewrite He in Ha1. }
  rewrite (Hlook other a Ha2), Hcols1, lookup_delete_ne by done.
  by rewrite Hlive.
Qed.

Lemma delete_current_account_witness :
  let st1 := App.exec (App.rss_del_account (Some "yes") "acc-1")
               (Sample.app2 Sample.twoUnread Sample.archive) in
  App.currFavorites st1 = (App.Thrown, st1)
  ∧ App.current_account
      (App.exec (Accounts.initAccounts Sample2.keys_of Sample2.init "id-1")
         st1) ≠ Some "acc-1".
Proof.
  destruct (delete_current_account Sample2.keys_of Sample2.init "id-1"
              "acc-1" (Sample.app2 Sample.twoUnread Sample.archive))
    as (_ & _ & Hfav & _ & _ & Hcur & _).
  - intros V m k. unfold Sample2.keys_of.
    rewrite list_elem_of_fmap. split.
    + intros ([k' v] & -> & Hin). apply elem_of_map_to_list in Hin.
      by eexists.
    + intros [v Hv]. exists (k, v). split; [done|].
      by apply elem_of_map_to_list.
  - intros k a dir. by eexists.
  - apply sample_app2_ordinary.
  - reflexivity.
  - reflexivity.
  - by eexists.
  - discriminate.
  - split; [exact Hfav|exact Hcur].
Defined.

(** ** Reading an article and the unread feed *)

Section ReadUnreadFeed.
Import Collection.

Lemma List_filter_Permutation {A} (f : A → bool) (l l' : list A) :
  l ≡ₚ l' → List.filter f l ≡ₚ List.filter f l'.
Proof.
  induction 1 as [|x l l' _ IH|x y l|l1 l2 l3 _ IH1 _ IH2]; simpl.
  - done.
  - destruct (f x); [by constructor|done].
  - destruct (f x), (f y); try done. apply perm_swap.
  - by etrans.
Qed.

Lemma List_filter_join {A} (f : A → bool) (ls : list (list A)) :
  List.filter f (mjoin ls) = mjoin (List.filter f <$> ls).
Proof.
  induction ls as [|l ls IH]; [done|].
  simpl. by rewrite List.filter_app, IH.
Qed.

Context (c : t) (a : Abstract.t).
Context (Hkeyed : keyed c) (Ha : abstracts c !! Abstract.id a = Some a).

Lemma read_catalog s :
  List.filter unread
    (catalog_abstracts
       (commit (updateAbstract (Abstract.id a) (Abstract.set_read true a) c))
       s)
  = List.filter (λ x, bool_decide (Abstract.id x ≠ Abstract.id a))
      (List.filter unread (catalog_abstracts c s)).
Proof.
  unfold catalog_abstracts. rewrite commit_abstracts.
  induction (Summary.catalog s) as [|i l IH]; [done|].
  csimpl. destruct (decide (Abstract.id a = i)) as [<-|Hne].
  - rewrite updateAbstract_lookup, Ha. simpl.
    rewrite IH. destruct (unread a); [|done].
    simpl. by rewrite bool_decide_false by (intros ?; done).
  - rewrite updateAbstract_lookup_ne by done.
    destruct (abstracts c !! i) as [x|] eqn:Hx; simpl; [|done].
    destruct (unread x); [|done]. simpl.
    rewrite bool_decide_true; [by rewrite IH|].
    rewrite (Hkeyed i x Hx). congruence.
Qed.

Lemma read_unread :
  getArticles "<unread>"
    (commit (updateAbstract (Abstract.id a) (Abstract.set_read true a) c))
  ≡ₚ List.filter (λ x, bool_decide (Abstract.id x ≠ Abstract.id a))
       (getArticles "<unread>" c).
Proof.
  rewrite getArticles_unread_perm.
  rewrite (List_filter_Permutation _ _ _ (getArticles_unread_perm c)).
  rewrite !List_filter_join.
  change (summaries (commit (updateAbstract _ _ c))) with (summaries c).
  induction ((map_to_list (summaries c)).*2) as [|s l IH]; [done|].
  csimpl. rewrite read_catalog. by rewrite IH.
Qed.

Lemma read_unread_shorter :
  a ∈ getArticles "<unread>" c →
  (length (getArticles "<unread>"
             (commit (updateAbstract (Abstract.id a)
                        (Abstract.set_read true a) c)))
   < length (getArticles "<unread>" c))%nat.
Proof.
  intros Hin. rewrite read_unread.
  induction (getArticles "<unread>" c) as [|x l IH];
    [by apply elem_of_nil in Hin|].
  simpl. apply elem_of_cons in Hin as [<-|Hin].
  - rewrite bool_decide_false by (intros ?; done).
    pose proof (List.filter_length_le
                  (λ x, bool_decide (Abstract.id x ≠ Abstract.id a)) l).
    lia.
  - specialize (IH Hin). destruct (bool_decide _); simpl; lia.
Qed.
End ReadUnreadFeed.

(** X21. Reading an article of the current account, or marking it read,
    takes exactly the entries with its id out of the unread feed and
    leaves the others.  The Next button of the article panel only asks
    for the unread feed when nothing is unread.  Otherwise it disposes
    the panel and reads the first article of the unread feed, which is
    the newest.  When the content of that article is there, a new panel
    is created, the lists are refreshed, the article is registered as
    read and committed, and the unread feed is shorter afterwards, so
    that pressing Next again and again comes to an end.  When the content
    is not there, the command throws after the panel was disposed:
    nothing is opened and nothing is marked. *)
Theorem read_shrinks_unread (st : App.t) (c : Collection.t) :
  App.collection (App.curr_key st) st = Some c →
  keyed c →
  let key := App.curr_key st in
  (∀ a st',
     Collection.abstracts c !! Abstract.id a = Some a →
     st' = App.exec (App.rss_mark_read a) st
     ∨ (is_Some (Collection.contents c !! Abstract.id a)
        ∧ st' = App.exec (App.rss_read a) st) →
     ∃ c', App.collection key st' = Some c'
           ∧ Collection.getArticles "<unread>" c'
             ≡ₚ List.filter
                  (λ x, bool_decide (Abstract.id x ≠ Abstract.id a))
                  (Collection.getArticles "<unread>" c))
  ∧ (∀ x,
       match Collection.getArticles "<unread>" c with
       | [] =>
           App.panel_message App.MsgNext x st
           = (App.Returned tt,
              after key c [App.CallGetArticles key "<unread>"] st)
       | b :: rest =>
           Forall (λ y, Abstract.date y ≤ Abstract.date b) rest
           ∧ (is_Some (Collection.contents c !! Abstract.id b) →
              ∃ c',
                App.panel_message App.MsgNext x st
                = (App.Returned tt,
                   after key c'
                     ([App.CallGetArticles key "<unread>";
                       App.CallDisposePanel;
                       App.CallGetContent key (Abstract.id b);
                       App.CallCreatePanel (Abstract.title b);
                       App.CallGetArticles key "<unread>"]
                      ++ refresh_calls App.ALL_LISTS
                      ++ [App.CallUpdateAbstract key (Abstract.id b);
                          App.CallCommit key]) st)
                ∧ Collection.abstracts c' !! Abstract.id b
                  = Some (Abstract.set_read true b)
                ∧ (length (Collection.getArticles "<unread>" c')
                   < length (Collection.getArticles "<unread>" c))%nat)
           ∧ (Collection.contents c !! Abstract.id b = None →
              App.panel_message App.MsgNext x st
              = (App.Thrown,
                 after key c
                   [App.CallGetArticles key "<unread>";
                    App.CallDisposePanel;
                    App.CallGetContent key (Abstract.id b)] st))
       end).
Proof.
  intros Hc Hkeyed key. split.
  - intros a st' Ha [->|[[body Hbody] ->]]; unfold App.exec.
    + rewrite (rss_mark_read_computes a st c Hc). cbn [snd].
      eexists. split; [apply collection_after|]. by apply read_unread.
    + rewrite (rss_read_computes a body st c Hc Hbody). cbn [snd].
      eexists. split; [apply collection_after|]. by apply read_unread.
  - intros x.
    assert (App.panel_message App.MsgNext x st
            = match Collection.getArticles "<unread>" c with
              | [] =>
                  (App.Returned tt,
                   after key c [App.CallGetArticles key "<unread>"] st)
              | b :: _ =>
                  App.rss_read b
                    (after key c [App.CallGetArticles key "<unread>";
                                  App.CallDisposePanel] st)
              end) as Hnext.
    { unfold App.panel_message.
      unfold App.bind at 1, App.gets at 1. unfold App.bind at 1.
      rewrite (method_start _ _ _ _ _ Hc). unfold App.query. cbn [fst snd].
      destruct (Collection.getArticles "<unread>" c); [done|].
      unfold App.bind at 1. by rewrite call_after. }
    rewrite Hnext. clear Hnext.
    pose proof (getArticles_unread_sorted c) as Hsorted.
    destruct (Collection.getArticles "<unread>" c) as [|b rest] eqn:Hunread;
      [done|].
    assert (b ∈ Collection.getArticles "<unread>" c) as Hin
      by (rewrite Hunread; apply list_elem_of_here).
    assert (Collection.abstracts c !! Abstract.id b = Some b) as Hb.
    { destruct (getArticles_filed _ _ _ Hin) as (i & Hi).
      by rewrite (Hkeyed i b Hi). }
    match goal with |- context [App.rss_read b ?s] => set (st0 := s) end.
    assert (App.collection (App.curr_key st0) st0 = Some c) as Hc0
      by apply collection_after.
    split; [by apply StronglySorted_inv in Hsorted as [_ Hall]|].
    split.
    + intros [body Hbody].
      rewrite (rss_read_computes b body st0 c Hc0 Hbody).
      eexists. split; [unfold st0; by rewrite after_after|].
      split.
      * rewrite commit_abstracts, updateAbstract_lookup, Hb. simpl.
        by rewrite apply_state_read.
      * rewrite <- Hunread. by apply read_unread_shorter.
    + intros Hnone.
      unfold App.rss_read, App.bind at 1, App.gets at 1.
      unfold App.bind at 1.
      change (App.curr_key st0) with (App.curr_key st).
      subst st0. unfold key.
      rewrite method_after. unfold App.query. cbn [fst snd].
      unfold Collection.getContent. by rewrite Hnone.
Qed.

Lemma read_shrinks_unread_witness :
  ∃ c', App.collection "acc-1"
          (App.exec (App.rss_mark_read Sample.A)
             (Sample.app Sample.twoUnread)) = Some c'
        ∧ Collection.getArticles "<unread>" c'
          ≡ₚ List.filter (λ x, bool_decide (Abstract.id x ≠ "A"))
               (Collection.getArticles "<unread>" Sample.twoUnread).
Proof.
  destruct (read_shrinks_unread (Sample.app Sample.twoUnread)
              Sample.twoUnread) as [H _].
  - reflexivity.
  - unfold keyed. apply (bool_decide_unpack _). by vm_compute.
  - apply (H Sample.A).
    + reflexivity.
    + by left.
Defined.

(** ** Clearing the brief cache *)

(** X22. Clearing the brief cache without an article id empties it, and
    so does clearing it with the empty string as the id.  With another id
    only the brief of that article goes.  Nothing else of the panel
    changes, and an article whose brief was cleared and that is not being
    generated is open to a new generation. *)
Theorem clearCache_reopens (st : AIBriefPanel.t) :
  AIBriefPanel.getCacheSize (AIBriefPanel.clearCache None st) = 0%nat
  ∧ AIBriefPanel.clearCache (Some "") st = AIBriefPanel.clearCache None st
  ∧ (∀ id, id ≠ "" →
       AIBriefPanel.briefCache (AIBriefPanel.clearCache (Some id) st)
       = delete id (AIBriefPanel.briefCache st)
       ∧ (is_Some (AIBriefPanel.briefCache st !! id) →
          S (AIBriefPanel.getCacheSize (AIBriefPanel.clearCache (Some id) st))
          = AIBriefPanel.getCacheSize st))
  ∧ (∀ articleId,
       AIBriefPanel.generatingArticles (AIBriefPanel.clearCache articleId st)
       = AIBriefPanel.generatingArticles st
       ∧ AIBriefPanel.posts (AIBriefPanel.clearCache articleId st)
         = AIBriefPanel.posts st
       ∧ AIBriefPanel.requests (AIBriefPanel.clearCache articleId st)
         = AIBriefPanel.requests st
       ∧ AIBriefPanel.configManager (AIBriefPanel.clearCache articleId st)
         = AIBriefPanel.configManager st)
  ∧ (∀ articleId id,
       id ∉ AIBriefPanel.generatingArticles st →
       articleId = None ∨ articleId = Some "" ∨ articleId = Some id →
       admissible id (AIBriefPanel.clearCache articleId st)).
Proof.
  split; [done|]. split; [done|].
  split.
  { intros id Hid. unfold AIBriefPanel.clearCache, AIBriefPanel.getCacheSize.
    rewrite decide_False by done. split; [done|].
    intros [md Hmd]. simpl.
    rewrite <- (insert_delete_id _ _ _ Hmd) at 2.
    rewrite map_size_insert, lookup_delete_eq. done. }
  split.
  { intros articleId. unfold AIBriefPanel.clearCache.
    destruct articleId as [id|]; [case_decide|]; done. }
  intros articleId id Hgen Hwhich. split.
  - left. unfold AIBriefPanel.clearCache.
    destruct Hwhich as [Hw|[Hw|Hw]]; subst articleId; [done|done|].
    case_decide; [done|]. apply lookup_delete_eq.
  - unfold AIBriefPanel.clearCache.
    destruct articleId as [id'|]; [case_decide|]; done.
Qed.

Lemma clearCache_reopens_witness :
  admissible "A"
    (AIBriefPanel.clearCache (Some "A")
       (Sample2.generate Sample2.hi Sample.A (inl [72; 105]%N)
          Sample2.panel)).
Proof.
  destruct (clearCache_reopens
              (Sample2.generate Sample2.hi Sample.A (inl [72; 105]%N)
                 Sample2.panel)) as (_ & _ & _ & _ & H).
  apply (H (Some "A") "A").
  - vm_compute. set_solver.
  - by right; right.
Defined.
